(** * neo4chain: the Ethereum ETL, embedded and checked against its specification

    The development follows the two source files of the repository:

    - [src/eth/ethereumetl/service/token_transfer_extractor.py]: the decoder of
      ERC-20 [Transfer] logs ([Extractor]);
    - [src/eth/etl.py]: block enrichment, address registration, the Cypher
      writes and the checker/syncer work flow ([ETL]), over a model of the
      property graph the Cypher statements act on ([Cypher]).

    Python integers are unbounded, hence [Z].  A value that web3 hands over
    either as [str] or as [HexBytes] is a [PyHex].  Dictionaries keyed by the
    transaction hash are [gmap string _]. *)

From Stdlib Require Import ZArith List String Ascii Bool Lia DecimalString.
From Stdlib.Strings Require Import Byte.
From stdpp Require Import gmap strings.

Import ListNotations.
Local Open Scope string_scope.
Local Open Scope Z_scope.

(** ** Python values and string helpers *)

Module Py.

(** A hash, topic or signature component: [str] or [HexBytes]. *)
Inductive PyHex : Type :=
| PStr (s : string)
| PHexBytes (bs : list byte).

Definition hex_digit (n : N) : ascii :=
  match String.get (N.to_nat n) "0123456789abcdef" with
  | Some c => c
  | None => "0"%char
  end.

Definition hex_of_byte (b : byte) : string :=
  let n := Byte.to_N b in
  String (hex_digit (n / 16)) (String (hex_digit (n mod 16)) EmptyString).

(** [HexBytes.hex()]: the 0x-prefixed lower-case hexadecimal text. *)
Definition hex (bs : list byte) : string :=
  "0x" +:+ String.concat "" (List.map hex_of_byte bs).

(** [x if type(x) is not HexBytes else x.hex()] *)
Definition hex_str (x : PyHex) : string :=
  match x with
  | PStr s => s
  | PHexBytes bs => hex bs
  end.

(** Slices [s[n:]], [s[:n]] and [s[-n:]]. *)
Fixpoint drop_str (n : nat) (s : string) : string :=
  match n, s with
  | O, _ => s
  | S _, EmptyString => EmptyString
  | S k, String _ r => drop_str k r
  end.

Fixpoint take_str (n : nat) (s : string) : string :=
  match n, s with
  | O, _ => EmptyString
  | S _, EmptyString => EmptyString
  | S k, String c r => String c (take_str k r)
  end.

Definition last_str (n : nat) (s : string) : string :=
  drop_str (String.length s - n) s.

Definition lower_ascii (c : ascii) : ascii :=
  let n := N_of_ascii c in
  if ((65 <=? n) && (n <=? 90))%N then ascii_of_N (n + 32) else c.

(** [str.lower()] *)
Fixpoint lower (s : string) : string :=
  match s with
  | EmptyString => EmptyString
  | String c r => String (lower_ascii c) (lower r)
  end.

Definition hex_val (c : ascii) : option Z :=
  let n := Z.of_N (N_of_ascii c) in
  if (48 <=? n) && (n <=? 57) then Some (n - 48)
  else if (97 <=? n) && (n <=? 102) then Some (n - 87)
  else if (65 <=? n) && (n <=? 70) then Some (n - 55)
  else None.

Fixpoint parse_hex_digits (s : string) (acc : Z) : option Z :=
  match s with
  | EmptyString => Some acc
  | String c r =>
      match hex_val c with
      | Some d => parse_hex_digits r (16 * acc + d)
      | None => None
      end
  end.

(** The hexadecimal digits of a text, after an optional [0x] prefix, read
    as a number; [None] where the text is not one. *)
Definition int16 (s : string) : option Z :=
  let body := if String.prefix "0x" s then drop_str 2 s else s in
  match body with
  | EmptyString => None
  | _ => parse_hex_digits body 0
  end.

Definition is_space (c : ascii) : bool :=
  let n := N_of_ascii c in
  ((9 <=? n) && (n <=? 13) || (n =? 32))%N.

Fixpoint lstrip (s : string) : string :=
  match s with
  | String c r => if is_space c then lstrip r else s
  | EmptyString => s
  end.

Fixpoint all_space (s : string) : bool :=
  match s with
  | String c r => is_space c && all_space r
  | EmptyString => true
  end.

(** The digits of a literal, single underscores between them allowed: the
    value, and the text left where the digits end.  [prev] tells that the
    last character read was an underscore. *)
Fixpoint scan_hex_digits (s : string) (acc : Z) (prev : bool) : option (Z * string) :=
  match s with
  | EmptyString => if prev then None else Some (acc, s)
  | String c r =>
      if Ascii.eqb c "_" then
        if prev then None else scan_hex_digits r acc true
      else
        match hex_val c with
        | Some d => scan_hex_digits r (16 * acc + d) false
        | None => if prev then None else Some (acc, s)
        end
  end.

(** Python's [int(s, 16)] on an ASCII text: white space around the literal,
    a sign, a [0x] or [0X] prefix with one underscore after it, and
    hexadecimal digits with single underscores between them, at least one
    digit; [None] stands for the [ValueError]. *)
Definition int_base16 (s : string) : option Z :=
  let s := lstrip s in
  let '(sign, s) :=
    match s with
    | String "+" r => (1, r)
    | String "-" r => (-1, r)
    | _ => (1, s)
    end in
  let s :=
    match s with
    | String "0" (String c r) =>
        if Ascii.eqb c "x" || Ascii.eqb c "X" then
          match r with
          | String "_" r' => r'
          | _ => r
          end
        else s
    | _ => s
    end in
  match s with
  | String "_" _ => None
  | _ =>
      match scan_hex_digits s 0 false with
      | Some (v, rest) =>
          if (String.length rest <? String.length s)%nat && all_space rest
          then Some (sign * v)
          else None
      | None => None
      end
  end.

(** [str(n)] of an integer. *)
Definition str (n : Z) : string := NilZero.string_of_int (Z.to_int n).

End Py.
Export Py.

(** ** ethereumetl.utils

    The module is imported by the extractor but is not among the source
    files; its three helpers are written from the specification. *)

Module Utils.

(** Modelled from the spec: [chunk_string] of ethereumetl.utils is missing;
    the payload is split "into fixed 32-byte (64 hex-character) words", the
    last one possibly shorter.  The fuel is the length of the text. *)
Fixpoint chunk_string_from (fuel : nat) (s : string) (n : nat) : list string :=
  match fuel, s with
  | O, _ => []
  | _, EmptyString => []
  | S f, _ => take_str n s :: chunk_string_from f (drop_str n s) n
  end.

(** Modelled from the spec: [chunk_string] of ethereumetl.utils, the words of
    a payload. *)
Definition chunk_string (s : string) (n : nat) : list string :=
  chunk_string_from (String.length s) s n.

(** Modelled from the spec: [to_normalized_address] of ethereumetl.utils is
    missing; addresses are normalized "to lower-case 0x-prefixed form". *)
Definition to_normalized_address (a : string) : string := lower a.

(** Modelled from the spec: [hex_to_dec] of ethereumetl.utils is missing;
    "the value word is hex-decoded to an unsigned integer", and [None] is
    the [ValueError] the extractor catches.  A [HexBytes] word is read
    through its hexadecimal text. *)
Definition hex_to_dec (w : PyHex) : option Z := int16 (hex_str w).

End Utils.
Export Utils.

(** ** token_transfer_extractor.py *)

Module Extractor.

Definition TRANSFER_EVENT_TOPIC : string :=
  "0xddf252ad1be2c89b69c2b068fc378daa952ba7f163c4a11628f55a4df523b3ef".

(** [class EthTokenTransfer], once every field is assigned. *)
Record EthTokenTransfer : Type := {
  token_address : string;
  from_address : string;
  to_address : string;
  value : Z;
  transaction_hash : option string;
  log_index : option Z;
  block_number : option Z;
  value_raw : PyHex
}.

(** A receipt log, with the keys the extractor reads.  A key that is absent
    (or holds [None]) is [None]. *)
Record ReceiptLog : Type := {
  rl_topics : option (list PyHex);
  rl_data : string;
  rl_address : string;
  rl_transaction_hash : option PyHex;
  rl_transactionHash : option PyHex;
  rl_log_index : option Z;
  rl_logIndex : option Z;
  rl_block_number : option Z;
  rl_blockNumber : option Z
}.

(** [d.get(k1, d.get(k2))] *)
Definition get2 {A} (first second : option A) : option A :=
  match first with
  | Some v => Some v
  | None => second
  end.

Definition split_to_words (data : string) : list PyHex :=
  if (2 <? String.length data)%nat then
    let data_without_0x := drop_str 2 data in
    let words := chunk_string data_without_0x 64 in
    List.map (fun word => PStr ("0x" +:+ word)) words
  else [].

Definition word_to_address (param : PyHex) : string :=
  let param := hex_str param in
  if (40 <=? String.length param)%nat
  then to_normalized_address ("0x" +:+ last_str 40 param)
  else to_normalized_address param.

Definition _parse_transfer (topics : list PyHex) (receipt_log : ReceiptLog)
  : option EthTokenTransfer :=
  let topics_with_data := (topics ++ split_to_words (rl_data receipt_log))%list in
  let transaction_hash :=
    hex_str <$> get2 (rl_transaction_hash receipt_log) (rl_transactionHash receipt_log) in
  let log_index := get2 (rl_log_index receipt_log) (rl_logIndex receipt_log) in
  match topics_with_data with
  | [_; w1; w2; w3] =>
      match hex_to_dec w3 with
      | Some v =>
          Some {| token_address := to_normalized_address (rl_address receipt_log);
                  from_address := word_to_address w1;
                  to_address := word_to_address w2;
                  value_raw := w3;
                  value := v;
                  transaction_hash := transaction_hash;
                  log_index := log_index;
                  block_number :=
                    get2 (rl_block_number receipt_log) (rl_blockNumber receipt_log) |}
      | None => None
      end
  | _ => None
  end.

Definition extract_transfer_from_log (receipt_log : ReceiptLog)
  : option EthTokenTransfer :=
  match rl_topics receipt_log with
  | None | Some [] => None
  | Some ((t0 :: _) as topics) =>
      match t0 with
      | PStr s =>
          if String.eqb s TRANSFER_EVENT_TOPIC
          then _parse_transfer topics receipt_log
          else None
      | PHexBytes _ => _parse_transfer topics receipt_log
      end
  end.

End Extractor.
Export Extractor.


(** ** The graph store

    The Cypher statements of [etl.py] act on a property graph: nodes with a
    set of labels and a property map, directed edges with a type and a
    property map.  The new-node counter stands for the identities neo4j
    hands out. *)

Module Cypher.

Inductive Value : Type :=
| VNull
| VInt (n : Z)
| VStr (s : string)
| VBool (b : bool)
| VBytes (bs : list byte).

(** Cypher's [=] on property values; [null] equals nothing. *)
Definition Value_eqb (v w : Value) : bool :=
  match v, w with
  | VInt a, VInt b => a =? b
  | VStr a, VStr b => String.eqb a b
  | VBool a, VBool b => Bool.eqb a b
  | VBytes a, VBytes b => bool_decide (List.map Byte.to_N a = List.map Byte.to_N b)
  | _, _ => false
  end.

Definition of_hex (x : PyHex) : Value :=
  match x with
  | PStr s => VStr s
  | PHexBytes bs => VBytes bs
  end.

Definition of_option {A} (f : A -> Value) (o : option A) : Value :=
  match o with
  | Some a => f a
  | None => VNull
  end.

Definition Props : Type := list (string * Value).

Fixpoint get_prop (k : string) (ps : Props) : option Value :=
  match ps with
  | [] => None
  | (k', v) :: r => if String.eqb k k' then Some v else get_prop k r
  end.

(** [SET n.k = v] *)
Fixpoint set_prop (k : string) (v : Value) (ps : Props) : Props :=
  match ps with
  | [] => [(k, v)]
  | (k', v') :: r =>
      if String.eqb k k' then (k, v) :: r else (k', v') :: set_prop k v r
  end.

(** A property map as a [CREATE] stores it: a [null] entry is not stored. *)
Definition stored (ps : Props) : Props :=
  List.filter (fun kv => match snd kv with VNull => false | _ => true end) ps.

Record Node : Type := {
  node_id : nat;
  node_labels : list string;
  node_props : Props
}.

Record Edge : Type := {
  edge_src : nat;
  edge_type : string;
  edge_props : Props;
  edge_dst : nat
}.

Record Graph : Type := {
  nodes : list Node;
  edges : list Edge;
  next_id : nat
}.

Definition empty_graph : Graph := {| nodes := []; edges := []; next_id := O |}.

Definition has_label (l : string) (n : Node) : bool :=
  existsb (String.eqb l) (node_labels n).

(** [SET n :l]; labels form a set, so a label the node carries is not added
    again. *)
Definition add_label (l : string) (n : Node) : Node :=
  if has_label l n then n
  else {| node_id := node_id n;
          node_labels := node_labels n ++ [l];
          node_props := node_props n |}.

Definition has_prop (n : Node) (kv : string * Value) : bool :=
  match get_prop (fst kv) (node_props n) with
  | Some w => Value_eqb (snd kv) w
  | None => false
  end.

(** The node pattern [(:l1:l2 {k1: v1, ...})]. *)
Definition matches (ls : list string) (ps : Props) (n : Node) : bool :=
  forallb (fun l => has_label l n) ls && forallb (has_prop n) ps.

(** [MATCH (x:ls {ps})]: the nodes bound to [x], in store order. *)
Definition MATCH (ls : list string) (ps : Props) (g : Graph) : list Node :=
  List.filter (matches ls ps) (nodes g).

(** The constraints [create_db] installs. *)
Inductive Constraint : Type :=
| Unique (label key : string)
| NodeKey (label : string) (keys : list string).

Definition schema : list Constraint :=
  [ Unique "Block" "hash";
    Unique "Block" "number";
    Unique "Address" "address";
    Unique "Transaction" "hash";
    NodeKey "TokenTransfer" ["transaction_hash"; "log_index"] ].

Fixpoint key_values (ks : list string) (ps : Props) : option Props :=
  match ks with
  | [] => Some []
  | k :: r =>
      match get_prop k ps, key_values r ps with
      | Some v, Some kvs => Some ((k, v) :: kvs)
      | _, _ => None
      end
  end.

(** Whether adding node [n] to [g] breaks constraint [c]: a uniqueness
    constraint when another node of the label has the same value, a node
    key also when a key property is missing. *)
Definition breaks (g : Graph) (n : Node) (c : Constraint) : bool :=
  match c with
  | Unique l k =>
      has_label l n &&
      match get_prop k (node_props n) with
      | Some v => existsb (matches [l] [(k, v)]) (nodes g)
      | None => false
      end
  | NodeKey l ks =>
      has_label l n &&
      match key_values ks (node_props n) with
      | Some kvs => existsb (matches [l] kvs) (nodes g)
      | None => true
      end
  end.

Definition violates (g : Graph) (n : Node) : bool := existsb (breaks g n) schema.

(** *** Exceptions and the two layers of effects *)

Inductive exn : Type :=
| AssertionError
| ConstraintError
| IndexError
| KeyError
| TypeError
| UnboundLocalError
| ValueError.

(** What runs inside one neo4j transaction (the functions that take [t]). *)
Inductive result (A : Type) : Type :=
| Ok (a : A)
| Raise (e : exn).
Arguments Ok {A} a.
Arguments Raise {A} e.

Definition Tx (A : Type) : Type := Graph -> result (A * Graph).

#[global] Instance Tx_ret : MRet Tx := fun A a g => Ok (a, g).
#[global] Instance Tx_bind : MBind Tx := fun A B f m g =>
  match m g with
  | Ok (a, g') => f a g'
  | Raise e => Raise e
  end.

Definition raise {A} (e : exn) : Tx A := fun _ => Raise e.

(** What runs in a session of the process: transactions that commit or roll
    back, exceptions that end the task, and [os._exit]. *)
Inductive outcome (A : Type) : Type :=
| Done (a : A)
| Raised (e : exn)
| Exited.
Arguments Done {A} a.
Arguments Raised {A} e.
Arguments Exited {A}.

Definition Session (A : Type) : Type := Graph -> outcome A * Graph.

#[global] Instance Session_ret : MRet Session := fun A a g => (Done a, g).
#[global] Instance Session_bind : MBind Session := fun A B f m g =>
  match m g with
  | (Done a, g') => f a g'
  | (Raised e, g') => (Raised e, g')
  | (Exited, g') => (Exited, g')
  end.

Definition throw {A} (e : exn) : Session A := fun g => (Raised e, g).
Definition os_exit {A} : Session A := fun g => (Exited, g).

(** [session.write_transaction(f, ...)] and [session.read_transaction]:
    commit when [f] returns, roll back when it raises. *)
Definition write_transaction {A} (f : Tx A) : Session A := fun g =>
  match f g with
  | Ok (a, g') => (Done a, g')
  | Raise e => (Raised e, g)
  end.

Definition read_transaction {A} (f : Tx A) : Session A := write_transaction f.

(** [result.values()] of a [Result] that a transaction function has returned
    unread, called once [read_transaction] has returned: the transaction has
    ended and consumed the result, and no record is left to read. *)
Definition values_after_the_transaction {A} (result : list A) : list A := [].

(** [try: body except Exception as e: logger.error(e); os._exit(0)] *)
Definition or_exit {A} (body : Session A) : Session A := fun g =>
  match body g with
  | (Raised _, g') => (Exited, g')
  | r => r
  end.

(** A task handed to a [ThreadPoolExecutor]: what it raises stays in its
    future, which nobody reads. *)
Definition submitted (task : Session unit) : Session unit := fun g =>
  match task g with
  | (Raised _, g') => (Done tt, g')
  | r => r
  end.

Fixpoint for_tx {A} (l : list A) (body : A -> Tx unit) : Tx unit :=
  match l with
  | [] => mret tt
  | a :: r => body a ≫= fun _ => for_tx r body
  end.

Fixpoint for_each {A} (l : list A) (body : A -> Session unit) : Session unit :=
  match l with
  | [] => mret tt
  | a :: r => body a ≫= fun _ => for_each r body
  end.

(** A loop that carries a local variable from one iteration to the next. *)
Fixpoint for_each_with {A S} (l : list A) (body : A -> S -> Session S) (s : S)
  : Session S :=
  match l with
  | [] => mret s
  | a :: r => body a s ≫= for_each_with r body
  end.

(** *** Statements *)

Definition add_node (g : Graph) (n : Node) : Graph :=
  {| nodes := nodes g ++ [n]; edges := edges g; next_id := S (next_id g) |}.

Definition add_edge (g : Graph) (e : Edge) : Graph :=
  {| nodes := nodes g; edges := edges g ++ [e]; next_id := next_id g |}.

Definition update_matching (ls : list string) (ps : Props) (f : Node -> Node)
  (g : Graph) : Graph :=
  {| nodes := List.map (fun n => if matches ls ps n then f n else n) (nodes g);
     edges := edges g; next_id := next_id g |}.

(** The node a [CREATE (x:ls {ps})] makes in [g]. *)
Definition new_node (g : Graph) (ls : list string) (ps : Props) : Node :=
  {| node_id := next_id g; node_labels := ls; node_props := stored ps |}.

(** [CREATE (x:ls {ps})], bound to the new node. *)
Definition create_node (ls : list string) (ps : Props) : Tx Node := fun g =>
  let n := new_node g ls ps in
  if violates g n then Raise ConstraintError else Ok (n, add_node g n).

Definition new_edge (a : Node) (ty : string) (ps : Props) (b : Node) : Edge :=
  {| edge_src := node_id a; edge_type := ty;
     edge_props := stored ps; edge_dst := node_id b |}.

(** [CREATE (a)-[:ty {ps}]->(b)] *)
Definition create_edge (a : Node) (ty : string) (ps : Props) (b : Node) : Tx unit :=
  fun g => Ok (tt, add_edge g (new_edge a ty ps b)).

(** [MATCH (x:ls {ps}) SET ...]: every node bound to [x] is updated. *)
Definition update_nodes (ls : list string) (ps : Props) (f : Node -> Node) : Tx unit :=
  fun g => Ok (tt, update_matching ls ps f g).

(** [MERGE (x:ls {ps})]: bind the existing matches, or create the node. *)
Definition merge_node (ls : list string) (ps : Props) : Tx unit := fun g =>
  match MATCH ls ps g with
  | [] => (create_node ls ps ≫= fun _ => mret tt) g
  | _ => Ok (tt, g)
  end.

(** The rows of [MATCH ... RETURN x, y], read through [.data()]: one
    dictionary per row, from the returned names to the node (or [null]). *)
Definition Row : Type := list (string * option Node).

Fixpoint row_get (k : string) (r : Row) : option (option Node) :=
  match r with
  | [] => None
  | (k', v) :: rest => if String.eqb k k' then Some v else row_get k rest
  end.

(** [MATCH ... CREATE p = ... RETURN count(p)]: the pattern is created once
    per matched row, and the single returned row counts them. *)
Definition create_per_row {R} (rows : list R) (create : R -> Tx unit)
  : Tx (list (list Value)) :=
  for_tx rows create ≫= fun _ => mret [[VInt (Z.of_nat (List.length rows))]].

(** The rows a [MATCH] with one, two or three node patterns binds: their
    Cartesian product. *)
Definition match1 (ls : list string) (ps : Props) : Tx (list Node) :=
  fun g => Ok (MATCH ls ps g, g).

Definition match2 (ls1 : list string) (ps1 : Props) (ls2 : list string) (ps2 : Props)
  : Tx (list (Node * Node)) :=
  fun g => Ok (list_prod (MATCH ls1 ps1 g) (MATCH ls2 ps2 g), g).

Definition match3 (ls1 : list string) (ps1 : Props) (ls2 : list string) (ps2 : Props)
  (ls3 : list string) (ps3 : Props) : Tx (list (Node * Node * Node)) :=
  fun g =>
    Ok (list_prod (list_prod (MATCH ls1 ps1 g) (MATCH ls2 ps2 g)) (MATCH ls3 ps3 g), g).

(** [assert results[0][0] == 1] *)
Definition assert_one (results : list (list Value)) : Tx unit :=
  match results with
  | (v :: _) :: _ => if Value_eqb v (VInt 1) then mret tt else raise AssertionError
  | _ => raise IndexError
  end.

End Cypher.
Export Cypher.

(** ** etl.py *)

Module ETL.

(** *** What the chain node hands over *)

(** [transaction['transactionIndex']]: an [int], or a [str] some nodes
    send. *)
Inductive PyIndex : Type :=
| IndexInt (n : Z)
| IndexStr (s : string).

Record Transaction : Type := {
  tx_hash : PyHex;
  tx_from : string;
  tx_to : option string;
  tx_value : Z;
  tx_input : string;
  tx_nonce : Z;
  tx_r : PyHex;
  tx_s : PyHex;
  tx_v : Z;
  tx_transactionIndex : PyIndex;
  tx_gas : Z;
  tx_gasPrice : Z
}.

Record Receipt : Type := {
  logs : list ReceiptLog;
  gasUsed : Z;
  contractAddress : option string
}.

Record UncleBlock : Type := {
  uncle_miner : string;
  uncle_number : PyHex
}.

Record Block : Type := {
  number : Z;
  hash : PyHex;
  timestamp : Z;
  size : Z;
  nonce : PyHex;
  difficulty : Z;
  totalDifficulty : Z;
  gasLimit : Z;
  block_gasUsed : Z;
  miner : string;
  uncles : list PyHex;
  transactions : list Transaction
}.

(** The block after [enhance_block]: the attributes it adds to the block's
    [__dict__], next to the block as fetched. *)
Record EnrichedBlock : Type := {
  raw : Block;
  uncle_blocks : list UncleBlock;
  created_contracts : gmap string (option string);
  transfers : gmap string (list EthTokenTransfer);
  transaction_receipt : gmap string Receipt;
  reward : Z
}.

(** [self]: the collaborators an [EthereumETL] object reaches.  The web3
    client answers every request ([getCode] answers [None] where
    [Web3.toChecksumAddress] or the request raises).  The modules
    [reward_calculator], [helpers] and [eth_contract_service] are imported
    by [etl.py] but are not among the source files: their functions are
    fields. *)
Record EthereumETL : Type := {
  get_block : Z -> Block;
  get_latest_block : Block;
  get_uncle_by_block : Z -> nat -> UncleBlock;
  get_transaction_receipt : string -> Receipt;
  getCode : string -> option string;
  is_ERC20 : string -> bool;
  is_ERC721 : string -> bool;
  get_const_reward : Z -> Z;
  get_uncle_reward : Z -> Z -> Z;
  hex_to_int : PyHex -> Z
}.

(** [bool(x)] of an optional text: [None] and [''] are false. *)
Definition truthy_str (o : option string) : bool :=
  match o with
  | Some s => negb (String.eqb s "")
  | None => false
  end.

(** [bool(x)] of what [get_local_*] returns: [None], or the node as the
    dictionary of its properties. *)
Definition truthy_node (o : option Props) : bool :=
  match o with
  | Some (_ :: _) => true
  | _ => false
  end.

Definition get_hash (transaction : Transaction) : string :=
  hex_str (tx_hash transaction).

Definition get_new_contract_address (self : EthereumETL) (transaction_hash : string)
  : option string :=
  contractAddress (get_transaction_receipt self transaction_hash).

(** *** enhance_block *)

(** The inner loop over [receipt.logs]. *)
Definition collect_transfers (logs : list ReceiptLog) : list EthTokenTransfer :=
  fold_left
    (fun acc log =>
       match extract_transfer_from_log log with
       | Some transfer => (acc ++ [transfer])%list
       | None => acc
       end)
    logs [].

(** One turn of the loop over [block.transactions]. *)
Definition enhance_transaction (self : EthereumETL) (block : EnrichedBlock)
  (transaction : Transaction) : EnrichedBlock :=
  let transaction_hash := get_hash transaction in
  let created :=
    if negb (truthy_str (tx_to transaction))
    then <[transaction_hash := get_new_contract_address self transaction_hash]>
           (created_contracts block)
    else created_contracts block in
  let receipt := get_transaction_receipt self transaction_hash in
  let fee := gasUsed receipt * tx_gasPrice transaction in
  {| raw := raw block;
     uncle_blocks := uncle_blocks block;
     created_contracts := created;
     transfers := <[transaction_hash := collect_transfers (logs receipt)]> (transfers block);
     transaction_receipt := <[transaction_hash := receipt]> (transaction_receipt block);
     reward := reward block + fee |}.

Definition enhance_block (self : EthereumETL) (block : Block) : EnrichedBlock :=
  let uncle_blocks :=
    List.map (fun uncle_idx => get_uncle_by_block self (number block) uncle_idx)
      (seq 0 (List.length (uncles block))) in
  fold_left (enhance_transaction self) (transactions block)
    {| raw := block;
       uncle_blocks := uncle_blocks;
       created_contracts := ∅;
       transfers := ∅;
       transaction_receipt := ∅;
       reward := get_const_reward self (number block) |}.

(** *** Address registration *)

(** The rows of [MATCH (a:Address {address}) OPTIONAL MATCH
    (c:Address:label {address}) RETURN a, c]. *)
Definition labelled_rows (label : string) (addr : string) (g : Graph) : list Row :=
  let cs := MATCH ["Address"; label] [("address", VStr addr)] g in
  flat_map
    (fun a =>
       match cs with
       | [] => [[("a", Some a); ("c", None)]]
       | _ => List.map (fun c => [("a", Some a); ("c", Some c)]) cs
       end)
    (MATCH ["Address"] [("address", VStr addr)] g).

Definition try_get_labelled (label : string) (addr : string) : Tx (list Row) :=
  fun g => Ok (labelled_rows label addr g, g).

Definition insert_Address_EOA (addr : PyHex) : Session unit :=
  let addr := hex_str addr in
  result ← read_transaction (try_get_labelled "EOA" addr);
  or_exit
    match result with
    | [] => write_transaction (merge_node ["Address"; "EOA"] [("address", VStr addr)])
    | row :: _ =>
        match row_get "eoa" row with
        | Some (Some _) => mret tt
        | _ =>
            write_transaction
              (update_nodes ["Address"] [("address", VStr addr)] (add_label "EOA"))
        end
    end.

Definition set_node_prop (k : string) (v : Value) (n : Node) : Node :=
  {| node_id := node_id n; node_labels := node_labels n;
     node_props := set_prop k v (node_props n) |}.

(** [SET a :Contract SET a.is_erc20 = ..., a.is_erc721 = ...] *)
Definition set_Contract (self : EthereumETL) (bytecode : string) (a : Node) : Node :=
  set_node_prop "is_erc721" (VBool (is_ERC721 self bytecode))
    (set_node_prop "is_erc20" (VBool (is_ERC20 self bytecode))
       (add_label "Contract" a)).

Definition get_bytecode (self : EthereumETL) (addr : string) : Session string :=
  match getCode self addr with
  | Some bytecode => mret bytecode
  | None => throw ValueError
  end.

Definition insert_Address_Contract (self : EthereumETL) (addr : PyHex) : Session unit :=
  let addr := hex_str addr in
  result ← read_transaction (try_get_labelled "Contract" addr);
  or_exit
    match result with
    | [] =>
        bytecode ← get_bytecode self addr;
        write_transaction
          (merge_node ["Address"; "Contract"]
             [("address", VStr addr);
              ("is_erc20", VBool (is_ERC20 self bytecode));
              ("is_erc721", VBool (is_ERC721 self bytecode));
              ("bytecode", VStr bytecode)])
    | row :: _ =>
        match row_get "c" row with
        | None => throw KeyError
        | Some (Some _) => mret tt
        | Some None =>
            bytecode ← get_bytecode self addr;
            write_transaction
              (update_nodes ["Address"] [("address", VStr addr)]
                 (set_Contract self bytecode))
        end
    end.

(** [try_get_Addr] returns the [Result] of its statement as it is, and
    [result.values()] is called after [read_transaction] has returned. *)
Definition insert_Address_Unknown (addr : PyHex) : Session unit :=
  let addr := hex_str addr in
  result ← read_transaction (match1 ["Address"] [("address", VStr addr)]);
  match values_after_the_transaction result with
  | [] => or_exit (insert_Address_EOA (PStr addr))
  | _ => mret tt
  end.

(** [block[d][k]], a [KeyError] when the key is absent. *)
Definition item {A} (d : gmap string A) (k : string) : Session A :=
  match d !! k with
  | Some v => mret v
  | None => throw KeyError
  end.

Definition ensure_block_Addresses (self : EthereumETL) (block : EnrichedBlock)
  : Session unit :=
  insert_Address_EOA (PStr (miner (raw block)));;
  for_each (uncle_blocks block)
    (fun uncle_block => insert_Address_EOA (PStr (uncle_miner uncle_block)));;
  for_each (transactions (raw block))
    (fun transaction =>
       let transaction_hash := get_hash transaction in
       (if truthy_str (tx_to transaction) then
          insert_Address_EOA (PStr (tx_from transaction));;
          receipt ← item (transaction_receipt block) transaction_hash;
          let to := default "" (tx_to transaction) in
          if (0 <? List.length (logs receipt))%nat
          then insert_Address_Contract self (PStr to)
          else insert_Address_Unknown (PStr to)
        else
          insert_Address_EOA (PStr (tx_from transaction));;
          created ← item (created_contracts block) transaction_hash;
          match created with
          | Some new_contract_address =>
              insert_Address_Contract self (PStr new_contract_address)
          | None =>
              (* no node has the address [None], and [get_bytecode(None)]
                 raises inside the [try] of [insert_Address_Contract] *)
              os_exit
          end);;
       block_transfers ← item (transfers block) transaction_hash;
       for_each block_transfers
         (fun transfer =>
            for_each [from_address transfer; to_address transfer]
              (fun addr => insert_Address_Unknown (PStr addr)))).

(** *** The writes *)

Definition block_key (n : Z) : Props := [("number", VInt n)].
Definition address_key (a : string) : Props := [("address", VStr a)].
Definition transaction_key (h : string) : Props := [("hash", VStr h)].
Definition transfer_key (h : option string) (i : option Z) : Props :=
  [("transaction_hash", of_option VStr h); ("log_index", of_option VInt i)].

Definition parse_block_header (self : EthereumETL) (block : EnrichedBlock) : Tx unit :=
  let b := raw block in
  results ← (create_node ["Block"]
               [("number", VInt (number b));
                ("hash", VStr (hex_str (hash b)));
                ("timestamp", VInt (timestamp b));
                ("size", VInt (size b));
                ("nonce", VStr (hex_str (nonce b)));
                ("difficulty", VStr (str (difficulty b)));
                ("totalDifficulty", VStr (str (totalDifficulty b)));
                ("gasLimit", VStr (str (gasLimit b)));
                ("gasUsed", VStr (str (block_gasUsed b)))]
             ≫= fun _ => mret [[VInt 1]]);
  assert_one results;;
  rows ← match2 ["Block"] (block_key (number b)) ["Address"] (address_key (miner b));
  results ← create_per_row rows
              (fun '(b, addr) =>
                 create_edge b "BLOCK_REWARD" [("value", VStr (str (reward block)))] addr);
  assert_one results;;
  for_tx (uncle_blocks block)
    (fun uncle_block =>
       rows ← match2 ["Block"] (block_key (number b))
                ["Address"] (address_key (uncle_miner uncle_block));
       results ← create_per_row rows
                   (fun '(b', addr) =>
                      create_edge b' "UNCLE_REWARD"
                        [("value",
                          VStr (str (get_uncle_reward self (number b)
                                       (hex_to_int self (uncle_number uncle_block)))))]
                        addr);
       assert_one results).

(** The [CREATE (tx:Transaction {...})] statement: it has no [RETURN], so
    its result holds no row. *)
Definition create_Transaction (transaction : Transaction) (transactionIndex : Value)
  : Tx (list (list Value)) :=
  create_node ["Transaction"]
    [("hash", VStr (hex_str (tx_hash transaction)));
     ("from", VStr (tx_from transaction));
     ("to", of_option VStr (tx_to transaction));
     ("value", VStr (str (tx_value transaction)));
     ("input", VStr (tx_input transaction));
     ("nonce", VInt (tx_nonce transaction));
     ("r", VStr (hex_str (tx_r transaction)));
     ("s", VStr (hex_str (tx_s transaction)));
     ("v", VInt (tx_v transaction));
     ("transactionIndex", transactionIndex);
     ("gas", VStr (str (tx_gas transaction)));
     ("gasPrice", VStr (str (tx_gasPrice transaction)))]
  ≫= fun _ => mret [].

(** The transaction is web3's [AttributeDict], which is immutable: once
    [int(..., 16)] has returned, the assignment to
    [transaction['transactionIndex']] raises [TypeError]. *)
Definition insert_Transaction (transaction : Transaction) : Tx unit :=
  transactionIndex ←
    match tx_transactionIndex transaction with
    | IndexInt n => mret (VInt n)
    | IndexStr s =>
        if String.prefix "0x" s then
          match int_base16 (drop_str 2 s) with
          | Some _ => raise TypeError
          | None => raise ValueError
          end
        else mret (VStr s)
    end;
  create_Transaction transaction transactionIndex;;
  mret tt.

Definition insert_TokenTransfer (transfer : EthTokenTransfer) : Tx unit :=
  let key := transfer_key (transaction_hash transfer) (log_index transfer) in
  results ← (create_node ["TokenTransfer"]
               [("transaction_hash", of_option VStr (transaction_hash transfer));
                ("log_index", of_option VInt (log_index transfer));
                ("token_address", VStr (token_address transfer));
                ("value", VStr (str (value transfer)));
                ("value_raw", of_hex (value_raw transfer))]
             ≫= fun _ => mret [[VInt 1]]);
  assert_one results;;
  rows ← match3 ["TokenTransfer"] key
           ["Address"] (address_key (from_address transfer))
           ["Address"] (address_key (to_address transfer));
  results ← create_per_row rows
              (fun '(tf, from, to) =>
                 create_edge from "SEND_TOKEN" [] tf;;
                 create_edge tf "TOKEN_TO" [] to);
  assert_one results;;
  rows ← match2 ["TokenTransfer"] key
           ["Transaction"] [("hash", of_option VStr (transaction_hash transfer))];
  results ← create_per_row rows
              (fun '(tf, tx) => create_edge tx "CALL_TOKEN_TRANSFER" [] tf);
  assert_one results.

Definition insert_block_conatins_tx (block_number : Z) (transaction_hash : string)
  : Tx unit :=
  rows ← match2 ["Block"] (block_key block_number)
           ["Transaction"] (transaction_key transaction_hash);
  results ← create_per_row rows (fun '(b, tx) => create_edge b "CONTAINS" [] tx);
  assert_one results.

(** [block[d][k]] inside a transaction function. *)
Definition item_tx {A} (d : gmap string A) (k : string) : Tx A :=
  match d !! k with
  | Some v => mret v
  | None => raise KeyError
  end.

Definition parse_block_tx (block : EnrichedBlock) (transaction : Transaction) : Tx unit :=
  let transaction_hash := get_hash transaction in
  insert_Transaction transaction;;
  match tx_to transaction with
  | Some to =>
      rows ← match3 ["Transaction"] (transaction_key (hex_str (tx_hash transaction)))
               ["Address"] (address_key (tx_from transaction))
               ["Address"] (address_key to);
      results ← create_per_row rows
                  (fun '(tx, from, to) =>
                     create_edge from "SEND" [] tx;;
                     create_edge tx "TO" [] to);
      assert_one results
  | None =>
      new_contract_address ← item_tx (created_contracts block) transaction_hash;
      (* [$new_contract_address] is passed to the statement, which does not
         use it: [new_contract] is an unbound name in the [CREATE], a new
         node without labels or properties. *)
      rows ← match2 ["Transaction"] (transaction_key (hex_str (tx_hash transaction)))
               ["Address"] (address_key (tx_from transaction));
      results ← create_per_row rows
                  (fun '(tx, from) =>
                     new_contract ← create_node [] [];
                     create_edge from "SEND" [] tx;;
                     create_edge tx "CALL_CONTRACT_CREATION" [] new_contract);
      assert_one results
  end;;
  block_transfers ← item_tx (transfers block) transaction_hash;
  for_tx block_transfers insert_TokenTransfer;;
  rows ← match2 ["Block"] (block_key (number (raw block)))
           ["Transaction"] (transaction_key transaction_hash);
  results ← create_per_row rows (fun '(b, tx) => create_edge b "CONTAINS" [] tx);
  assert_one results.

(** *** The reads *)

Definition block_numbers (g : Graph) : list Z :=
  flat_map
    (fun b => match get_prop "number" (node_props b) with
              | Some (VInt n) => [n]
              | _ => []
              end)
    (MATCH ["Block"] [] g).

(** [max(b.number)] over the Block nodes, [None] when there is none. *)
Definition max_block_number (g : Graph) : option Z :=
  match block_numbers g with
  | [] => None
  | n :: r => Some (fold_left Z.max r n)
  end.

Definition get_local_block_height : Session Z := fun g =>
  match max_block_number g with
  | None => (Done (-1), g)
  | Some top => (Done top, g)
  end.

(** [get_local_block_timestamp]: the timestamp of the first top block,
    [-1] when it has none, and [results[0]] raises when no block matched. *)
Definition get_local_block_timestamp : Session Z := fun g =>
  match max_block_number g with
  | None => (Raised IndexError, g)
  | Some top =>
      match MATCH ["Block"] [("number", VInt top)] g with
      | [] => (Raised IndexError, g)
      | b :: _ =>
          match get_prop "timestamp" (node_props b) with
          | Some (VInt t) => (Done t, g)
          | _ => (Done (-1), g)
          end
      end
  end.

(** [.data()] of a statement that returns one name. *)
Definition data (name : string) (ns : list Node) : list Row :=
  List.map (fun n => [(name, Some n)]) ns.

(** The tail of the three [get_local_*] functions: [None] unless there is
    exactly one row, else the row's entry [key]. *)
Definition only_row (key : string) (results : list Row) : Tx (option Props) :=
  match results with
  | [row] =>
      match row_get key row with
      | Some n => mret (node_props <$> n)
      | None => raise KeyError
      end
  | _ => mret None
  end.

Definition get_local_Block (number : Z) : Tx (option Props) :=
  ns ← match1 ["Block"] (block_key number);
  only_row "b" (data "b" ns).

Definition get_local_Transaction (hash : string) : Tx (option Props) :=
  ns ← match1 ["Transaction"] (transaction_key hash);
  only_row "tx" (data "tx" ns).

Definition get_local_Transfer (transaction_hash : string) (log_index : option Z)
  : Tx (option Props) :=
  ns ← match1 ["TokenTransfer"] (transfer_key (Some transaction_hash) log_index);
  only_row "tx" (data "tf" ns).

(** *** The checker *)

(** The turn of [check_task]'s loop for a block that is in the store. *)
Definition check_present_tx (block : EnrichedBlock) (transaction : Transaction)
  : Session unit :=
  let transaction_hash := get_hash transaction in
  local_tx ← read_transaction (get_local_Transaction transaction_hash);
  if negb (truthy_node local_tx) then
    write_transaction (parse_block_tx block transaction);;
    write_transaction (insert_block_conatins_tx (number (raw block)) transaction_hash)
  else mret tt.

(** The turn of [check_task]'s loop for a block that was missing.  The local
    variable [no_contains] is bound by the first assignment to it and is
    never reset: [None] is the unbound variable. *)
Definition check_missing_tx (block : EnrichedBlock) (transaction : Transaction)
  (no_contains : option bool) : Session (option bool) :=
  let transaction_hash := get_hash transaction in
  local_tx ← read_transaction (get_local_Transaction transaction_hash);
  no_contains ←
    (if negb (truthy_node local_tx) then
       write_transaction (parse_block_tx block transaction);;
       mret (Some true)
     else mret no_contains);
  block_transfers ← item (transfers block) transaction_hash;
  no_contains ←
    for_each_with block_transfers
      (fun transfer no_contains =>
         local_tf ← read_transaction
                      (get_local_Transfer transaction_hash (log_index transfer));
         if negb (truthy_node local_tf) then
           write_transaction (insert_TokenTransfer transfer);;
           mret (Some true)
         else mret no_contains)
      no_contains;
  match no_contains with
  | None => throw UnboundLocalError
  | Some true =>
      write_transaction (insert_block_conatins_tx (number (raw block)) transaction_hash);;
      mret no_contains
  | Some false => mret no_contains
  end.

Definition check_task (self : EthereumETL) (number : Z) : Session unit :=
  let block := get_block self number in
  let block := enhance_block self block in
  ensure_block_Addresses self block;;
  local_block ← read_transaction (get_local_Block number);
  if truthy_node local_block then
    for_each (transactions (raw block)) (check_present_tx block)
  else
    write_transaction (parse_block_header self block);;
    for_each_with (transactions (raw block)) (check_missing_tx block) None;;
    mret tt.

(** [range(a, b)] *)
Definition range (a b : Z) : list Z :=
  List.map (fun i => a + Z.of_nat i) (seq 0 (Z.to_nat (b - a))).

(** The [while] loop of [check_missing].  The tasks of a batch run on the
    pool's threads; they are taken here in the order of submission. *)
Fixpoint check_missing_loop (self : EthereumETL) (fuel : nat)
  (start_height local_height co : Z) : Session unit :=
  match fuel with
  | O => mret tt
  | S fuel =>
      if start_height <? local_height then
        let next_height := Z.min local_height (start_height + co) in
        for_each (range start_height next_height)
          (fun height => submitted (check_task self height));;
        check_missing_loop self fuel next_height local_height co
      else mret tt
  end.

(** [ThreadPoolExecutor(n)] raises [ValueError] unless [n] is positive; the
    loop then advances by at least one height per turn. *)
Definition check_missing (self : EthereumETL) (local_height co safe_height : Z)
  : Session unit :=
  if co <=? 0 then throw ValueError
  else check_missing_loop self (Z.to_nat (local_height - safe_height))
         safe_height local_height co.

(** *** The syncer *)

Definition threadsafe_parse_block_tx (block : EnrichedBlock) (transaction : Transaction)
  : Session unit :=
  write_transaction (parse_block_tx block transaction).

(** The transaction writes go to [tx_executor]; they are taken here in the
    order of submission. *)
Definition sync_task (self : EthereumETL) (block_number : Z) : Session unit :=
  let block := get_block self block_number in
  let block := enhance_block self block in
  ensure_block_Addresses self block;;
  write_transaction (parse_block_header self block);;
  for_each (transactions (raw block))
    (fun transaction => submitted (threadsafe_parse_block_tx block transaction)).

(** One turn of the slow-sync [while] loop, entered with the local variable
    [local_height]: [sync_task] is called for every number of the range
    (the call is evaluated by the loop itself, before [submit]), and the
    value the variable holds afterwards is returned. *)
Definition slow_sync_turn (self : EthereumETL) (blocks_co local_height : Z) : Session Z :=
  for_each (range (local_height + 1) (local_height + blocks_co + 1)) (sync_task self);;
  mret (local_height + blocks_co).

Fixpoint slow_sync_loop (self : EthereumETL) (fuel : nat) (latest blocks_co local_height : Z)
  : Session Z :=
  match fuel with
  | O => mret local_height
  | S fuel =>
      if local_height + 1 <? latest - blocks_co then
        local_height ← slow_sync_turn self blocks_co local_height;
        slow_sync_loop self fuel latest blocks_co local_height
      else mret local_height
  end.

(** [config["checker"]] and [config["syncer"]]; an absent key is [None]. *)
Record CheckerConfig : Type := {
  checker_txs : option Z;
  checker_blocks : option Z;
  checker_safe_height : option Z
}.

Record SyncerConfig : Type := {
  syncer_blocks : option Z;
  syncer_txs : option Z
}.

Record Config : Type := {
  checker : option CheckerConfig;
  syncer : option SyncerConfig
}.

(** [bool(config.get("checker"))] and [bool(config.get("syncer"))]: a
    section is true when it is there and holds a key. *)
Definition truthy_checker (c : CheckerConfig) : bool :=
  bool_decide (is_Some (checker_txs c)) || bool_decide (is_Some (checker_blocks c))
  || bool_decide (is_Some (checker_safe_height c)).

Definition truthy_syncer (c : SyncerConfig) : bool :=
  bool_decide (is_Some (syncer_blocks c)) || bool_decide (is_Some (syncer_txs c)).

(** [work_flow].  After the slow sync the daily loop fetches the latest
    block as a record, reads the local timestamp, sleeps if it has to, and
    evaluates [latest - 1000] on the record, a [TypeError]. *)
Definition work_flow (self : EthereumETL) (config : Config) : Session unit :=
  let latest := number (get_latest_block self) in
  local_height ← get_local_block_height;
  match checker config with
  | Some c =>
      if truthy_checker c && (0 <? local_height) then
        let blocks_co := default 1000 (checker_blocks c) in
        let safe_height :=
          default (if blocks_co <? local_height then local_height - blocks_co else 0)
            (checker_safe_height c) in
        check_missing self local_height blocks_co safe_height
      else mret tt
  | None => mret tt
  end;;
  match syncer config with
  | Some c =>
      if truthy_syncer c && (local_height <? latest - 1000) then
        let blocks_co := default 100 (syncer_txs c) in
        if blocks_co <=? 0 then throw ValueError
        else
          slow_sync_loop self (Z.to_nat (latest - local_height)) latest blocks_co
            local_height;;
          get_local_block_timestamp;;
          throw TypeError
      else mret tt
  | None => mret tt
  end.

End ETL.
Export ETL.

(** ** Observations on a graph *)

Module Observe.

Definition edges_of_type (ty : string) (g : Graph) : list Edge :=
  List.filter (fun e => String.eqb (edge_type e) ty) (edges g).

(** The edges of type [ty] from node [a] to node [b]. *)
Definition edges_between (ty : string) (a b : Node) (g : Graph) : list Edge :=
  List.filter
    (fun e => (edge_src e =? node_id a)%nat && (edge_dst e =? node_id b)%nat)
    (edges_of_type ty g).

Definition find_node (id : nat) (g : Graph) : option Node :=
  List.find (fun n => (node_id n =? id)%nat) (nodes g).

(** The store after a session ran. *)
Definition store_after {A} (run : outcome A * Graph) : Graph := snd run.

(** [results[0][0] == 1]: the rows of a statement confirm one effect. *)
Definition confirms_one (results : list (list Value)) : Prop :=
  exists r rest, results = (VInt 1 :: r) :: rest.

(** Whenever [m] returns, the store has the nodes it had. *)
Definition keeps_nodes {A} (m : Tx A) : Prop :=
  forall g a g', m g = Ok (a, g') -> nodes g' = nodes g.

(** Whenever [m] returns, it has added to the store nodes with the label sets
    [labels] and edges of the types [types], in this order, and nothing
    else. *)
Definition writes {A} (m : Tx A) (labels : list (list string)) (types : list string)
  : Prop :=
  forall g a g',
    m g = Ok (a, g') ->
    exists ns es,
      nodes g' = (nodes g ++ ns)%list /\ List.map node_labels ns = labels /\
      edges g' = (edges g ++ es)%list /\ List.map edge_type es = types.

End Observe.
Export Observe.

(** ** A small chain

    Four blocks of a chain, as the node would hand them over.  Block 7 holds a
    contract creation whose receipt carries one [Transfer] log; block 8 holds
    a call of that token with one [Transfer] log; block 9 holds a plain
    payment; block 10 has an uncle and no transaction. *)

Module Scenario.

Definition sender : string := "0x1111111111111111111111111111111111111111".
Definition the_miner : string := "0x2222222222222222222222222222222222222222".
Definition token : string := "0x3333333333333333333333333333333333333333".
Definition other_miner : string := "0x4444444444444444444444444444444444444444".
Definition holder_a : string := "0xaaaaaaaaaaaaaaaaaaaaaaaaaaaaaaaaaaaaaaaa".
Definition holder_b : string := "0xbbbbbbbbbbbbbbbbbbbbbbbbbbbbbbbbbbbbbbbb".

(** The 32-byte topic word of an address. *)
Definition word (a : string) : string :=
  "0x000000000000000000000000" +:+ drop_str 2 a.

Definition creation_hash : string := "0xc1".
Definition call_hash : string := "0xc2".
Definition payment_hash : string := "0xc3".

Definition transfer_log (transaction_hash : string) (block_number : Z) : ReceiptLog :=
  {| rl_topics :=
       Some [PStr TRANSFER_EVENT_TOPIC; PStr (word holder_a); PStr (word holder_b)];
     rl_data := "0x00000000000000000000000000000000000000000000000000000000000003e8";
     rl_address := token;
     rl_transaction_hash := None;
     rl_transactionHash := Some (PStr transaction_hash);
     rl_log_index := None;
     rl_logIndex := Some 0;
     rl_block_number := None;
     rl_blockNumber := Some block_number |}.

(** The transfer that log decodes to. *)
Definition a_transfer (transaction_hash : string) (block_number : Z) : EthTokenTransfer :=
  {| token_address := token;
     from_address := holder_a;
     to_address := holder_b;
     value := 1000;
     transaction_hash := Some transaction_hash;
     log_index := Some 0;
     block_number := Some block_number;
     value_raw :=
       PStr "0x00000000000000000000000000000000000000000000000000000000000003e8" |}.

Definition a_transaction (h : string) (to : option string) : Transaction :=
  {| tx_hash := PStr h; tx_from := sender; tx_to := to;
     tx_value := 0; tx_input := "0x6080"; tx_nonce := 0;
     tx_r := PStr "0x01"; tx_s := PStr "0x02"; tx_v := 27;
     tx_transactionIndex := IndexInt 0; tx_gas := 100000; tx_gasPrice := 2 |}.

Definition creation_tx : Transaction := a_transaction creation_hash None.
Definition call_tx : Transaction := a_transaction call_hash (Some token).
Definition payment_tx : Transaction := a_transaction payment_hash (Some holder_b).

Definition a_block (n : Z) (uncles : list PyHex) (txs : list Transaction) : Block :=
  {| number := n; hash := PStr ("0xb" +:+ str n); timestamp := 1000 + n; size := 500;
     nonce := PStr "0x00"; difficulty := 10; totalDifficulty := 10 * n;
     gasLimit := 8000000; block_gasUsed := 60000; miner := the_miner;
     uncles := uncles; transactions := txs |}.

(** Modelled from the spec: [get_const_reward] of [reward_calculator] is
    missing; the "constant block subsidy for the block's number", with the
    main net's figures. *)
Definition const_reward (height : Z) : Z :=
  if height <? 4370000 then 5000000000000000000
  else if height <? 7280000 then 3000000000000000000
  else 2000000000000000000.

(** Modelled from the spec: [get_uncle_reward] of [reward_calculator] is
    missing; an eighth of the subsidy less for every block of depth. *)
Definition uncle_reward (height uncle_height : Z) : Z :=
  (uncle_height + 8 - height) * const_reward height / 8.

Definition chain : EthereumETL :=
  {| get_block := fun n =>
       if n =? 7 then a_block 7 [] [creation_tx]
       else if n =? 8 then a_block 8 [] [call_tx]
       else if n =? 9 then a_block 9 [] [payment_tx]
       else if n =? 10 then a_block 10 [PStr "0xb9a"] []
       else a_block n [] [];
     get_latest_block := a_block 2000 [] [];
     get_uncle_by_block := fun _ _ =>
       {| uncle_miner := other_miner; uncle_number := PStr "0x9" |};
     get_transaction_receipt := fun h =>
       if String.eqb h creation_hash then
         {| logs := [transfer_log creation_hash 7]; gasUsed := 60000;
            contractAddress := Some token |}
       else if String.eqb h call_hash then
         {| logs := [transfer_log call_hash 8]; gasUsed := 40000;
            contractAddress := None |}
       else {| logs := []; gasUsed := 21000; contractAddress := None |};
     getCode := fun _ => Some "0x6080";
     is_ERC20 := fun _ => true;
     is_ERC721 := fun _ => false;
     get_const_reward := const_reward;
     get_uncle_reward := uncle_reward;
     hex_to_int := fun x => default 0 (hex_to_dec x) |}.

Definition enriched (n : Z) : EnrichedBlock := enhance_block chain (get_block chain n).

(** The store once the addresses of block [n] are registered and its header
    is written: where [sync_task] stands before the transaction writes. *)
Definition header_written (n : Z) : Graph :=
  store_after
    ((ensure_block_Addresses chain (enriched n);;
      write_transaction (parse_block_header chain (enriched n))) empty_graph).

(** The block with its transfer lists emptied. *)
Definition without_transfers (block : EnrichedBlock) : EnrichedBlock :=
  {| raw := raw block; uncle_blocks := uncle_blocks block;
     created_contracts := created_contracts block;
     transfers := (fun _ => []) <$> transfers block;
     transaction_receipt := transaction_receipt block;
     reward := reward block |}.

(** Block 8 and its transaction are in the store, the transaction's token
    transfer is not. *)
Definition transfer_missing : Graph :=
  store_after
    (write_transaction (parse_block_tx (without_transfers (enriched 8)) call_tx)
       (header_written 8)).

(** The addresses of block [n] and the Transaction node of [transaction] are
    in the store, the Block node is not. *)
Definition block_missing (n : Z) (transaction : Transaction) : Graph :=
  store_after
    ((ensure_block_Addresses chain (enriched n);;
      write_transaction (insert_Transaction transaction)) empty_graph).

(** As [block_missing 8 call_tx], with the transaction's token transfer. *)
Definition block_missing_with_transfer : Graph :=
  store_after
    (write_transaction (for_tx (default [] (transfers (enriched 8) !! call_hash))
                          insert_TokenTransfer)
       (block_missing 8 call_tx)).

(** A log of the [Transfer] shape under another first topic. *)
Definition zero32 : list byte := repeat Byte.x00 32.

Definition other_event_log (topic0 : PyHex) : ReceiptLog :=
  {| rl_topics := Some [topic0; PStr (word holder_a); PStr (word holder_b)];
     rl_data := "0x00000000000000000000000000000000000000000000000000000000000003e8";
     rl_address := token;
     rl_transaction_hash := None;
     rl_transactionHash := Some (PStr call_hash);
     rl_log_index := None;
     rl_logIndex := Some 0;
     rl_block_number := None;
     rl_blockNumber := Some 8 |}.

End Scenario.
Import Scenario.

(** ** The reward as the specification words it *)

Module Claimed.

Definition sum (l : list Z) : Z := fold_right Z.add 0 l.

(** [receipt.gasUsed * transaction.gasPrice] of one transaction. *)
Definition fee (self : EthereumETL) (transaction : Transaction) : Z :=
  gasUsed (get_transaction_receipt self (get_hash transaction)) * tx_gasPrice transaction.

Definition uncle_payout (self : EthereumETL) (block : Block) (uncle : UncleBlock) : Z :=
  get_uncle_reward self (number block) (hex_to_int self (uncle_number uncle)).

(** The reward of the specification: subsidy, plus every uncle reward, plus
    every fee. *)
Definition claimed_reward (self : EthereumETL) (block : Block) : Z :=
  get_const_reward self (number block)
  + sum (List.map (uncle_payout self block) (uncle_blocks (enhance_block self block)))
  + sum (List.map (fee self) (transactions block)).

End Claimed.
Export Claimed.

(** ** Registering an address twice *)

Module Registered.

Definition twice (m : Session unit) : Session unit := m;; m.

(** The Address nodes of one address. *)
Definition address_nodes (b : string) (g : Graph) : list Node :=
  MATCH ["Address"] (address_key b) g.

Fixpoint distinct (l : list string) : bool :=
  match l with
  | [] => true
  | x :: r => negb (existsb (String.eqb x) r) && distinct r
  end.

(** No node carries a label twice. *)
Definition labels_distinct (g : Graph) : bool :=
  forallb (fun n => distinct (node_labels n)) (nodes g).

(** An update that leaves the [Address] label and the [address] property of
    a node as they are. *)
Definition keeps_address (f : Node -> Node) : Prop :=
  forall n,
    has_label "Address" (f n) = has_label "Address" n /\
    get_prop "address" (node_props (f n)) = get_prop "address" (node_props n).

(** The store after a first registration of [a] as an EOA, as a contract. *)
Definition fresh_EOA (a : string) (g : Graph) : Graph :=
  add_node g (new_node g ["Address"; "EOA"] (address_key a)).

Definition contract_nodes (a : string) (g : Graph) : list Node :=
  MATCH ["Address"; "Contract"] (address_key a) g.

Definition fresh_Contract (self : EthereumETL) (a bytecode : string) (g : Graph) : Graph :=
  add_node g
    (new_node g ["Address"; "Contract"]
       [("address", VStr a);
        ("is_erc20", VBool (is_ERC20 self bytecode));
        ("is_erc721", VBool (is_ERC721 self bytecode));
        ("bytecode", VStr bytecode)]).

(** Going from [g] to [g'] made no second Address node for an address and
    no second copy of a label. *)
Definition no_duplicates (g g' : Graph) : Prop :=
  (forall b,
      (List.length (address_nodes b g') <= Nat.max 1 (List.length (address_nodes b g)))%nat)
  /\ (labels_distinct g = true -> labels_distinct g' = true).

(** The node with identity [id] is in the store and carries label [l]. *)
Definition labelled_as (l : string) (id : nat) (g : Graph) : Prop :=
  exists n, List.In n (nodes g) /\ node_id n = id /\ has_label l n = true.

End Registered.
Export Registered.

(** ** The forward loop as the specification words it *)

Module Rereading.

(** The slow-sync loop with the local height read from the store at every
    turn, "not cached in the process". *)
Fixpoint slow_sync_loop_rereading (self : EthereumETL) (fuel : nat) (latest blocks_co : Z)
  : Session Z :=
  match fuel with
  | O => get_local_block_height
  | S fuel =>
      local_height ← get_local_block_height;
      if local_height + 1 <? latest - blocks_co then
        slow_sync_turn self blocks_co local_height;;
        slow_sync_loop_rereading self fuel latest blocks_co
      else mret local_height
  end.

(** A store that holds blocks 0 and 1, and what two processes make of it:
    this one runs a turn of its loop, for blocks 2 and 3; another one then
    commits block 12. *)
Definition two_blocks : Graph :=
  store_after (for_each [0; 1] (sync_task chain) empty_graph).

Definition after_one_turn : Graph := store_after (slow_sync_turn chain 2 1 two_blocks).

Definition after_the_other_process : Graph :=
  store_after (sync_task chain 12 after_one_turn).

End Rereading.
Export Rereading.

(** ** The entries of an enriched block *)

Module Entries.

(** The transaction has the hash [h]. *)
Definition has_hash (h : string) (transaction : Transaction) : bool :=
  String.eqb (get_hash transaction) h.

(** The transaction has the hash [h] and creates a contract. *)
Definition creates (h : string) (transaction : Transaction) : bool :=
  negb (truthy_str (tx_to transaction)) && has_hash h transaction.

End Entries.
Export Entries.

(** ** What the header write needs *)

Module BlockHeader.

(** The properties of the Block node [parse_block_header] creates. *)
Definition header_props (b : Block) : Props :=
  [("number", VInt (number b));
   ("hash", VStr (hex_str (hash b)));
   ("timestamp", VInt (timestamp b));
   ("size", VInt (size b));
   ("nonce", VStr (hex_str (nonce b)));
   ("difficulty", VStr (str (difficulty b)));
   ("totalDifficulty", VStr (str (totalDifficulty b)));
   ("gasLimit", VStr (str (gasLimit b)));
   ("gasUsed", VStr (str (block_gasUsed b)))].

(** No Block node holds the number or the hash of the block. *)
Definition block_is_new (b : Block) (g : Graph) : Prop :=
  MATCH ["Block"] (block_key (number b)) g = [] /\
  MATCH ["Block"] [("hash", VStr (hex_str (hash b)))] g = [].

(** The address has exactly one Address node. *)
Definition registered_once (a : string) (g : Graph) : Prop :=
  List.length (address_nodes a g) = 1%nat.

(** What the statements of [parse_block_header] need of the store. *)
Definition header_can_be_written (block : EnrichedBlock) (g : Graph) : Prop :=
  block_is_new (raw block) g /\
  registered_once (miner (raw block)) g /\
  forall uncle_block,
    List.In uncle_block (uncle_blocks block) -> registered_once (uncle_miner uncle_block) g.

End BlockHeader.
Export BlockHeader.

(** ** The window of the checker *)

Module CheckerWindow.

(** The heights the checker of [work_flow] is given: from the configured
    safe height, or [blocks] below the local height, up to the local
    height. *)
Definition checker_window (c : CheckerConfig) (local_height : Z) : list Z :=
  let blocks_co := default 1000 (checker_blocks c) in
  let safe_height :=
    default (if blocks_co <? local_height then local_height - blocks_co else 0)
      (checker_safe_height c) in
  range safe_height local_height.

End CheckerWindow.
Export CheckerWindow.

(** ** Address registration, step by step *)

Module Steps.

(** The stores reached from [g] by steps of address registration: a new
    Address node for an address that has none, labelled EOA or Contract, and
    the update of the Address nodes of an address with the EOA label or with
    the Contract label and its two flags. *)
Inductive registered_from (g : Graph) : Graph -> Prop :=
| registered_none : registered_from g g
| registered_EOA g1 a :
    registered_from g g1 -> address_nodes a g1 = [] ->
    registered_from g (fresh_EOA a g1)
| registered_Contract g1 self a bytecode :
    registered_from g g1 -> address_nodes a g1 = [] ->
    registered_from g (fresh_Contract self a bytecode g1)
| registered_as_EOA g1 a :
    registered_from g g1 ->
    registered_from g (update_matching ["Address"] (address_key a) (add_label "EOA") g1)
| registered_as_Contract g1 self a bytecode :
    registered_from g g1 ->
    registered_from g
      (update_matching ["Address"] (address_key a) (set_Contract self bytecode) g1).

(** A session that changes the store by registration steps only, however it
    ends. *)
Definition registers {A} (m : Session A) : Prop :=
  forall g, registered_from g (store_after (m g)).

(** The address has an Address node. *)
Definition registered (a : string) (g : Graph) : Prop := address_nodes a g <> [].

(** No address has two Address nodes. *)
Definition addresses_unique (g : Graph) : Prop :=
  forall a, (List.length (address_nodes a g) <= 1)%nat.

(** The nodes that do not carry the Address label. *)
Definition other_nodes (g : Graph) : list Node :=
  List.filter (fun n => negb (has_label "Address" n)) (nodes g).

(** The addresses of a transaction of the block have their Address nodes:
    the sender, the recipient or the created contract, and the two parties
    of every transfer. *)
Definition transaction_registered (block : EnrichedBlock) (transaction : Transaction)
  (g : Graph) : Prop :=
  registered (tx_from transaction) g /\
  (if truthy_str (tx_to transaction)
   then registered (default "" (tx_to transaction)) g
   else exists c,
       created_contracts block !! get_hash transaction = Some (Some c) /\ registered c g) /\
  exists block_transfers,
    transfers block !! get_hash transaction = Some block_transfers /\
    forall transfer,
      List.In transfer block_transfers ->
      registered (from_address transfer) g /\ registered (to_address transfer) g.

(** A session that ends normally on every store. *)
Definition always_done (m : Session unit) : Prop := forall g, fst (m g) = Done tt.

(** The chain node answers what the registration of the block's addresses
    asks of it: for every transaction of the block, the code at the recipient
    when the receipt has logs, and for a creation the address of the contract
    it has made and the code there. *)
Definition node_answers (self : EthereumETL) (block : Block) : Prop :=
  forall transaction,
    List.In transaction (transactions block) ->
    let receipt := get_transaction_receipt self (get_hash transaction) in
    if truthy_str (tx_to transaction) then
      logs receipt <> [] -> getCode self (default "" (tx_to transaction)) <> None
    else
      exists c, contractAddress receipt = Some c /\ getCode self c <> None.

End Steps.
Export Steps.

(** ** Two more samples *)

Module Samples.

(** A transaction whose index the chain node sends as hexadecimal text. *)
Definition hex_index_tx : Transaction :=
  {| tx_hash := PStr "0xc4"; tx_from := sender; tx_to := Some holder_b;
     tx_value := 1; tx_input := "0x"; tx_nonce := 1;
     tx_r := PStr "0x01"; tx_s := PStr "0x02"; tx_v := 27;
     tx_transactionIndex := IndexStr "0x1f"; tx_gas := 21000; tx_gasPrice := 2 |}.

(** A checker configured for batches of two blocks. *)
Definition narrow_checker : CheckerConfig :=
  {| checker_txs := None; checker_blocks := Some 2; checker_safe_height := None |}.

End Samples.
Export Samples.

(** * Theorems *)

(** ** C1: the edge of a contract creation *)

(** C1 (defect in the code).  [sync_task] on block 7, whose only transaction
    creates the contract [token], ends normally; the store then holds the
    Transaction node and the Address node of [token], but no
    CALL_CONTRACT_CREATION edge between them: the one edge of that type ends
    at a node without labels or properties, because the statement of
    [parse_block_tx] never binds [new_contract] to [$new_contract_address]. *)
Theorem creation_edge_misses_the_contract_address :
  let run := sync_task chain 7 empty_graph in
  let g := store_after run in
  fst run = Done tt /\
  (created_contracts (enriched 7) !! creation_hash = Some (Some token)) /\
  exists tx contract e blank,
    MATCH ["Transaction"] (transaction_key creation_hash) g = [tx] /\
    MATCH ["Address"] (address_key token) g = [contract] /\
    edges_between "CALL_CONTRACT_CREATION" tx contract g = [] /\
    edges_of_type "CALL_CONTRACT_CREATION" g = [e] /\
    edge_src e = node_id tx /\
    find_node (edge_dst e) g = Some blank /\
    node_labels blank = [] /\
    node_props blank = [].
Proof.
  vm_compute. split; [reflexivity|]. split; [reflexivity|].
  do 4 eexists. repeat split; reflexivity.
Qed.

(** ** C3, C5, C10: the checker *)

(** C3 (defect in the code).  Block 8 and its transaction are in the store,
    the token transfer of that transaction is not, although the enriched
    block lists it.  [check_task] ends normally and leaves the store as it
    was: in the branch for a block that exists, the transfers of a
    transaction that exists are never looked at. *)
Theorem present_block_skips_missing_transfer :
  List.length (MATCH ["Block"] (block_key 8) transfer_missing) = 1%nat /\
  List.length (MATCH ["Transaction"] (transaction_key call_hash) transfer_missing) = 1%nat /\
  List.length <$> transfers (enriched 8) !! call_hash = Some 1%nat /\
  MATCH ["TokenTransfer"] [] transfer_missing = [] /\
  check_task chain 8 transfer_missing = (Done tt, transfer_missing).
Proof. vm_compute. repeat split; reflexivity. Qed.

(** C5 (defect in the code).  Block 8 is in the store and its transaction is
    not.  [check_task] repairs the transaction with [parse_block_tx], which
    writes the CONTAINS edge, and then calls [insert_block_conatins_tx],
    which writes it again: two CONTAINS edges join the Block node and the
    Transaction node. *)
Theorem repaired_transaction_is_contained_twice :
  let before := header_written 8 in
  let run := check_task chain 8 before in
  List.length (MATCH ["Block"] (block_key 8) before) = 1%nat /\
  MATCH ["Transaction"] (transaction_key call_hash) before = [] /\
  fst run = Done tt /\
  exists b tx,
    MATCH ["Block"] (block_key 8) (store_after run) = [b] /\
    MATCH ["Transaction"] (transaction_key call_hash) (store_after run) = [tx] /\
    List.length (edges_between "CONTAINS" b tx (store_after run)) = 2%nat.
Proof.
  vm_compute. do 3 (split; [reflexivity|]).
  do 2 eexists. repeat split; reflexivity.
Qed.

(** C10 (defect in the code).  The Block node is absent and the transaction
    is present.  With no transfer to look at, [check_task] reaches
    [if no_contains] before any assignment to [no_contains] and raises
    [UnboundLocalError]; with the transfer present, [get_local_Transfer]
    reads the key ['tx'] of a row whose only key is ['tf'] and raises
    [KeyError]. *)
Theorem missing_block_with_present_transaction_raises :
  MATCH ["Block"] (block_key 9) (block_missing 9 payment_tx) = [] /\
  List.length (MATCH ["Transaction"] (transaction_key payment_hash)
                 (block_missing 9 payment_tx)) = 1%nat /\
  transfers (enriched 9) !! payment_hash = Some [] /\
  fst (check_task chain 9 (block_missing 9 payment_tx)) = Raised UnboundLocalError /\
  MATCH ["Block"] (block_key 8) block_missing_with_transfer = [] /\
  List.length (MATCH ["Transaction"] (transaction_key call_hash)
                 block_missing_with_transfer) = 1%nat /\
  List.length (MATCH ["TokenTransfer"] (transfer_key (Some call_hash) (Some 0))
                 block_missing_with_transfer) = 1%nat /\
  fst (check_task chain 8 block_missing_with_transfer) = Raised KeyError.
Proof. vm_compute. repeat split; reflexivity. Qed.

(** ** C4: the first topic *)

(** C4 (defect in the code).  A log of the Transfer shape whose first topic
    is 32 zero bytes is no Transfer event.  Handed over as text the topic is
    compared with the signature and the log is dropped; handed over as
    [HexBytes] it is not compared at all and a transfer is decoded. *)
Theorem bytes_topic_is_not_compared :
  hex_str (PHexBytes zero32) <> TRANSFER_EVENT_TOPIC /\
  extract_transfer_from_log (other_event_log (PStr (hex zero32))) = None /\
  extract_transfer_from_log (other_event_log (PHexBytes zero32)) =
    Some (a_transfer call_hash 8).
Proof. split; [discriminate|]. split; reflexivity. Qed.

(** ** C2: the reward of an enriched block *)

Lemma enhance_transactions_reward (self : EthereumETL) (txs : list Transaction)
  (acc : EnrichedBlock) :
  reward (fold_left (enhance_transaction self) txs acc)
  = reward acc + sum (List.map (fee self) txs).
Proof.
  revert acc. induction txs as [|transaction txs IH]; intros acc; simpl.
  - lia.
  - rewrite IH. unfold fee at 2. simpl. lia.
Qed.

Lemma enhance_transactions_uncles (self : EthereumETL) (txs : list Transaction)
  (acc : EnrichedBlock) :
  uncle_blocks (fold_left (enhance_transaction self) txs acc) = uncle_blocks acc.
Proof.
  revert acc. induction txs as [|transaction txs IH]; intros acc; simpl; [reflexivity|].
  now rewrite IH.
Qed.

(** C2, as the code has it.  The reward [enhance_block] computes is the
    constant subsidy of the block's number plus the fee, [gasUsed * gasPrice],
    of every transaction.  The fetched uncles are kept on the block, and no
    uncle reward enters the sum. *)
Theorem reward_is_subsidy_plus_fees (self : EthereumETL) (block : Block) :
  reward (enhance_block self block)
  = get_const_reward self (number block) + sum (List.map (fee self) (transactions block))
  /\ uncle_blocks (enhance_block self block)
    = List.map (get_uncle_by_block self (number block))
        (seq 0 (List.length (uncles block))).
Proof.
  unfold enhance_block. split.
  - now rewrite enhance_transactions_reward.
  - now rewrite enhance_transactions_uncles.
Qed.

(** C2, refuted as stated.  Block 10 has one uncle, mined one block earlier,
    and no transaction: the reward of the enriched block is the subsidy alone,
    while the specification's sum adds the uncle's reward to it. *)
Theorem reward_leaves_out_uncle_rewards :
  reward (enhance_block chain (get_block chain 10)) = 5000000000000000000 /\
  claimed_reward chain (get_block chain 10) = 9375000000000000000 /\
  reward (enhance_block chain (get_block chain 10))
  <> claimed_reward chain (get_block chain 10).
Proof. vm_compute. repeat split; try reflexivity; discriminate. Qed.

(** ** C8: registering an address twice *)

Section ListFacts.
Context {A : Type}.
Implicit Types (p : A -> bool) (l : list A).

Lemma existsb_filter_nil p l : List.filter p l = [] -> existsb p l = false.
Proof.
  induction l as [|y l IH]; simpl; [reflexivity|].
  destruct (p y); [discriminate|]. exact IH.
Qed.

Lemma map_unmatched p (f : A -> A) l :
  List.filter p l = [] -> List.map (fun x => if p x then f x else x) l = l.
Proof.
  induction l as [|y l IH]; simpl; [reflexivity|].
  destruct (p y); [discriminate|]. intros Hl. now rewrite IH.
Qed.

Lemma map_matched_twice p (f : A -> A) l :
  (forall x, p x = true -> p (f x) = true /\ f (f x) = f x) ->
  List.map (fun x => if p x then f x else x)
    (List.map (fun x => if p x then f x else x) l)
  = List.map (fun x => if p x then f x else x) l.
Proof.
  intros Hf. rewrite List.map_map. apply List.map_ext. intros x.
  destruct (p x) eqn:Hx.
  - destruct (Hf x Hx) as [-> ->]. reflexivity.
  - now rewrite Hx.
Qed.

Lemma filter_map_same p (f : A -> A) l :
  (forall x, p (f x) = p x) ->
  List.filter p (List.map f l) = List.map f (List.filter p l).
Proof.
  intros Hf. induction l as [|y l IH]; simpl; [reflexivity|].
  rewrite Hf. destruct (p y); simpl; now rewrite IH.
Qed.
End ListFacts.

Section AddressFacts.

Lemma has_label_add_label_same l n : has_label l (add_label l n) = true.
Proof.
  unfold add_label. destruct (has_label l n) eqn:H; [exact H|].
  unfold has_label. simpl. rewrite existsb_app. simpl.
  rewrite String.eqb_refl. now rewrite orb_true_r.
Qed.

Lemma has_label_add_label_other l l' n :
  String.eqb l l' = false -> has_label l (add_label l' n) = has_label l n.
Proof.
  intros Hl. unfold add_label. destruct (has_label l' n); [reflexivity|].
  unfold has_label. simpl. rewrite existsb_app. simpl. rewrite Hl.
  now rewrite !orb_false_r.
Qed.

Lemma add_label_twice l n : add_label l (add_label l n) = add_label l n.
Proof.
  unfold add_label at 1. now rewrite has_label_add_label_same.
Qed.

Lemma node_props_add_label l n : node_props (add_label l n) = node_props n.
Proof. unfold add_label. now destruct (has_label l n). Qed.

Lemma get_prop_set_prop_other k k' v ps :
  String.eqb k k' = false -> get_prop k (set_prop k' v ps) = get_prop k ps.
Proof.
  intros Hk. induction ps as [|[k0 v0] ps IH]; simpl.
  - now rewrite Hk.
  - destruct (String.eqb k' k0) eqn:H0; simpl.
    + rewrite Hk. apply String.eqb_eq in H0. subst k0. now rewrite Hk.
    + destruct (String.eqb k k0); [reflexivity|exact IH].
Qed.

Lemma matches_address_keeps f b n :
  keeps_address f ->
  matches ["Address"] (address_key b) (f n) = matches ["Address"] (address_key b) n.
Proof.
  intros Hf. destruct (Hf n) as [Hl Hp].
  unfold matches, address_key, has_prop. simpl. now rewrite Hl, Hp.
Qed.

Lemma keeps_address_add_label l :
  String.eqb "Address" l = false -> keeps_address (add_label l).
Proof.
  intros Hl n. split.
  - now apply has_label_add_label_other.
  - now rewrite node_props_add_label.
Qed.

End AddressFacts.

Section Registration.

Lemma filter_nil_weaken {A} (p q : A -> bool) l :
  (forall x, q x = true -> p x = true) ->
  List.filter p l = [] -> List.filter q l = [].
Proof.
  intros Hqp. induction l as [|y l IH]; simpl; [reflexivity|].
  destruct (p y) eqn:Hp; [discriminate|]. intros Hl.
  destruct (q y) eqn:Hq; [|now apply IH].
  apply Hqp in Hq. congruence.
Qed.

Lemma labelled_rows_nil label a g :
  address_nodes a g = [] -> labelled_rows label a g = [].
Proof. unfold address_nodes, address_key, labelled_rows. now intros ->. Qed.

Lemma labelled_rows_cons label a g a1 r :
  address_nodes a g = a1 :: r ->
  exists rest,
    labelled_rows label a g
    = [("a", Some a1); ("c", head (MATCH ["Address"; label] (address_key a) g))] :: rest.
Proof.
  unfold address_nodes, address_key, labelled_rows. intros ->. simpl.
  destruct (MATCH _ _ g); simpl; eexists; reflexivity.
Qed.

Lemma no_address_no_labelled a g ls ps :
  address_nodes a g = [] ->
  MATCH ("Address" :: ls) (("address", VStr a) :: ps) g = [].
Proof.
  unfold address_nodes, MATCH. apply filter_nil_weaken. intros n.
  unfold matches, address_key. simpl.
  intros H. apply andb_true_iff in H as [Hl Hp].
  apply andb_true_iff in Hl as [Hl _]. apply andb_true_iff in Hp as [Hp _].
  now rewrite Hl, Hp.
Qed.

Lemma address_nodes_add_node b g n :
  address_nodes b (add_node g n)
  = (address_nodes b g ++ if matches ["Address"] (address_key b) n then [n] else [])%list.
Proof.
  unfold address_nodes, MATCH, add_node. simpl. rewrite List.filter_app. simpl.
  now destruct (matches _ _ n).
Qed.

Lemma address_nodes_update b a f g :
  keeps_address f ->
  address_nodes b (update_matching ["Address"] (address_key a) f g)
  = List.map (fun n => if matches ["Address"] (address_key a) n then f n else n)
      (address_nodes b g).
Proof.
  intros Hf. unfold address_nodes, MATCH, update_matching. simpl.
  apply filter_map_same. intros n.
  destruct (matches ["Address"] (address_key a) n); [|reflexivity].
  now apply matches_address_keeps.
Qed.

Lemma update_matching_twice ls ps f g :
  (forall n, matches ls ps n = true ->
             matches ls ps (f n) = true /\ f (f n) = f n) ->
  update_matching ls ps f (update_matching ls ps f g) = update_matching ls ps f g.
Proof.
  intros Hf. unfold update_matching. simpl. f_equal.
  now apply map_matched_twice.
Qed.

Lemma update_matching_after_add ls ps f g n :
  MATCH ls ps g = [] -> f n = n ->
  update_matching ls ps f (add_node g n) = add_node g n.
Proof.
  intros Hm Hn. unfold update_matching, add_node. simpl. f_equal.
  rewrite List.map_app. simpl. rewrite map_unmatched by exact Hm.
  now destruct (matches ls ps n); rewrite ?Hn.
Qed.

(** *** insert_Address_EOA *)

Lemma insert_Address_EOA_fresh addr g :
  address_nodes (hex_str addr) g = [] ->
  insert_Address_EOA addr g = (Done tt, fresh_EOA (hex_str addr) g).
Proof.
  intros Hm. unfold insert_Address_EOA, mbind, Session_bind, read_transaction,
    write_transaction, try_get_labelled.
  rewrite (labelled_rows_nil _ _ _ Hm).
  unfold or_exit, write_transaction, merge_node.
  rewrite (no_address_no_labelled _ _ ["EOA"] [] Hm).
  unfold mbind, Tx_bind, create_node.
  assert (Hv : violates g (new_node g ["Address"; "EOA"] [("address", VStr (hex_str addr))])
               = false).
  { unfold violates, schema, breaks. simpl.
    pose proof (existsb_filter_nil _ _ Hm) as He. unfold address_key in He.
    now rewrite He. }
  rewrite Hv. reflexivity.
Qed.

Lemma insert_Address_EOA_known addr g :
  address_nodes (hex_str addr) g <> [] ->
  insert_Address_EOA addr g
  = (Done tt,
     update_matching ["Address"] (address_key (hex_str addr)) (add_label "EOA") g).
Proof.
  intros Hm. destruct (address_nodes (hex_str addr) g) as [|a1 r] eqn:Ha; [congruence|].
  destruct (labelled_rows_cons "EOA" _ _ _ _ Ha) as [rest Hrows].
  unfold insert_Address_EOA, mbind, Session_bind, read_transaction,
    write_transaction, try_get_labelled.
  rewrite Hrows. reflexivity.
Qed.

Lemma EOA_update_stable a n :
  matches ["Address"] (address_key a) n = true ->
  matches ["Address"] (address_key a) (add_label "EOA" n) = true /\
  add_label "EOA" (add_label "EOA" n) = add_label "EOA" n.
Proof.
  intros Hn. split; [|apply add_label_twice].
  rewrite matches_address_keeps; [exact Hn|].
  now apply keeps_address_add_label.
Qed.

Lemma insert_Address_EOA_twice addr g :
  twice (insert_Address_EOA addr) g = insert_Address_EOA addr g.
Proof.
  unfold twice, mbind, Session_bind.
  destruct (address_nodes (hex_str addr) g) as [|a1 r] eqn:Ha.
  - rewrite (insert_Address_EOA_fresh _ _ Ha).
    rewrite insert_Address_EOA_known.
    + unfold fresh_EOA. rewrite update_matching_after_add; [reflexivity|exact Ha|].
      reflexivity.
    + unfold fresh_EOA. rewrite address_nodes_add_node, Ha. simpl.
      unfold matches, has_prop. simpl. rewrite String.eqb_refl. discriminate.
  - assert (Hne : address_nodes (hex_str addr) g <> []) by congruence.
    rewrite (insert_Address_EOA_known _ _ Hne).
    rewrite insert_Address_EOA_known.
    + rewrite update_matching_twice; [reflexivity|]. apply EOA_update_stable.
    + rewrite address_nodes_update by now apply keeps_address_add_label.
      rewrite Ha. discriminate.
Qed.

(** *** insert_Address_Contract *)

Variable self : EthereumETL.

Lemma insert_Address_Contract_fresh addr g :
  address_nodes (hex_str addr) g = [] ->
  insert_Address_Contract self addr g
  = match getCode self (hex_str addr) with
    | Some bytecode => (Done tt, fresh_Contract self (hex_str addr) bytecode g)
    | None => (Exited, g)
    end.
Proof.
  intros Hm. unfold insert_Address_Contract, mbind, Session_bind, read_transaction,
    write_transaction, try_get_labelled.
  rewrite (labelled_rows_nil _ _ _ Hm).
  unfold or_exit, get_bytecode.
  destruct (getCode self (hex_str addr)) as [bytecode|]; [|reflexivity].
  unfold mret, Session_ret, write_transaction, merge_node.
  rewrite (no_address_no_labelled _ _ ["Contract"] _ Hm).
  unfold mbind, Tx_bind, create_node.
  match goal with |- context [violates g ?n] =>
    assert (Hv : violates g n = false) end.
  { unfold violates, schema, breaks. simpl.
    pose proof (existsb_filter_nil _ _ Hm) as He. unfold address_key in He.
    now rewrite He. }
  rewrite Hv. reflexivity.
Qed.

Lemma insert_Address_Contract_known addr g :
  address_nodes (hex_str addr) g <> [] ->
  insert_Address_Contract self addr g
  = match contract_nodes (hex_str addr) g, getCode self (hex_str addr) with
    | _ :: _, _ => (Done tt, g)
    | [], Some bytecode =>
        (Done tt,
         update_matching ["Address"] (address_key (hex_str addr))
           (set_Contract self bytecode) g)
    | [], None => (Exited, g)
    end.
Proof.
  intros Hm. destruct (address_nodes (hex_str addr) g) as [|a1 r] eqn:Ha; [congruence|].
  destruct (labelled_rows_cons "Contract" _ _ _ _ Ha) as [rest Hrows].
  unfold insert_Address_Contract, mbind, Session_bind, read_transaction,
    write_transaction, try_get_labelled.
  rewrite Hrows. unfold contract_nodes.
  destruct (MATCH ["Address"; "Contract"] (address_key (hex_str addr)) g); simpl.
  - unfold or_exit, get_bytecode.
    now destruct (getCode self (hex_str addr)).
  - reflexivity.
Qed.

Lemma has_label_set_node_prop l k v n :
  has_label l (set_node_prop k v n) = has_label l n.
Proof. reflexivity. Qed.

Lemma node_props_set_node_prop k v n :
  node_props (set_node_prop k v n) = set_prop k v (node_props n).
Proof. reflexivity. Qed.

Lemma matches_cons l ls ps n :
  matches (l :: ls) ps n = has_label l n && matches ls ps n.
Proof. unfold matches. cbn [forallb]. now rewrite andb_assoc. Qed.

Lemma keeps_address_set_Contract bytecode : keeps_address (set_Contract self bytecode).
Proof.
  intros n. unfold set_Contract. split.
  - rewrite !has_label_set_node_prop. now apply has_label_add_label_other.
  - rewrite !node_props_set_node_prop.
    rewrite !get_prop_set_prop_other by reflexivity. now rewrite node_props_add_label.
Qed.

Lemma set_Contract_is_Contract bytecode a n :
  matches ["Address"] (address_key a) n = true ->
  matches ["Address"; "Contract"] (address_key a) (set_Contract self bytecode n) = true.
Proof.
  intros Hn.
  rewrite <- (matches_address_keeps _ _ _ (keeps_address_set_Contract bytecode)) in Hn.
  rewrite matches_cons in Hn. rewrite !matches_cons.
  apply andb_true_iff in Hn as [Hl Hp]. rewrite Hl, Hp.
  unfold set_Contract. rewrite !has_label_set_node_prop.
  now rewrite has_label_add_label_same.
Qed.

Lemma MATCH_add_node ls ps g n :
  MATCH ls ps (add_node g n)
  = (MATCH ls ps g ++ if matches ls ps n then [n] else [])%list.
Proof.
  unfold MATCH, add_node. simpl. rewrite List.filter_app. simpl.
  now destruct (matches ls ps n).
Qed.

Lemma filter_map_some {A} (p : A -> bool) (f : A -> A) l x :
  List.In x l -> p (f x) = true -> List.filter p (List.map f l) <> [].
Proof.
  induction l as [|y l IH]; simpl; [tauto|].
  intros [->|Hx] Hp.
  - now rewrite Hp.
  - destruct (p (f y)); [discriminate|]. now apply IH.
Qed.

Lemma insert_Address_Contract_twice addr g :
  twice (insert_Address_Contract self addr) g = insert_Address_Contract self addr g.
Proof.
  unfold twice, mbind, Session_bind.
  destruct (address_nodes (hex_str addr) g) as [|a1 r] eqn:Ha.
  - rewrite (insert_Address_Contract_fresh _ _ Ha).
    destruct (getCode self (hex_str addr)) as [bytecode|] eqn:Hc; [|reflexivity].
    rewrite insert_Address_Contract_known.
    + unfold contract_nodes, fresh_Contract. rewrite MATCH_add_node.
      match goal with |- context [matches ?ls ?ps (new_node ?g' ?l ?p)] =>
        assert (Hn : matches ls ps (new_node g' l p) = true)
          by (unfold matches, has_prop; simpl; now rewrite String.eqb_refl)
      end.
      rewrite Hn. now destruct (MATCH _ _ g).
    + unfold fresh_Contract. rewrite address_nodes_add_node, Ha. simpl.
      unfold matches, has_prop. simpl. rewrite String.eqb_refl. discriminate.
  - assert (Hne : address_nodes (hex_str addr) g <> []) by congruence.
    rewrite (insert_Address_Contract_known _ _ Hne).
    destruct (contract_nodes (hex_str addr) g) as [|c1 cs] eqn:Hcs.
    + destruct (getCode self (hex_str addr)) as [bytecode|] eqn:Hc; [|reflexivity].
      rewrite insert_Address_Contract_known.
      * destruct (contract_nodes (hex_str addr) (update_matching _ _ _ g)) eqn:Hcs';
          [|reflexivity].
        exfalso. revert Hcs'. unfold contract_nodes, MATCH, update_matching. simpl.
        apply (filter_map_some _ _ _ a1).
        -- assert (Hin : List.In a1 (address_nodes (hex_str addr) g))
             by (rewrite Ha; now left).
           unfold address_nodes, MATCH in Hin. now apply List.filter_In in Hin.
        -- assert (Hin : List.In a1 (address_nodes (hex_str addr) g))
             by (rewrite Ha; now left).
           unfold address_nodes, MATCH in Hin. apply List.filter_In in Hin as [_ Hin].
           rewrite Hin. now apply set_Contract_is_Contract.
      * rewrite address_nodes_update by apply keeps_address_set_Contract.
        rewrite Ha. discriminate.
    + rewrite (insert_Address_Contract_known _ _ Hne), Hcs. reflexivity.
Qed.

(** *** insert_Address_Unknown *)

(** No record is left to count, so the address is always handed to
    [insert_Address_EOA], which never raises. *)
Lemma insert_Address_Unknown_cases addr g :
  insert_Address_Unknown addr g = insert_Address_EOA addr g.
Proof.
  unfold insert_Address_Unknown, mbind, Session_bind, read_transaction,
    write_transaction, match1, values_after_the_transaction.
  change (insert_Address_EOA (PStr (hex_str addr))) with (insert_Address_EOA addr).
  unfold or_exit.
  destruct (address_nodes (hex_str addr) g) as [|a1 r] eqn:Ha.
  - now rewrite (insert_Address_EOA_fresh _ _ Ha).
  - now rewrite insert_Address_EOA_known by congruence.
Qed.

Lemma insert_Address_Unknown_twice addr g :
  twice (insert_Address_Unknown addr) g = insert_Address_Unknown addr g.
Proof.
  rewrite insert_Address_Unknown_cases, <- insert_Address_EOA_twice.
  unfold twice, mbind, Session_bind. rewrite insert_Address_Unknown_cases.
  destruct (insert_Address_EOA addr g) as [[[]|e|] g1]; try reflexivity.
  apply insert_Address_Unknown_cases.
Qed.

(** *** No duplicates *)

Lemma no_duplicates_same g : no_duplicates g g.
Proof. split; [intros b; apply Nat.le_max_r|auto]. Qed.

Lemma matches_address_eq a b n :
  get_prop "address" (node_props n) = Some (VStr a) ->
  matches ["Address"] (address_key b) n = true -> b = a.
Proof.
  intros Hp. unfold matches, address_key, has_prop. cbn [forallb fst snd].
  rewrite Hp. cbn [Value_eqb]. rewrite !andb_true_r.
  intros H. apply andb_true_iff in H as [_ H]. now apply String.eqb_eq.
Qed.

Lemma no_duplicates_add a g n :
  address_nodes a g = [] ->
  get_prop "address" (node_props n) = Some (VStr a) ->
  distinct (node_labels n) = true ->
  no_duplicates g (add_node g n).
Proof.
  intros Ha Hp Hd. split.
  - intros b. rewrite address_nodes_add_node, List.length_app.
    destruct (matches ["Address"] (address_key b) n) eqn:Hb; simpl.
    + apply (matches_address_eq a) in Hb; [|exact Hp]. subst b. rewrite Ha. simpl. lia.
    + lia.
  - unfold labels_distinct, add_node. simpl. rewrite forallb_app. simpl.
    intros ->. now rewrite Hd.
Qed.

Lemma no_duplicates_update a f g :
  keeps_address f ->
  (forall n, distinct (node_labels n) = true -> distinct (node_labels (f n)) = true) ->
  no_duplicates g (update_matching ["Address"] (address_key a) f g).
Proof.
  intros Hk Hd. split.
  - intros b. rewrite address_nodes_update by exact Hk. rewrite List.length_map. lia.
  - unfold labels_distinct, update_matching. simpl. rewrite !forallb_forall.
    intros Hg n Hn. apply List.in_map_iff in Hn as [m [<- Hm]].
    destruct (matches ["Address"] (address_key a) m); auto.
Qed.

Lemma distinct_snoc l x :
  distinct l = true -> existsb (String.eqb x) l = false -> distinct (l ++ [x]) = true.
Proof.
  induction l as [|y l IH]; simpl; [reflexivity|].
  intros Hd Hx. apply andb_true_iff in Hd as [Hy Hd].
  apply orb_false_iff in Hx as [Hxy Hx].
  rewrite existsb_app. simpl. rewrite String.eqb_sym, Hxy.
  rewrite !orb_false_r, Hy. simpl. now apply IH.
Qed.

Lemma distinct_add_label l n :
  distinct (node_labels n) = true -> distinct (node_labels (add_label l n)) = true.
Proof.
  intros Hd. unfold add_label. destruct (has_label l n) eqn:Hl; [exact Hd|].
  simpl. now apply distinct_snoc.
Qed.

Lemma insert_Address_EOA_no_duplicates addr g :
  no_duplicates g (store_after (insert_Address_EOA addr g)).
Proof.
  destruct (address_nodes (hex_str addr) g) as [|a1 r] eqn:Ha.
  - rewrite (insert_Address_EOA_fresh _ _ Ha).
    now apply (no_duplicates_add (hex_str addr)).
  - rewrite insert_Address_EOA_known by congruence.
    apply no_duplicates_update.
    + now apply keeps_address_add_label.
    + intros n. apply distinct_add_label.
Qed.

Lemma insert_Address_Contract_no_duplicates addr g :
  no_duplicates g (store_after (insert_Address_Contract self addr g)).
Proof.
  destruct (address_nodes (hex_str addr) g) as [|a1 r] eqn:Ha.
  - rewrite (insert_Address_Contract_fresh _ _ Ha).
    destruct (getCode self (hex_str addr)); [|apply no_duplicates_same].
    now apply (no_duplicates_add (hex_str addr)).
  - rewrite insert_Address_Contract_known by congruence.
    destruct (contract_nodes (hex_str addr) g); [|apply no_duplicates_same].
    destruct (getCode self (hex_str addr)); [|apply no_duplicates_same].
    apply no_duplicates_update.
    + apply keeps_address_set_Contract.
    + intros n. apply (distinct_add_label "Contract").
Qed.

Lemma insert_Address_Unknown_no_duplicates addr g :
  no_duplicates g (store_after (insert_Address_Unknown addr g)).
Proof.
  rewrite insert_Address_Unknown_cases. apply insert_Address_EOA_no_duplicates.
Qed.

End Registration.

(** C8.  Each of [insert_Address_EOA], [insert_Address_Contract] and
    [insert_Address_Unknown], run twice in a row on any store, ends as one run
    does, with the same store; and a run adds no second Address node for any
    address and no second copy of a label to any node.  For
    [insert_Address_Unknown] this is the idempotence of [insert_Address_EOA],
    which it calls on every address. *)
Theorem registering_twice_is_registering_once
  (self : EthereumETL) (addr : PyHex) (g : Graph) :
  twice (insert_Address_EOA addr) g = insert_Address_EOA addr g /\
  twice (insert_Address_Contract self addr) g = insert_Address_Contract self addr g /\
  twice (insert_Address_Unknown addr) g = insert_Address_Unknown addr g /\
  no_duplicates g (store_after (insert_Address_EOA addr g)) /\
  no_duplicates g (store_after (insert_Address_Contract self addr g)) /\
  no_duplicates g (store_after (insert_Address_Unknown addr g)).
Proof.
  repeat split.
  - apply insert_Address_EOA_twice.
  - apply insert_Address_Contract_twice.
  - apply insert_Address_Unknown_twice.
  - apply insert_Address_EOA_no_duplicates.
  - apply insert_Address_EOA_no_duplicates.
  - apply insert_Address_Contract_no_duplicates.
  - apply insert_Address_Contract_no_duplicates.
  - apply insert_Address_Unknown_no_duplicates.
  - apply insert_Address_Unknown_no_duplicates.
Qed.

(** The C8 theorem at work: [holder_a] is registered as an EOA in the store
    of block 8; registering it as a contract twice is registering it once,
    and the labels stay distinct. *)
Lemma registering_twice_witness :
  labels_distinct (header_written 8) = true /\
  labels_distinct
    (store_after (insert_Address_Contract chain (PStr holder_a) (header_written 8))) = true /\
  twice (insert_Address_Contract chain (PStr holder_a)) (header_written 8)
  = insert_Address_Contract chain (PStr holder_a) (header_written 8).
Proof.
  pose proof (registering_twice_is_registering_once chain (PStr holder_a) (header_written 8))
    as (_ & Htwice & _ & _ & [_ Hlabels] & _).
  split; [vm_compute; reflexivity|].
  split; [apply Hlabels; vm_compute; reflexivity|exact Htwice].
Defined.

(** ** The transaction monad, step by step *)

Section TxFacts.

Lemma Tx_bind_ok {A B} (m : Tx A) (f : A -> Tx B) g b g' :
  (m ≫= f) g = Ok (b, g') ->
  exists a g1, m g = Ok (a, g1) /\ f a g1 = Ok (b, g').
Proof.
  unfold mbind, Tx_bind. destruct (m g) as [[a g1]|e]; [eauto|discriminate].
Qed.

Lemma Tx_ret_ok {A} (a b : A) g g' :
  (mret a : Tx A) g = Ok (b, g') -> b = a /\ g' = g.
Proof. unfold mret, Tx_ret. intros H. now inversion H. Qed.

Lemma create_node_ok ls ps g n g' :
  create_node ls ps g = Ok (n, g') ->
  violates g (new_node g ls ps) = false /\ n = new_node g ls ps /\ g' = add_node g n.
Proof.
  unfold create_node. destruct (violates g _); [discriminate|].
  intros H. inversion H. auto.
Qed.

Lemma assert_one_ok results g u g' :
  assert_one results g = Ok (u, g') ->
  g' = g /\ exists r rest, results = (VInt 1 :: r) :: rest.
Proof.
  unfold assert_one. destruct results as [|[|v r] rest]; try discriminate.
  destruct v as [|n| | |]; simpl; try discriminate.
  destruct (n =? 1) eqn:Hn; [|discriminate].
  apply Z.eqb_eq in Hn. subst n. intros H. apply Tx_ret_ok in H as [_ ->]. eauto.
Qed.

Lemma for_tx_one {A} (a : A) (body : A -> Tx unit) g :
  for_tx [a] body g = body a g.
Proof.
  simpl. unfold mbind, Tx_bind. destruct (body a g) as [[[] g1]|e]; reflexivity.
Qed.

(** A counted statement passes its assertion only when exactly one row was
    matched, and then it is the creation for that row. *)
Lemma counted_once {R} (rows : list R) (create : R -> Tx unit) g results g1 u g2 :
  create_per_row rows create g = Ok (results, g1) ->
  assert_one results g1 = Ok (u, g2) ->
  exists r, rows = [r] /\ create r g = Ok (tt, g1) /\ g2 = g1.
Proof.
  intros Hrows Hassert. unfold create_per_row in Hrows.
  apply Tx_bind_ok in Hrows as ([] & g' & Hfor & Hret).
  apply Tx_ret_ok in Hret as [-> ->].
  apply assert_one_ok in Hassert as [-> (r & rest & Hcount)].
  destruct rows as [|r1 [|r2 rows]]; simpl in Hcount; try discriminate.
  - exists r1. split; [reflexivity|]. now rewrite for_tx_one in Hfor.
  - exfalso. inversion Hcount as [Hn]. lia.
Qed.

Lemma list_prod_nil_r {A B} (l : list A) : list_prod l ([] : list B) = [].
Proof. induction l; simpl; [reflexivity|assumption]. Qed.

Lemma list_prod_one {A B} (l1 : list A) (l2 : list B) a b :
  list_prod l1 l2 = [(a, b)] -> l1 = [a] /\ l2 = [b].
Proof.
  destruct l1 as [|x l1]; simpl; [discriminate|].
  destruct l2 as [|y l2]; simpl.
  - rewrite list_prod_nil_r. discriminate.
  - intros H. inversion H as [[Hx Hy Hrest]]. subst.
    apply List.app_eq_nil in Hrest as [Hl2 Hl1].
    destruct l2; [|discriminate]. destruct l1; [|discriminate]. now split.
Qed.

End TxFacts.

(** ** What a write adds to the store *)

Section Writes.

Lemma writes_as {A} (m : Tx A) labels labels' types types' :
  writes m labels types -> labels = labels' -> types = types' ->
  writes m labels' types'.
Proof. now intros H <- <-. Qed.

Lemma writes_nothing {A} (m : Tx A) :
  (forall g a g', m g = Ok (a, g') -> g' = g) -> writes m [] [].
Proof.
  intros Hm g a g' H. apply Hm in H as ->.
  exists [], []. now rewrite !List.app_nil_r.
Qed.

Lemma writes_ret {A} (a : A) : writes (mret a) [] [].
Proof. apply writes_nothing. intros g b g' H. now apply Tx_ret_ok in H. Qed.

Lemma writes_raise {A} e : writes (raise e : Tx A) [] [].
Proof. intros g b g' H. discriminate. Qed.

Lemma writes_bind {A B} (m : Tx A) (f : A -> Tx B) l1 l2 t1 t2 :
  writes m l1 t1 -> (forall a, writes (f a) l2 t2) ->
  writes (m ≫= f) (l1 ++ l2) (t1 ++ t2).
Proof.
  intros Hm Hf g b g' H. apply Tx_bind_ok in H as (a & g1 & H1 & H2).
  apply Hm in H1 as (ns1 & es1 & N1 & L1 & E1 & T1).
  apply Hf in H2 as (ns2 & es2 & N2 & L2 & E2 & T2).
  exists (ns1 ++ ns2)%list, (es1 ++ es2)%list. repeat split.
  - now rewrite N2, N1, List.app_assoc.
  - now rewrite List.map_app, L1, L2.
  - now rewrite E2, E1, List.app_assoc.
  - now rewrite List.map_app, T1, T2.
Qed.

Lemma writes_create_node ls ps : writes (create_node ls ps) [ls] [].
Proof.
  intros g n g' H. apply create_node_ok in H as (_ & -> & ->).
  exists [new_node g ls ps], []. simpl. now rewrite List.app_nil_r.
Qed.

Lemma writes_create_edge a ty ps b : writes (create_edge a ty ps b) [] [ty].
Proof.
  intros g u g'. unfold create_edge. intros H. inversion H.
  exists [], [new_edge a ty ps b]. simpl. now rewrite List.app_nil_r.
Qed.

Lemma writes_match1 ls ps : writes (match1 ls ps) [] [].
Proof. apply writes_nothing. intros g r g' H. unfold match1 in H. now inversion H. Qed.

Lemma writes_match2 ls1 ps1 ls2 ps2 : writes (match2 ls1 ps1 ls2 ps2) [] [].
Proof. apply writes_nothing. intros g r g' H. unfold match2 in H. now inversion H. Qed.

Lemma writes_match3 ls1 ps1 ls2 ps2 ls3 ps3 :
  writes (match3 ls1 ps1 ls2 ps2 ls3 ps3) [] [].
Proof. apply writes_nothing. intros g r g' H. unfold match3 in H. now inversion H. Qed.

Lemma writes_assert_one results : writes (assert_one results) [] [].
Proof. apply writes_nothing. intros g u g' H. now apply assert_one_ok in H. Qed.

Lemma writes_item_tx {A} (d : gmap string A) k : writes (item_tx d k) [] [].
Proof.
  unfold item_tx. destruct (d !! k); [apply writes_ret|apply writes_raise].
Qed.

Lemma writes_item_tx_then {A B} (d : gmap string A) k (f : A -> Tx B) labels types :
  (forall v, d !! k = Some v -> writes (f v) labels types) ->
  writes (item_tx d k ≫= f) labels types.
Proof.
  intros Hf g b g' H. apply Tx_bind_ok in H as (v & g1 & Hv & H).
  unfold item_tx in Hv. destruct (d !! k) as [v'|] eqn:Hd; [|discriminate].
  apply Tx_ret_ok in Hv as [-> ->]. now apply (Hf v' eq_refl) in H.
Qed.

Lemma writes_for_tx {A} (l : list A) (body : A -> Tx unit) labels types :
  (forall a, writes (body a) labels types) ->
  writes (for_tx l body) (flat_map (fun _ => labels) l) (flat_map (fun _ => types) l).
Proof.
  intros Hbody. induction l as [|a l IH]; simpl.
  - apply writes_ret.
  - apply writes_bind; [apply Hbody|]. intros _. exact IH.
Qed.

(** A counted statement that passes its assertion wrote what one creation
    writes. *)
Lemma writes_counted {R} (rows : list R) (create : R -> Tx unit) labels types :
  (forall r, writes (create r) labels types) ->
  writes (create_per_row rows create ≫= assert_one) labels types.
Proof.
  intros Hcreate g u g' H. apply Tx_bind_ok in H as (results & g1 & Hrows & Hassert).
  destruct (counted_once _ _ _ _ _ _ _ Hrows Hassert) as (r & _ & Hr & ->).
  now apply Hcreate in Hr.
Qed.

Lemma writes_counted_then {R B} (rows : list R) (create : R -> Tx unit)
  (rest : unit -> Tx B) l1 l2 t1 t2 :
  (forall r, writes (create r) l1 t1) ->
  (forall u, writes (rest u) l2 t2) ->
  writes (create_per_row rows create ≫= fun results => assert_one results ≫= rest)
    (l1 ++ l2) (t1 ++ t2).
Proof.
  intros Hcreate Hrest g b g' H.
  apply Tx_bind_ok in H as (results & g1 & Hrows & H).
  apply Tx_bind_ok in H as (u & g2 & Hassert & H).
  destruct (counted_once _ _ _ _ _ _ _ Hrows Hassert) as (r & _ & Hr & ->).
  apply Hcreate in Hr as (ns1 & es1 & N1 & L1 & E1 & T1).
  apply Hrest in H as (ns2 & es2 & N2 & L2 & E2 & T2).
  exists (ns1 ++ ns2)%list, (es1 ++ es2)%list. repeat split.
  - now rewrite N2, N1, List.app_assoc.
  - now rewrite List.map_app, L1, L2.
  - now rewrite E2, E1, List.app_assoc.
  - now rewrite List.map_app, T1, T2.
Qed.

End Writes.

Create HintDb writes.

#[local] Hint Resolve writes_ret writes_raise writes_create_node writes_create_edge
  writes_match1 writes_match2 writes_match3 writes_assert_one writes_item_tx : writes.

(** One step of the analysis of a write: open a matched row, close a
    primitive, enter a counted statement or a loop, or split a sequence. *)
Ltac writes_step :=
  first
    [ match goal with
      | |- writes (let '(_, _) := ?r in _) _ _ => is_var r; destruct r; cbn beta iota
      end
    | solve [eauto with writes]
    | eapply writes_counted; intros; cbn beta
    | eapply writes_counted_then; intros; cbn beta
    | eapply writes_for_tx; intros; cbn beta
    | eapply writes_bind; [|intros; cbn beta] ].

Section WritesOfOperations.

Lemma insert_block_conatins_tx_writes block_number transaction_hash :
  writes (insert_block_conatins_tx block_number transaction_hash) [] ["CONTAINS"].
Proof.
  unfold insert_block_conatins_tx.
  eapply writes_as; [repeat writes_step|reflexivity|reflexivity].
Qed.

Lemma insert_TokenTransfer_writes transfer :
  writes (insert_TokenTransfer transfer)
    [["TokenTransfer"]] ["SEND_TOKEN"; "TOKEN_TO"; "CALL_TOKEN_TRANSFER"].
Proof.
  unfold insert_TokenTransfer.
  eapply writes_as; [repeat writes_step|reflexivity|reflexivity].
Qed.

Lemma parse_block_header_writes self block :
  writes (parse_block_header self block)
    [["Block"]]
    ("BLOCK_REWARD" :: flat_map (fun _ => ["UNCLE_REWARD"]) (uncle_blocks block)).
Proof.
  unfold parse_block_header.
  eapply writes_as; [repeat writes_step| |reflexivity].
  simpl. induction (uncle_blocks block); simpl; congruence.
Qed.

Lemma insert_Transaction_writes transaction :
  writes (insert_Transaction transaction) [["Transaction"]] [].
Proof.
  unfold insert_Transaction, create_Transaction.
  eapply writes_as.
  - eapply writes_bind; [|intros; repeat writes_step].
    destruct (tx_transactionIndex transaction) as [n|s]; [apply writes_ret|].
    destruct (String.prefix "0x" s); [|apply writes_ret].
    destruct (int_base16 (drop_str 2 s)); apply writes_raise.
  - reflexivity.
  - reflexivity.
Qed.

(** What one transaction adds: its node (and the unlabelled node of a
    contract creation), a node per transfer, and the edges. *)
Lemma parse_block_tx_writes block transaction :
  writes (parse_block_tx block transaction)
    (["Transaction"]
     :: match tx_to transaction with
        | Some _ => []
        | None => [[]]
        end
     ++ flat_map (fun _ => [["TokenTransfer"]])
          (default [] (transfers block !! get_hash transaction)))
    (["SEND"; match tx_to transaction with
              | Some _ => "TO"
              | None => "CALL_CONTRACT_CREATION"
              end]
     ++ flat_map (fun _ => ["SEND_TOKEN"; "TOKEN_TO"; "CALL_TOKEN_TRANSFER"])
          (default [] (transfers block !! get_hash transaction))
     ++ ["CONTAINS"]).
Proof.
  unfold parse_block_tx.
  destruct (transfers block !! get_hash transaction) as [block_transfers|] eqn:Hd.
  - destruct (tx_to transaction) as [to|];
      (eapply writes_as;
       [ eapply writes_bind; [apply insert_Transaction_writes|intros _];
         eapply writes_bind; [repeat writes_step|intros _];
         apply writes_item_tx_then; intros v Hv; rewrite Hd in Hv; inversion Hv; subst v;
         eapply writes_bind; [|intros _; repeat writes_step];
         apply writes_for_tx; intros tf; apply insert_TokenTransfer_writes
       | simpl; now rewrite ?List.app_nil_r
       | reflexivity ]).
  - destruct (tx_to transaction) as [to|];
      (eapply writes_as;
       [ eapply writes_bind; [apply insert_Transaction_writes|intros _];
         eapply writes_bind; [repeat writes_step|intros _];
         apply writes_item_tx_then; intros v Hv; congruence
       | reflexivity
       | reflexivity ]).
Qed.

End WritesOfOperations.

(** ** C9 and C6: what the counted writes leave in the store *)

Section TokenTransferNode.

Lemma keeps_nodes_ret {A} (a : A) : keeps_nodes (mret a).
Proof. intros g b g' H. now apply Tx_ret_ok in H as [_ ->]. Qed.

Lemma keeps_nodes_bind {A B} (m : Tx A) (f : A -> Tx B) :
  keeps_nodes m -> (forall a, keeps_nodes (f a)) -> keeps_nodes (m ≫= f).
Proof.
  intros Hm Hf g b g' H. apply Tx_bind_ok in H as (a & g1 & H1 & H2).
  apply Hm in H1. apply Hf in H2. congruence.
Qed.

Lemma keeps_nodes_create_edge a ty ps b : keeps_nodes (create_edge a ty ps b).
Proof. intros g u g' H. unfold create_edge in H. now inversion H. Qed.

Lemma keeps_nodes_match2 ls1 ps1 ls2 ps2 : keeps_nodes (match2 ls1 ps1 ls2 ps2).
Proof. intros g u g' H. unfold match2 in H. now inversion H. Qed.

Lemma keeps_nodes_match3 ls1 ps1 ls2 ps2 ls3 ps3 :
  keeps_nodes (match3 ls1 ps1 ls2 ps2 ls3 ps3).
Proof. intros g u g' H. unfold match3 in H. now inversion H. Qed.

Lemma keeps_nodes_assert_one results : keeps_nodes (assert_one results).
Proof. intros g u g' H. now apply assert_one_ok in H as [-> _]. Qed.

Lemma keeps_nodes_for_tx {A} (l : list A) (body : A -> Tx unit) :
  (forall a, keeps_nodes (body a)) -> keeps_nodes (for_tx l body).
Proof.
  intros Hbody. induction l as [|a l IH]; simpl.
  - apply keeps_nodes_ret.
  - apply keeps_nodes_bind; [apply Hbody|]. intros _. exact IH.
Qed.

Lemma keeps_nodes_create_per_row {R} (rows : list R) (create : R -> Tx unit) :
  (forall r, keeps_nodes (create r)) -> keeps_nodes (create_per_row rows create).
Proof.
  intros Hcreate. unfold create_per_row. apply keeps_nodes_bind.
  - now apply keeps_nodes_for_tx.
  - intros _. apply keeps_nodes_ret.
Qed.

(** The node key of TokenTransfer: the node is refused unless the transfer
    has a transaction hash and a log index. *)
Lemma TokenTransfer_key_present transfer g :
  violates g
    (new_node g ["TokenTransfer"]
       [("transaction_hash", of_option VStr (transaction_hash transfer));
        ("log_index", of_option VInt (log_index transfer));
        ("token_address", VStr (token_address transfer));
        ("value", VStr (str (value transfer)));
        ("value_raw", of_hex (value_raw transfer))]) = false ->
  exists h i, transaction_hash transfer = Some h /\ log_index transfer = Some i.
Proof.
  destruct (transaction_hash transfer) as [h|], (log_index transfer) as [i|];
    [eauto| | |];
    destruct (value_raw transfer);
    unfold violates, schema, breaks; simpl; discriminate.
Qed.

End TokenTransferNode.

(** C9, as the code has it.  The node [insert_TokenTransfer] creates is
    labelled TokenTransfer and carries five properties: the transaction hash,
    the log index, the token address, the decoded value as decimal text, and
    the raw value.  The transfer's block number and its two addresses are not
    stored on the node. *)
Theorem token_transfer_node_has_five_fields
  (transfer : EthTokenTransfer) (g g' : Graph) :
  insert_TokenTransfer transfer g = Ok (tt, g') ->
  exists h i,
    transaction_hash transfer = Some h /\
    log_index transfer = Some i /\
    nodes g' =
      (nodes g ++
       [{| node_id := next_id g;
           node_labels := ["TokenTransfer"];
           node_props :=
             [("transaction_hash", VStr h);
              ("log_index", VInt i);
              ("token_address", VStr (token_address transfer));
              ("value", VStr (str (value transfer)));
              ("value_raw", of_hex (value_raw transfer))] |}])%list.
Proof.
  unfold insert_TokenTransfer. intros H.
  apply Tx_bind_ok in H as (results & g1 & Hcreate & Hrest).
  apply Tx_bind_ok in Hcreate as (n & g0 & Hnode & Hret).
  apply Tx_ret_ok in Hret as [_ ->].
  apply create_node_ok in Hnode as (Hfits & -> & ->).
  destruct (TokenTransfer_key_present _ _ Hfits) as (h & i & Hh & Hi).
  exists h, i. split; [exact Hh|]. split; [exact Hi|].
  assert (Hkeeps : nodes g' = nodes (add_node g
            (new_node g ["TokenTransfer"]
               [("transaction_hash", of_option VStr (transaction_hash transfer));
                ("log_index", of_option VInt (log_index transfer));
                ("token_address", VStr (token_address transfer));
                ("value", VStr (str (value transfer)));
                ("value_raw", of_hex (value_raw transfer))]))).
  { revert Hrest. generalize (add_node g
            (new_node g ["TokenTransfer"]
               [("transaction_hash", of_option VStr (transaction_hash transfer));
                ("log_index", of_option VInt (log_index transfer));
                ("token_address", VStr (token_address transfer));
                ("value", VStr (str (value transfer)));
                ("value_raw", of_hex (value_raw transfer))])) as g1.
    intros g1.
    match goal with |- ?m g1 = Ok (tt, g') -> _ =>
      assert (Hk : keeps_nodes m); [|apply Hk] end.
    repeat first
      [ apply keeps_nodes_assert_one
      | apply keeps_nodes_match2
      | apply keeps_nodes_match3
      | apply keeps_nodes_create_edge
      | apply keeps_nodes_create_per_row; intros [[? ?] ?]
      | apply keeps_nodes_create_per_row; intros [? ?]
      | apply keeps_nodes_bind; [|intros] ]. }
  rewrite Hkeeps. unfold add_node, new_node. simpl nodes.
  rewrite Hh, Hi. unfold of_option. f_equal. f_equal. f_equal.
  unfold stored. simpl. now destruct (value_raw transfer).
Qed.


(** The C9 theorem at the transfer of block 8. *)
Lemma token_transfer_node_witness :
  exists g',
    insert_TokenTransfer (a_transfer call_hash 8) (block_missing 8 call_tx) = Ok (tt, g') /\
    exists h i,
      Some call_hash = Some h /\
      Some 0 = Some i /\
      nodes g' =
        (nodes (block_missing 8 call_tx) ++
         [{| node_id := next_id (block_missing 8 call_tx);
             node_labels := ["TokenTransfer"];
             node_props :=
               [("transaction_hash", VStr h);
                ("log_index", VInt i);
                ("token_address", VStr token);
                ("value", VStr (str 1000));
                ("value_raw",
                 VStr "0x00000000000000000000000000000000000000000000000000000000000003e8")]
          |}])%list.
Proof.
  eexists. split.
  - vm_compute. reflexivity.
  - apply (token_transfer_node_has_five_fields (a_transfer call_hash 8)
             (block_missing 8 call_tx)).
    vm_compute. reflexivity.
Defined.

(** C9, refuted as stated.  The transfer of block 8 carries its block number;
    the node written for it has no property of that name, nor of any other
    name but five. *)
Theorem token_transfer_node_lacks_block_number :
  block_number (a_transfer call_hash 8) = Some 8 /\
  exists g' n,
    insert_TokenTransfer (a_transfer call_hash 8) (block_missing 8 call_tx) = Ok (tt, g') /\
    MATCH ["TokenTransfer"] [] g' = [n] /\
    get_prop "block_number" (node_props n) = None /\
    List.map fst (node_props n)
    = ["transaction_hash"; "log_index"; "token_address"; "value"; "value_raw"].
Proof.
  split; [reflexivity|]. do 2 eexists. vm_compute. repeat split; reflexivity.
Qed.

Section CountedWrites.

Lemma counted_otherwise {R B} (rows : list R) (create : R -> Tx unit)
  (rest : unit -> Tx B) g g1 :
  for_tx rows create g = Ok (tt, g1) ->
  List.length rows <> 1%nat ->
  (create_per_row rows create ≫= fun results => assert_one results ≫= rest) g
  = Raise AssertionError.
Proof.
  intros Hfor Hlen. unfold create_per_row, mbind, Tx_bind. rewrite Hfor.
  unfold mret, Tx_ret, assert_one. cbn [Value_eqb].
  destruct (Z.of_nat (List.length rows) =? 1) eqn:Hn; [|reflexivity].
  apply Z.eqb_eq in Hn. lia.
Qed.

(** [insert_block_conatins_tx] returns only when one Block node and one
    Transaction node were matched, with one edge between them added. *)
Lemma insert_block_conatins_tx_ok n h g g' :
  insert_block_conatins_tx n h g = Ok (tt, g') ->
  exists b tx,
    MATCH ["Block"] (block_key n) g = [b] /\
    MATCH ["Transaction"] (transaction_key h) g = [tx] /\
    g' = add_edge g (new_edge b "CONTAINS" [] tx).
Proof.
  unfold insert_block_conatins_tx. intros H.
  apply Tx_bind_ok in H as (rows & g1 & Hrows & H).
  unfold match2 in Hrows. inversion Hrows. subst rows g1. clear Hrows.
  apply Tx_bind_ok in H as (results & g1 & Hcount & Hassert).
  destruct (counted_once _ _ _ _ _ _ _ Hcount Hassert) as ([b tx] & Hone & Hedge & ->).
  apply list_prod_one in Hone as [Hb Htx].
  exists b, tx. split; [exact Hb|]. split; [exact Htx|].
  unfold create_edge in Hedge. now inversion Hedge.
Qed.

End CountedWrites.

(** C6, as the code has it.  The writes that return a count assert it: when
    [parse_block_header], [parse_block_tx], [insert_TokenTransfer] or
    [insert_block_conatins_tx] returns, each of its counted statements has
    created its node or path exactly once.  So the first adds one Block
    node, one BLOCK_REWARD edge and one UNCLE_REWARD edge per uncle; the
    second one Transaction node (and the unlabelled node of a contract
    creation), one SEND edge, one TO or CALL_CONTRACT_CREATION edge, what
    each transfer adds, and one CONTAINS edge; the third one TokenTransfer
    node and its three edges; the last one CONTAINS edge, between the one
    Block node and the one Transaction node of its keys.  A counted
    statement that matched another number of rows raises [AssertionError],
    and the transaction it runs in leaves the store as it was.  A
    transaction function commits or rolls back as a whole. *)
Theorem counted_writes_assert_one
  (self : EthereumETL) (block : EnrichedBlock) (transaction : Transaction)
  (transfer : EthTokenTransfer) (n : Z) (h : string) :
  writes (parse_block_header self block)
    [["Block"]]
    ("BLOCK_REWARD" :: flat_map (fun _ => ["UNCLE_REWARD"]) (uncle_blocks block)) /\
  writes (parse_block_tx block transaction)
    (["Transaction"]
     :: match tx_to transaction with
        | Some _ => []
        | None => [[]]
        end
     ++ flat_map (fun _ => [["TokenTransfer"]])
          (default [] (transfers block !! get_hash transaction)))
    (["SEND"; match tx_to transaction with
              | Some _ => "TO"
              | None => "CALL_CONTRACT_CREATION"
              end]
     ++ flat_map (fun _ => ["SEND_TOKEN"; "TOKEN_TO"; "CALL_TOKEN_TRANSFER"])
          (default [] (transfers block !! get_hash transaction))
     ++ ["CONTAINS"]) /\
  writes (insert_TokenTransfer transfer)
    [["TokenTransfer"]] ["SEND_TOKEN"; "TOKEN_TO"; "CALL_TOKEN_TRANSFER"] /\
  writes (insert_block_conatins_tx n h) [] ["CONTAINS"] /\
  (forall g g',
      insert_block_conatins_tx n h g = Ok (tt, g') ->
      exists b tx,
        MATCH ["Block"] (block_key n) g = [b] /\
        MATCH ["Transaction"] (transaction_key h) g = [tx] /\
        g' = add_edge g (new_edge b "CONTAINS" [] tx)) /\
  (forall (R B : Type) (rows : list R) (create : R -> Tx unit) (rest : unit -> Tx B) g g1,
      for_tx rows create g = Ok (tt, g1) ->
      List.length rows <> 1%nat ->
      write_transaction
        (create_per_row rows create ≫= fun results => assert_one results ≫= rest) g
      = (Raised AssertionError, g)) /\
  (forall (A : Type) (f : Tx A) g,
      (exists a g', f g = Ok (a, g') /\ write_transaction f g = (Done a, g')) \/
      (exists e, f g = Raise e /\ write_transaction f g = (Raised e, g))).
Proof.
  split; [apply parse_block_header_writes|].
  split; [apply parse_block_tx_writes|].
  split; [apply insert_TokenTransfer_writes|].
  split; [apply insert_block_conatins_tx_writes|].
  split; [apply insert_block_conatins_tx_ok|].
  split.
  - intros R B rows create rest g g1 Hfor Hlen. unfold write_transaction.
    now rewrite (counted_otherwise rows create rest g g1 Hfor Hlen).
  - intros A f g. unfold write_transaction.
    destruct (f g) as [[a g']|e]; [left|right]; eauto.
Qed.

(** The C6 theorem at the repair of the transaction of block 8: the write
    returns, and it has added two nodes and six edges. *)
Lemma counted_writes_witness :
  exists g' ns es,
    parse_block_tx (enriched 8) call_tx (header_written 8) = Ok (tt, g') /\
    nodes g' = (nodes (header_written 8) ++ ns)%list /\
    List.map node_labels ns = [["Transaction"]; ["TokenTransfer"]] /\
    edges g' = (edges (header_written 8) ++ es)%list /\
    List.map edge_type es
    = ["SEND"; "TO"; "SEND_TOKEN"; "TOKEN_TO"; "CALL_TOKEN_TRANSFER"; "CONTAINS"].
Proof.
  destruct (counted_writes_assert_one chain (enriched 8) call_tx (a_transfer call_hash 8)
              8 call_hash) as (_ & Htx & _).
  destruct (parse_block_tx (enriched 8) call_tx (header_written 8))
    as [[[] g']|e] eqn:Hrun; [|vm_compute in Hrun; discriminate].
  destruct (Htx _ _ _ Hrun) as (ns & es & Hnodes & Hlabels & Hedges & Htypes).
  exists g', ns, es. split; [reflexivity|].
  split; [exact Hnodes|]. split; [exact Hlabels|]. split; [exact Hedges|exact Htypes].
Defined.

(** C6, refuted as stated.  The statement that creates the Transaction node
    returns no row, and [insert_Transaction] returns all the same: nothing
    confirms the effect, and nothing is asserted. *)
Theorem transaction_node_is_written_unasserted :
  exists g',
    create_Transaction creation_tx (VInt 0) (header_written 7) = Ok ([], g') /\
    insert_Transaction creation_tx (header_written 7) = Ok (tt, g') /\
    ~ confirms_one [].
Proof.
  eexists. split; [vm_compute; reflexivity|]. split; [vm_compute; reflexivity|].
  intros (r & rest & H). discriminate.
Qed.


(** ** C7: the local height *)

Section LocalHeight.

Lemma fold_max_spec (l : list Z) (n : Z) :
  (fold_left Z.max l n = n \/ List.In (fold_left Z.max l n) l) /\
  n <= fold_left Z.max l n /\
  (forall x, List.In x l -> x <= fold_left Z.max l n).
Proof.
  revert n. induction l as [|y l IH]; intros n; simpl.
  - split; [now left|]. split; [lia|tauto].
  - destruct (IH (Z.max n y)) as (Hin & Hle & Hall). split; [|split].
    + destruct Hin as [Heq|Hin]; [|now right; right].
      rewrite Heq. destruct (Z.max_spec n y) as [[_ ->]|[_ ->]]; [right; now left|now left].
    + lia.
    + intros x [->|Hx]; [lia|now apply Hall].
Qed.

Lemma max_block_number_spec g top :
  max_block_number g = Some top ->
  List.In top (block_numbers g) /\ forall n, List.In n (block_numbers g) -> n <= top.
Proof.
  unfold max_block_number. destruct (block_numbers g) as [|n r]; [discriminate|].
  intros H. inversion H as [Htop]. destruct (fold_max_spec r n) as (Hin & Hle & Hall).
  split.
  - destruct Hin as [->|Hin]; [now left|now right].
  - intros x [<-|Hx]; [exact Hle|now apply Hall].
Qed.

Lemma for_each_app {A} (l1 l2 : list A) (body : A -> Session unit) g :
  for_each (l1 ++ l2) body g = (for_each l1 body;; for_each l2 body) g.
Proof.
  revert g. induction l1 as [|a l1 IH]; intros g; simpl; [reflexivity|].
  unfold mbind, Session_bind. destruct (body a g) as [[[]|e|] g1]; try reflexivity.
  apply IH.
Qed.

Lemma map_seq_from {A} (f : nat -> A) n m :
  List.map f (seq n m) = List.map (fun i => f (n + i)%nat) (seq 0 m).
Proof.
  revert n f. induction m as [|m IH]; intros n f; simpl; [reflexivity|].
  f_equal; [f_equal; lia|].
  rewrite (IH (S n) f), (IH 1%nat (fun i => f (n + i)%nat)).
  apply List.map_ext. intros i. f_equal. lia.
Qed.

Lemma range_split a b c : a <= b <= c -> range a c = (range a b ++ range b c)%list.
Proof.
  intros H. unfold range.
  replace (Z.to_nat (c - a)) with (Z.to_nat (b - a) + Z.to_nat (c - b))%nat by lia.
  rewrite List.seq_app, List.map_app. f_equal. simpl.
  rewrite map_seq_from. apply List.map_ext. intros i. lia.
Qed.

(** The heights a completed slow-sync loop has synced, from the value it was
    entered with. *)
Lemma slow_sync_loop_heights self fuel latest blocks_co local_height g final g' :
  0 <= blocks_co ->
  slow_sync_loop self fuel latest blocks_co local_height g = (Done final, g') ->
  exists k : nat,
    (k <= fuel)%nat /\
    final = local_height + Z.of_nat k * blocks_co /\
    for_each (range (local_height + 1) (final + 1)) (sync_task self) g = (Done tt, g').
Proof.
  intros Hco. revert local_height g.
  induction fuel as [|fuel IH]; intros local_height g; simpl.
  - intros H. inversion H. subst. exists 0%nat. split; [lia|]. split; [lia|].
    unfold range. now replace (final + 1 - (final + 1)) with 0 by lia.
  - destruct (local_height + 1 <? latest - blocks_co).
    + unfold slow_sync_turn at 1, mbind at 1, Session_bind at 1.
      unfold mbind at 1, Session_bind at 1.
      destruct (for_each _ (sync_task self) g) as [[[]|e|] g1] eqn:Hturn;
        try discriminate.
      unfold mret at 1, Session_ret at 1. intros H.
      apply IH in H as (k & Hk & Hfinal & Hrest).
      exists (S k). split; [lia|]. split; [lia|].
      rewrite (range_split (local_height + 1) (local_height + blocks_co + 1) (final + 1))
        by lia.
      rewrite for_each_app. unfold mbind, Session_bind. rewrite Hturn.
      exact Hrest.
    + intros H. inversion H. subst. exists 0%nat. split; [lia|]. split; [lia|].
      unfold range. now replace (final + 1 - (final + 1)) with 0 by lia.
Qed.

End LocalHeight.

Section LoopExit.

(** With the fuel [work_flow] gives it, a loop that completes has left by its
    guard. *)
Lemma slow_sync_loop_exits self fuel latest blocks_co local_height g final g' :
  0 < blocks_co ->
  (Z.to_nat (latest - local_height) <= fuel)%nat ->
  slow_sync_loop self fuel latest blocks_co local_height g = (Done final, g') ->
  latest - blocks_co <= final + 1.
Proof.
  intros Hco. revert local_height g.
  induction fuel as [|fuel IH]; intros local_height g Hfuel; simpl.
  - intros H. inversion H. subst. lia.
  - destruct (local_height + 1 <? latest - blocks_co) eqn:Hguard.
    + unfold slow_sync_turn at 1, mbind at 1, Session_bind at 1.
      unfold mbind at 1, Session_bind at 1.
      destruct (for_each _ (sync_task self) g) as [[[]|e|] g1]; try discriminate.
      unfold mret at 1, Session_ret at 1. apply IH. lia.
    + intros H. inversion H. subst. apply Z.ltb_ge in Hguard. lia.
Qed.

End LoopExit.

Section LoopStore.

(** Whether it completes or stops on an error, a slow-sync loop has done what
    [sync_task] does on the heights that follow the value the loop was
    entered with, [blocks_co] of them per turn. *)
Lemma slow_sync_loop_store self fuel latest blocks_co local_height g :
  0 <= blocks_co ->
  exists k : nat,
    (k <= fuel)%nat /\
    store_after (slow_sync_loop self fuel latest blocks_co local_height g)
    = store_after
        (for_each (range (local_height + 1) (local_height + Z.of_nat k * blocks_co + 1))
           (sync_task self) g) /\
    match fst (slow_sync_loop self fuel latest blocks_co local_height g) with
    | Done final =>
        final = local_height + Z.of_nat k * blocks_co /\
        fst (for_each (range (local_height + 1) (local_height + Z.of_nat k * blocks_co + 1))
               (sync_task self) g) = Done tt
    | Raised e =>
        fst (for_each (range (local_height + 1) (local_height + Z.of_nat k * blocks_co + 1))
               (sync_task self) g) = Raised e
    | Exited =>
        fst (for_each (range (local_height + 1) (local_height + Z.of_nat k * blocks_co + 1))
               (sync_task self) g) = Exited
    end.
Proof.
  intros Hco. revert local_height g.
  induction fuel as [|fuel IH]; intros local_height g; simpl.
  - exists 0%nat. split; [lia|].
    unfold range.
    replace (local_height + Z.of_nat 0 * blocks_co + 1 - (local_height + 1)) with 0 by lia.
    simpl. repeat split. lia.
  - destruct (local_height + 1 <? latest - blocks_co).
    + unfold slow_sync_turn, mbind, Session_bind.
      destruct (for_each _ (sync_task self) g) as [[[]|e|] g1] eqn:Hturn.
      * cbv beta iota delta [mret Session_ret].
        destruct (IH (local_height + blocks_co) g1) as (k & Hk & Hstore & Hout).
        exists (S k). split; [lia|].
        rewrite (range_split (local_height + 1) (local_height + blocks_co + 1)
                   (local_height + Z.of_nat (S k) * blocks_co + 1)) by lia.
        rewrite for_each_app. unfold mbind, Session_bind. rewrite Hturn.
        replace (local_height + Z.of_nat (S k) * blocks_co + 1)
          with (local_height + blocks_co + Z.of_nat k * blocks_co + 1) by lia.
        split; [exact Hstore|].
        destruct (fst (slow_sync_loop self fuel latest blocks_co
                         (local_height + blocks_co) g1)); [|exact Hout..].
        split; [lia|apply Hout].
      * exists 1%nat. split; [lia|].
        replace (local_height + Z.of_nat 1 * blocks_co + 1)
          with (local_height + blocks_co + 1) by lia.
        now rewrite Hturn.
      * exists 1%nat. split; [lia|].
        replace (local_height + Z.of_nat 1 * blocks_co + 1)
          with (local_height + blocks_co + 1) by lia.
        now rewrite Hturn.
    + exists 0%nat. split; [lia|].
      unfold range.
      replace (local_height + Z.of_nat 0 * blocks_co + 1 - (local_height + 1)) with 0 by lia.
      simpl. repeat split. lia.
Qed.

(** [work_flow] with the syncer section alone: the local height is the one
    read on entry. *)
Lemma work_flow_syncer_alone self c g :
  work_flow self {| checker := None; syncer := Some c |} g
  = (let latest := number (get_latest_block self) in
     let local_height := default (-1) (max_block_number g) in
     let blocks_co := default 100 (syncer_txs c) in
     if truthy_syncer c && (local_height <? latest - 1000) then
       if blocks_co <=? 0 then throw ValueError
       else
         slow_sync_loop self (Z.to_nat (latest - local_height)) latest blocks_co
           local_height;;
         get_local_block_timestamp;;
         throw TypeError
     else mret tt) g.
Proof.
  unfold work_flow, get_local_block_height, mbind, Session_bind.
  now destruct (max_block_number g).
Qed.

Lemma truthy_syncer_keys c :
  truthy_syncer c = true <-> syncer_blocks c <> None \/ syncer_txs c <> None.
Proof.
  unfold truthy_syncer.
  destruct (syncer_blocks c), (syncer_txs c); simpl; split; intros H;
    try reflexivity; try discriminate; try (left; discriminate);
    try (right; discriminate).
  destruct H as [H|H]; now contradict H.
Qed.

(** The store [get_local_block_timestamp] and the daily loop leave is the one
    the slow-sync loop has left. *)
Lemma slow_sync_then_daily_store {A} (loop : Session A) g :
  store_after ((loop;; get_local_block_timestamp;; throw (A:=unit) TypeError) g)
  = store_after (loop g).
Proof.
  unfold mbind, Session_bind. destruct (loop g) as [[a|e|] g1]; try reflexivity.
  unfold get_local_block_timestamp.
  destruct (max_block_number g1); [|reflexivity].
  destruct (MATCH _ _ g1); [reflexivity|].
  destruct (get_prop _ _) as [[]|]; reflexivity.
Qed.

End LoopStore.

(** C7, as the code has it.  [get_local_block_height] reads the greatest
    Block number of the store, or -1 when there is no block.  [work_flow]
    calls it once, on entry.  With the syncer alone configured, a section
    without a key, or a local height within 1000 blocks of the latest one,
    ends [work_flow] at once with the store as it was; a section with a key
    and a local height further behind start the slow sync, which leaves the
    store that [sync_task] leaves on the heights that follow the local height
    read on entry, [blocks_co] of them per turn, and stops before its guard
    only where a [sync_task] has not returned.  A slow-sync loop entered with
    the local height [local_height] and completed has called [sync_task] on
    the heights from [local_height + 1] on: they follow from the value the
    loop was entered with, not from the store.  With the fuel [work_flow]
    gives the loop, it completes by its guard. *)
Theorem local_height_is_read_on_entry (self : EthereumETL) :
  (forall g,
      get_local_block_height g = (Done (default (-1) (max_block_number g)), g) /\
      match max_block_number g with
      | None => block_numbers g = []
      | Some top =>
          List.In top (block_numbers g) /\
          forall n, List.In n (block_numbers g) -> n <= top
      end) /\
  (forall c g,
      (syncer_blocks c = None /\ syncer_txs c = None \/
       number (get_latest_block self) - 1000 <= default (-1) (max_block_number g) ->
       work_flow self {| checker := None; syncer := Some c |} g = (Done tt, g)) /\
      (syncer_blocks c <> None \/ syncer_txs c <> None ->
       default (-1) (max_block_number g) < number (get_latest_block self) - 1000 ->
       0 < default 100 (syncer_txs c) ->
       exists k : nat,
         (k <= Z.to_nat
                 (number (get_latest_block self) - default (-1) (max_block_number g))%Z)%nat /\
         store_after (work_flow self {| checker := None; syncer := Some c |} g)
         = store_after
             (for_each
                (range (default (-1) (max_block_number g) + 1)
                   (default (-1) (max_block_number g)
                    + Z.of_nat k * default 100 (syncer_txs c) + 1))
                (sync_task self) g) /\
         (fst (for_each
                 (range (default (-1) (max_block_number g) + 1)
                    (default (-1) (max_block_number g)
                     + Z.of_nat k * default 100 (syncer_txs c) + 1))
                 (sync_task self) g) = Done tt ->
          number (get_latest_block self) - default 100 (syncer_txs c)
          <= default (-1) (max_block_number g)
             + Z.of_nat k * default 100 (syncer_txs c) + 1))) /\
  (forall fuel latest blocks_co local_height g final g',
      0 <= blocks_co ->
      slow_sync_loop self fuel latest blocks_co local_height g = (Done final, g') ->
      exists k : nat,
        (k <= fuel)%nat /\
        final = local_height + Z.of_nat k * blocks_co /\
        for_each (range (local_height + 1) (final + 1)) (sync_task self) g = (Done tt, g')
        /\ (0 < blocks_co ->
            (Z.to_nat (latest - local_height) <= fuel)%nat ->
            latest - blocks_co <= final + 1)).
Proof.
  split; [|split].
  - intros g. split.
    + unfold get_local_block_height. now destruct (max_block_number g).
    + destruct (max_block_number g) as [top|] eqn:Hmax.
      * now apply max_block_number_spec.
      * unfold max_block_number in Hmax. now destruct (block_numbers g).
  - intros c g. rewrite work_flow_syncer_alone. cbv zeta.
    set (latest := number (get_latest_block self)).
    set (local_height := default (-1) (max_block_number g)).
    set (blocks_co := default 100 (syncer_txs c)).
    split.
    + intros [[Hblocks Htxs]|Hnear].
      * unfold truthy_syncer. now rewrite Hblocks, Htxs.
      * apply Z.ltb_ge in Hnear. rewrite Hnear.
        now rewrite andb_false_r.
    + intros Hkeys Hfar Hco.
      apply truthy_syncer_keys in Hkeys. rewrite Hkeys.
      apply Z.ltb_lt in Hfar. rewrite Hfar. simpl.
      destruct (blocks_co <=? 0) eqn:Hzero; [apply Z.leb_le in Hzero; lia|].
      rewrite slow_sync_then_daily_store.
      destruct (slow_sync_loop_store self (Z.to_nat (latest - local_height)) latest
                  blocks_co local_height g) as (k & Hk & Hstore & Hout); [lia|].
      exists k. split; [exact Hk|]. split; [exact Hstore|].
      intros Hdone.
      destruct (slow_sync_loop self (Z.to_nat (latest - local_height)) latest
                  blocks_co local_height g) as [[final|e|] g1] eqn:Hloop; simpl in Hout.
      * destruct Hout as [Hfinal _]. rewrite <- Hfinal.
        now apply (slow_sync_loop_exits self _ latest _ local_height g _ g1 Hco
                     (Nat.le_refl _)).
      * rewrite Hdone in Hout. discriminate.
      * rewrite Hdone in Hout. discriminate.
  - intros fuel latest blocks_co local_height g final g' Hco Hloop.
    destruct (slow_sync_loop_heights _ _ _ _ _ _ _ _ Hco Hloop) as (k & Hk & Hfinal & Hrun).
    exists k. repeat split; try assumption.
    intros Hpos Hfuel. now apply (slow_sync_loop_exits self fuel latest _ local_height g _ g').
Qed.

(** The C7 theorem at one turn of the loop on the store with blocks 0 and 1. *)
Lemma local_height_witness :
  exists k : nat,
    (k <= 1)%nat /\
    3 = 1 + Z.of_nat k * 2 /\
    for_each (range (1 + 1) (3 + 1)) (sync_task chain) two_blocks
    = (Done tt, after_one_turn).
Proof.
  destruct (local_height_is_read_on_entry chain) as (_ & _ & Hloop).
  destruct (Hloop 1%nat 6 2 1 two_blocks 3 after_one_turn) as (k & Hk & Hfinal & Hrun & _);
    [lia|vm_compute; reflexivity|].
  exists k. split; [exact Hk|]. split; [exact Hfinal|exact Hrun].
Defined.

(** C7, refuted as stated.  The process has run one turn of its loop from the
    local height 1 and holds 3; another process has since committed block 12,
    so the store's greatest Block number is 12.  The next turn of the loop of
    [work_flow] syncs blocks 4 and 5, after the 3 it holds; a loop that read
    the local height from the store would sync blocks 13 and 14. *)
Theorem loop_keeps_its_own_local_height :
  fst (slow_sync_turn chain 2 1 two_blocks) = Done 3 /\
  get_local_block_height after_the_other_process = (Done 12, after_the_other_process) /\
  block_numbers (store_after (slow_sync_loop chain 1 20 2 3 after_the_other_process))
  = [0; 1; 2; 3; 12; 4; 5] /\
  block_numbers (store_after (slow_sync_loop_rereading chain 1 20 2 after_the_other_process))
  = [0; 1; 2; 3; 12; 13; 14] /\
  slow_sync_loop chain 1 20 2 3 after_the_other_process
  <> slow_sync_loop_rereading chain 1 20 2 after_the_other_process.
Proof.
  split; [vm_compute; reflexivity|].
  split; [vm_compute; reflexivity|].
  split; [vm_compute; reflexivity|].
  split; [vm_compute; reflexivity|].
  intros H. apply (f_equal fst) in H. vm_compute in H. discriminate.
Qed.

(** ** Further properties of the decoder *)

(** X1.  A log without topics, or with an empty topic list, decodes to no
    transfer. *)
Theorem no_topic_no_transfer (receipt_log : ReceiptLog) :
  rl_topics receipt_log = None \/ rl_topics receipt_log = Some [] ->
  extract_transfer_from_log receipt_log = None.
Proof. unfold extract_transfer_from_log. now intros [-> | ->]. Qed.

Lemma no_topic_witness :
  extract_transfer_from_log
    {| rl_topics := Some []; rl_data := "0x"; rl_address := token;
       rl_transaction_hash := None; rl_transactionHash := None;
       rl_log_index := None; rl_logIndex := None;
       rl_block_number := None; rl_blockNumber := None |} = None.
Proof. apply no_topic_no_transfer. now right. Defined.

(** X2.  A log whose first topic is a text other than the Transfer signature
    decodes to no transfer. *)
Theorem other_text_topic_no_transfer (receipt_log : ReceiptLog) (s : string)
  (rest : list PyHex) :
  rl_topics receipt_log = Some (PStr s :: rest) ->
  s <> TRANSFER_EVENT_TOPIC ->
  extract_transfer_from_log receipt_log = None.
Proof.
  intros Ht Hs. unfold extract_transfer_from_log. rewrite Ht.
  apply String.eqb_neq in Hs. now rewrite Hs.
Qed.

Lemma other_text_topic_witness :
  extract_transfer_from_log (other_event_log (PStr (hex zero32))) = None.
Proof.
  apply (other_text_topic_no_transfer _ (hex zero32)
           [PStr (word holder_a); PStr (word holder_b)]); [reflexivity|discriminate].
Defined.

(** X3.  A log whose topics and data words are not four in all decodes to no
    transfer. *)
Theorem wrong_shape_no_transfer (receipt_log : ReceiptLog) (topics : list PyHex) :
  rl_topics receipt_log = Some topics ->
  List.length (topics ++ split_to_words (rl_data receipt_log))%list <> 4%nat ->
  extract_transfer_from_log receipt_log = None.
Proof.
  intros Ht Hlen.
  assert (Hparse : _parse_transfer topics receipt_log = None).
  { unfold _parse_transfer.
    destruct (topics ++ split_to_words (rl_data receipt_log))%list
      as [|t0 [|w1 [|w2 [|w3 [|w4 r]]]]]; try reflexivity.
    now contradiction Hlen. }
  unfold extract_transfer_from_log. rewrite Ht.
  destruct topics as [|[s|bs] rest]; [reflexivity| |exact Hparse].
  destruct (String.eqb s TRANSFER_EVENT_TOPIC); [exact Hparse|reflexivity].
Qed.

Lemma wrong_shape_witness :
  extract_transfer_from_log
    {| rl_topics := Some [PStr TRANSFER_EVENT_TOPIC; PStr (word holder_a)];
       rl_data := "0x"; rl_address := token;
       rl_transaction_hash := None; rl_transactionHash := None;
       rl_log_index := None; rl_logIndex := None;
       rl_block_number := None; rl_blockNumber := None |} = None.
Proof.
  apply (wrong_shape_no_transfer _ [PStr TRANSFER_EVENT_TOPIC; PStr (word holder_a)]);
    [reflexivity|].
  vm_compute. discriminate.
Defined.

(** X4.  A log of four words whose value word is no hexadecimal number
    decodes to no transfer, and nothing is raised. *)
Theorem bad_value_no_transfer (receipt_log : ReceiptLog) (topics : list PyHex)
  (t0 w1 w2 w3 : PyHex) :
  rl_topics receipt_log = Some topics ->
  (topics ++ split_to_words (rl_data receipt_log))%list = [t0; w1; w2; w3] ->
  hex_to_dec w3 = None ->
  extract_transfer_from_log receipt_log = None.
Proof.
  intros Ht Hwords Hvalue.
  assert (Hparse : _parse_transfer topics receipt_log = None).
  { unfold _parse_transfer. cbv zeta. rewrite Hwords. cbv beta iota.
    now rewrite Hvalue. }
  unfold extract_transfer_from_log. rewrite Ht.
  destruct topics as [|[s|bs] rest]; [reflexivity| |exact Hparse].
  destruct (String.eqb s TRANSFER_EVENT_TOPIC); [exact Hparse|reflexivity].
Qed.

Lemma bad_value_witness :
  extract_transfer_from_log
    {| rl_topics :=
         Some [PStr TRANSFER_EVENT_TOPIC; PStr (word holder_a); PStr (word holder_b)];
       rl_data := "0xzz"; rl_address := token;
       rl_transaction_hash := None; rl_transactionHash := None;
       rl_log_index := None; rl_logIndex := None;
       rl_block_number := None; rl_blockNumber := None |} = None.
Proof.
  apply (bad_value_no_transfer _
           [PStr TRANSFER_EVENT_TOPIC; PStr (word holder_a); PStr (word holder_b)]
           (PStr TRANSFER_EVENT_TOPIC) (PStr (word holder_a)) (PStr (word holder_b))
           (PStr "0xzz")); reflexivity.
Defined.

(** X5.  A log with the signature as text, two address words and one value
    word decodes to the transfer between the two addresses, each the last 40
    characters of its word in lower case, with the value of the value word. *)
Theorem transfer_log_decodes (receipt_log : ReceiptLog) (w1 w2 w3 : PyHex) (v : Z) :
  rl_topics receipt_log = Some [PStr TRANSFER_EVENT_TOPIC; w1; w2] ->
  split_to_words (rl_data receipt_log) = [w3] ->
  hex_to_dec w3 = Some v ->
  extract_transfer_from_log receipt_log =
    Some {| token_address := to_normalized_address (rl_address receipt_log);
            from_address := word_to_address w1;
            to_address := word_to_address w2;
            value := v;
            transaction_hash :=
              hex_str <$> get2 (rl_transaction_hash receipt_log)
                            (rl_transactionHash receipt_log);
            log_index := get2 (rl_log_index receipt_log) (rl_logIndex receipt_log);
            block_number := get2 (rl_block_number receipt_log) (rl_blockNumber receipt_log);
            value_raw := w3 |}
  /\ forall s, (40 <= String.length s)%nat ->
               word_to_address (PStr s) = lower ("0x" +:+ last_str 40 s).
Proof.
  intros Ht Hwords Hvalue. split.
  - unfold extract_transfer_from_log. rewrite Ht. rewrite String.eqb_refl.
    unfold _parse_transfer. cbv zeta. rewrite Hwords. simpl app. cbv beta iota.
    now rewrite Hvalue.
  - intros s Hs. unfold word_to_address, to_normalized_address. simpl hex_str.
    apply Nat.leb_le in Hs. now rewrite Hs.
Qed.

Lemma transfer_log_witness :
  extract_transfer_from_log (transfer_log call_hash 8) = Some (a_transfer call_hash 8).
Proof.
  destruct (transfer_log_decodes (transfer_log call_hash 8)
              (PStr (word holder_a)) (PStr (word holder_b))
              (PStr "0x00000000000000000000000000000000000000000000000000000000000003e8")
              1000 eq_refl eq_refl eq_refl) as [Hdecode _].
  exact Hdecode.
Defined.

(** ** Further properties of the address registration *)

Section LabelsKept.

Variable self : EthereumETL.

Lemma has_label_add_label_kept l l' n :
  has_label l n = true -> has_label l (add_label l' n) = true.
Proof.
  intros Hl. unfold add_label. destruct (has_label l' n); [exact Hl|].
  unfold has_label in *. simpl. rewrite existsb_app, Hl. reflexivity.
Qed.

Lemma kept_in_add_node g x n :
  List.In n (nodes g) -> List.In n (nodes (add_node g x)).
Proof. intros Hn. unfold add_node. simpl. apply List.in_or_app. now left. Qed.

Lemma kept_in_update ls ps f g n :
  List.In n (nodes g) ->
  List.In (if matches ls ps n then f n else n) (nodes (update_matching ls ps f g)).
Proof.
  intros Hn. unfold update_matching. simpl.
  now apply (List.in_map (fun n => if matches ls ps n then f n else n)).
Qed.

Lemma labelled_after_update ls ps f g n l :
  (forall m, node_id (f m) = node_id m) ->
  (forall m, has_label l m = true -> has_label l (f m) = true) ->
  List.In n (nodes g) -> has_label l n = true ->
  labelled_as l (node_id n) (update_matching ls ps f g).
Proof.
  intros Hid Hl Hn Hlab. exists (if matches ls ps n then f n else n). split; [|split].
  - now apply kept_in_update.
  - now destruct (matches ls ps n).
  - destruct (matches ls ps n); auto.
Qed.

Lemma labelled_after_add g x n l :
  List.In n (nodes g) -> has_label l n = true -> labelled_as l (node_id n) (add_node g x).
Proof. intros Hn Hl. exists n. split; [now apply kept_in_add_node|now split]. Qed.

Lemma labelled_same g n l :
  List.In n (nodes g) -> has_label l n = true -> labelled_as l (node_id n) g.
Proof. intros Hn Hl. now exists n. Qed.

End LabelsKept.

(** X6.  Monotonic upgrade: a node that carries the EOA label carries it
    after any of the three registrations, of any address. *)
Theorem EOA_label_is_kept (self : EthereumETL) (addr : PyHex) (g : Graph) (n : Node) :
  List.In n (nodes g) ->
  has_label "EOA" n = true ->
  labelled_as "EOA" (node_id n) (store_after (insert_Address_EOA addr g)) /\
  labelled_as "EOA" (node_id n) (store_after (insert_Address_Contract self addr g)) /\
  labelled_as "EOA" (node_id n) (store_after (insert_Address_Unknown addr g)).
Proof.
  intros Hn Hl. split; [|split].
  - destruct (address_nodes (hex_str addr) g) as [|a1 r] eqn:Ha.
    + rewrite (insert_Address_EOA_fresh _ _ Ha). now apply labelled_after_add.
    + rewrite insert_Address_EOA_known by congruence.
      apply labelled_after_update; try assumption.
      * intros m. unfold add_label. now destruct (has_label "EOA" m).
      * intros m. apply has_label_add_label_kept.
  - destruct (address_nodes (hex_str addr) g) as [|a1 r] eqn:Ha.
    + rewrite (insert_Address_Contract_fresh _ _ _ Ha).
      destruct (getCode self (hex_str addr));
        [now apply labelled_after_add|now apply labelled_same].
    + rewrite insert_Address_Contract_known by congruence.
      destruct (contract_nodes (hex_str addr) g); [|now apply labelled_same].
      destruct (getCode self (hex_str addr)); [|now apply labelled_same].
      apply labelled_after_update; try assumption.
      * intros m. unfold set_Contract, set_node_prop, add_label. simpl.
        now destruct (has_label "Contract" m).
      * intros m Hm. unfold set_Contract. rewrite !has_label_set_node_prop.
        now apply has_label_add_label_kept.
  - rewrite insert_Address_Unknown_cases.
    destruct (address_nodes (hex_str addr) g) as [|a1 r] eqn:Ha.
    + rewrite (insert_Address_EOA_fresh _ _ Ha). now apply labelled_after_add.
    + rewrite insert_Address_EOA_known by congruence.
      apply labelled_after_update; try assumption.
      * intros m. unfold add_label. now destruct (has_label "EOA" m).
      * intros m. apply has_label_add_label_kept.
Qed.

Lemma EOA_label_witness :
  labelled_as "EOA" 3%nat
    (store_after (insert_Address_Contract chain (PStr holder_a) (header_written 8))).
Proof.
  destruct (EOA_label_is_kept chain (PStr holder_a) (header_written 8)
              {| node_id := 3; node_labels := ["Address"; "EOA"];
                 node_props := address_key holder_a |}) as (_ & Hkept & _).
  - vm_compute. do 3 right. now left.
  - reflexivity.
  - exact Hkept.
Defined.

(** X7.  [insert_Address_Unknown] registers every address as an EOA.  The
    rows of its lookup are read after the read transaction has ended, when
    there are none left, so it always calls [insert_Address_EOA]; where an
    Address node of the address exists, a Contract too, the node gains the
    EOA label.  Afterwards the address has a node, and each of its nodes is
    an EOA. *)
Theorem unknown_address_becomes_EOA (addr : PyHex) (g : Graph) :
  insert_Address_Unknown addr g = insert_Address_EOA addr g /\
  (address_nodes (hex_str addr) g <> [] ->
   insert_Address_Unknown addr g
   = (Done tt,
      update_matching ["Address"] (address_key (hex_str addr)) (add_label "EOA") g)) /\
  address_nodes (hex_str addr) (store_after (insert_Address_Unknown addr g)) <> [] /\
  (forall n,
      List.In n (address_nodes (hex_str addr) (store_after (insert_Address_Unknown addr g))) ->
      has_label "EOA" n = true).
Proof.
  rewrite insert_Address_Unknown_cases.
  split; [reflexivity|]. split; [apply insert_Address_EOA_known|].
  destruct (address_nodes (hex_str addr) g) as [|a1 r] eqn:Ha.
  - rewrite (insert_Address_EOA_fresh _ _ Ha). unfold store_after, fresh_EOA. simpl.
    rewrite address_nodes_add_node, Ha.
    assert (Hm : matches ["Address"] (address_key (hex_str addr))
                   (new_node g ["Address"; "EOA"] (address_key (hex_str addr))) = true).
    { unfold matches, has_prop. simpl. now rewrite String.eqb_refl. }
    rewrite Hm. simpl. split; [discriminate|].
    intros n [<-|[]]. reflexivity.
  - rewrite insert_Address_EOA_known by congruence. unfold store_after. simpl.
    rewrite address_nodes_update by now apply keeps_address_add_label.
    rewrite Ha. split; [discriminate|].
    intros n Hn. apply List.in_map_iff in Hn as (m & <- & Hm).
    rewrite <- Ha in Hm. unfold address_nodes, MATCH in Hm.
    apply List.filter_In in Hm as [_ Hm]. rewrite Hm.
    apply has_label_add_label_same.
Qed.

(** The token contract of block 8 is registered as Unknown: its node, a
    Contract, gains the EOA label. *)
Lemma unknown_address_witness :
  List.map node_labels
    (address_nodes token (store_after (insert_Address_Unknown (PStr token) (header_written 8))))
  = [["Address"; "Contract"; "EOA"]] /\
  insert_Address_Unknown (PStr token) (header_written 8)
  = (Done tt,
     update_matching ["Address"] (address_key token) (add_label "EOA") (header_written 8)).
Proof.
  split; [vm_compute; reflexivity|].
  apply (unknown_address_becomes_EOA (PStr token) (header_written 8)).
  vm_compute. discriminate.
Defined.

(** ** Further properties of the enriched block *)

Section EnrichedBlock.

Variable self : EthereumETL.

Lemma collect_transfers_from (logs : list ReceiptLog) (acc : list EthTokenTransfer) :
  fold_left
    (fun acc log =>
       match extract_transfer_from_log log with
       | Some transfer => (acc ++ [transfer])%list
       | None => acc
       end)
    logs acc
  = (acc ++ omap extract_transfer_from_log logs)%list.
Proof.
  revert acc. induction logs as [|log logs IH]; intros acc; simpl.
  - now rewrite List.app_nil_r.
  - rewrite IH. destruct (extract_transfer_from_log log); [|reflexivity].
    now rewrite <- List.app_assoc.
Qed.

Lemma collect_transfers_omap (logs : list ReceiptLog) :
  collect_transfers logs = omap extract_transfer_from_log logs.
Proof. unfold collect_transfers. now rewrite collect_transfers_from. Qed.


Lemma enhance_transactions_receipts txs acc h :
  transaction_receipt (fold_left (enhance_transaction self) txs acc) !! h
  = if existsb (has_hash h) txs then Some (get_transaction_receipt self h)
    else transaction_receipt acc !! h.
Proof.
  revert acc. induction txs as [|t txs IH]; intros acc; simpl; [reflexivity|].
  rewrite IH. unfold has_hash at 2.
  destruct (existsb (has_hash h) txs); [now rewrite orb_true_r|].
  rewrite orb_false_r. simpl.
  destruct (String.eqb (get_hash t) h) eqn:Hh.
  - apply String.eqb_eq in Hh. subst h. now rewrite lookup_insert_eq.
  - apply String.eqb_neq in Hh. now rewrite lookup_insert_ne.
Qed.

Lemma enhance_transactions_transfers txs acc h :
  transfers (fold_left (enhance_transaction self) txs acc) !! h
  = if existsb (has_hash h) txs
    then Some (collect_transfers (logs (get_transaction_receipt self h)))
    else transfers acc !! h.
Proof.
  revert acc. induction txs as [|t txs IH]; intros acc; simpl; [reflexivity|].
  rewrite IH. unfold has_hash at 2.
  destruct (existsb (has_hash h) txs); [now rewrite orb_true_r|].
  rewrite orb_false_r. simpl.
  destruct (String.eqb (get_hash t) h) eqn:Hh.
  - apply String.eqb_eq in Hh. subst h. now rewrite lookup_insert_eq.
  - apply String.eqb_neq in Hh. now rewrite lookup_insert_ne.
Qed.


Lemma enhance_transactions_created txs acc h :
  created_contracts (fold_left (enhance_transaction self) txs acc) !! h
  = if existsb (creates h) txs then Some (get_new_contract_address self h)
    else created_contracts acc !! h.
Proof.
  revert acc. induction txs as [|t txs IH]; intros acc; simpl; [reflexivity|].
  rewrite IH. unfold creates at 2, has_hash.
  destruct (existsb (creates h) txs); [now rewrite orb_true_r|].
  rewrite orb_false_r. simpl.
  destruct (truthy_str (tx_to t)); simpl; [reflexivity|].
  destruct (String.eqb (get_hash t) h) eqn:Hh.
  - apply String.eqb_eq in Hh. subst h. now rewrite lookup_insert_eq.
  - apply String.eqb_neq in Hh. now rewrite lookup_insert_ne.
Qed.

Lemma existsb_has_hash txs transaction :
  List.In transaction txs -> existsb (has_hash (get_hash transaction)) txs = true.
Proof.
  intros Hin. apply existsb_exists. exists transaction. split; [exact Hin|].
  unfold has_hash. apply String.eqb_refl.
Qed.

End EnrichedBlock.

(** X8.  [enhance_block] gives every transaction of the block its entries:
    the receipt the chain node has for its hash, the transfers decoded from
    the logs of that receipt, in the order of the logs, and for a creation
    the contract address of that receipt.  So no lookup by the hash of a
    transaction of the block fails. *)
Theorem enriched_block_has_every_transaction
  (self : EthereumETL) (block : Block) (transaction : Transaction) :
  List.In transaction (transactions block) ->
  let h := get_hash transaction in
  let b := enhance_block self block in
  transaction_receipt b !! h = Some (get_transaction_receipt self h) /\
  transfers b !! h
  = Some (omap extract_transfer_from_log (logs (get_transaction_receipt self h))) /\
  (truthy_str (tx_to transaction) = false ->
   created_contracts b !! h = Some (get_new_contract_address self h)).
Proof.
  intros Hin h b. unfold b, enhance_block. split; [|split].
  - rewrite enhance_transactions_receipts. unfold h. now rewrite existsb_has_hash.
  - rewrite enhance_transactions_transfers. unfold h.
    rewrite existsb_has_hash by exact Hin. now rewrite collect_transfers_omap.
  - intros Hto. rewrite enhance_transactions_created.
    assert (He : existsb (creates h) (transactions block) = true).
    { apply existsb_exists. exists transaction. split; [exact Hin|].
      unfold creates, has_hash, h. now rewrite Hto, String.eqb_refl. }
    now rewrite He.
Qed.

Lemma enriched_block_witness :
  transfers (enriched 8) !! call_hash
  = Some (omap extract_transfer_from_log (logs (get_transaction_receipt chain call_hash))).
Proof.
  destruct (enriched_block_has_every_transaction chain (get_block chain 8) call_tx)
    as (_ & Htransfers & _).
  - now left.
  - exact Htransfers.
Defined.

(** X9.  [enhance_block] makes no other entry: no contract is listed under a
    hash that only calls have, and nothing is listed under a hash that no
    transaction of the block has. *)
Theorem enriched_block_has_no_other_entry (self : EthereumETL) (block : Block) (h : string) :
  (forall transaction,
      List.In transaction (transactions block) -> get_hash transaction = h ->
      truthy_str (tx_to transaction) = true) ->
  let b := enhance_block self block in
  created_contracts b !! h = None /\
  ((forall transaction,
       List.In transaction (transactions block) -> get_hash transaction <> h) ->
   transaction_receipt b !! h = None /\ transfers b !! h = None).
Proof.
  intros Hcalls b. unfold b, enhance_block. split.
  - rewrite enhance_transactions_created.
    destruct (existsb (creates h) (transactions block)) eqn:He; [|reflexivity].
    apply existsb_exists in He as (t & Hin & Ht). unfold creates, has_hash in Ht.
    apply andb_true_iff in Ht as [Hto Hh]. apply String.eqb_eq in Hh.
    rewrite (Hcalls t Hin Hh) in Hto. discriminate.
  - intros Hother.
    assert (He : existsb (has_hash h) (transactions block) = false).
    { destruct (existsb (has_hash h) (transactions block)) eqn:He; [|reflexivity].
      apply existsb_exists in He as (t & Hin & Ht). unfold has_hash in Ht.
      apply String.eqb_eq in Ht. now destruct (Hother t Hin). }
    rewrite enhance_transactions_receipts, enhance_transactions_transfers, He.
    split; reflexivity.
Qed.

Lemma enriched_block_no_other_witness :
  created_contracts (enriched 8) !! call_hash = None.
Proof.
  destruct (enriched_block_has_no_other_entry chain (get_block chain 8) call_hash)
    as [Hcreated _].
  - intros transaction [<-|[]] _. reflexivity.
  - exact Hcreated.
Defined.

(** ** Further properties of the decoder: words and addresses *)

Section Words.

Lemma take_drop_str n s : (take_str n s +:+ drop_str n s) = s.
Proof.
  revert s. induction n as [|n IH]; intros s; simpl; [reflexivity|].
  destruct s as [|c s]; simpl; [reflexivity|].
  change (String c (take_str n s +:+ drop_str n s) = String c s). now rewrite IH.
Qed.

Lemma append_empty s : (s +:+ "") = s.
Proof.
  induction s as [|c s IH]; [reflexivity|].
  change (String c (s +:+ "") = String c s). now rewrite IH.
Qed.

Lemma length_drop_str n s : String.length (drop_str n s) = (String.length s - n)%nat.
Proof.
  revert s. induction n as [|n IH]; intros s; simpl; [lia|].
  destruct s as [|c s]; simpl; [reflexivity|]. apply IH.
Qed.

Lemma length_take_str n s : String.length (take_str n s) = Nat.min n (String.length s).
Proof.
  revert s. induction n as [|n IH]; intros s; simpl; [reflexivity|].
  destruct s as [|c s]; simpl; [reflexivity|]. now rewrite IH.
Qed.

Lemma drop_str_short n s : (String.length s <= n)%nat -> drop_str n s = "".
Proof.
  intros Hs. pose proof (length_drop_str n s) as Hl.
  destruct (drop_str n s); [reflexivity|]. simpl in Hl. lia.
Qed.

(** The chunks of a text, put end to end, are the text. *)
Lemma chunk_string_from_concat fuel s n :
  (0 < n)%nat -> (String.length s <= fuel)%nat ->
  String.concat "" (chunk_string_from fuel s n) = s.
Proof.
  intros Hn. revert s. induction fuel as [|fuel IH]; intros s Hs.
  - destruct s; [reflexivity|simpl in Hs; lia].
  - destruct s as [|c s]; [reflexivity|].
    change (chunk_string_from (S fuel) (String c s) n)
      with (take_str n (String c s)
            :: chunk_string_from fuel (drop_str n (String c s)) n).
    assert (Hrest : String.concat "" (chunk_string_from fuel (drop_str n (String c s)) n)
                    = drop_str n (String c s)).
    { apply IH. rewrite length_drop_str. simpl in *. lia. }
    cbn [String.concat].
    destruct (chunk_string_from fuel (drop_str n (String c s)) n) as [|w ws] eqn:Hws.
    + simpl in Hrest. rewrite <- (take_drop_str n (String c s)) at 2.
      rewrite <- Hrest. now rewrite append_empty.
    + rewrite Hrest. simpl String.append. apply take_drop_str.
Qed.

Lemma chunk_string_from_words fuel s n :
  (0 < n)%nat ->
  Forall (fun w => (0 < String.length w <= n)%nat) (chunk_string_from fuel s n).
Proof.
  intros Hn. revert s. induction fuel as [|fuel IH]; intros s; [constructor|].
  destruct s as [|c s]; [constructor|].
  change (chunk_string_from (S fuel) (String c s) n)
    with (take_str n (String c s)
          :: chunk_string_from fuel (drop_str n (String c s)) n).
  constructor; [|apply IH].
  rewrite length_take_str. simpl. lia.
Qed.

Lemma concat_map_words (f : string -> PyHex) (g : PyHex -> string) ws :
  (forall w, g (f w) = w) ->
  List.map g (List.map f ws) = ws.
Proof.
  intros Hfg. rewrite List.map_map. rewrite <- (List.map_id ws) at 2.
  apply List.map_ext. exact Hfg.
Qed.

End Words.

(** X10.  The words of a payload, each after its [0x], put end to end are the
    payload after its [0x]; every word is a text of [0x] and one to 64
    characters. *)
Theorem split_to_words_round_trip (data : string) :
  String.concat "" (List.map (fun w => drop_str 2 (hex_str w)) (split_to_words data))
  = drop_str 2 data /\
  Forall (fun w => exists s, w = PStr ("0x" +:+ s) /\ (0 < String.length s <= 64)%nat)
    (split_to_words data).
Proof.
  unfold split_to_words. destruct (2 <? String.length data)%nat eqn:Hlen.
  - split.
    + rewrite concat_map_words by reflexivity.
      unfold chunk_string. apply chunk_string_from_concat; lia.
    + apply Forall_map. unfold chunk_string.
      eapply Forall_impl; [apply (chunk_string_from_words _ _ 64); lia|].
      intros w Hw. exists w. now split.
  - apply Nat.ltb_ge in Hlen. split; [|constructor].
    cbn [List.map String.concat]. symmetry. now apply drop_str_short.
Qed.

(** X11.  A transfer that is decoded comes from a log of four words in all. *)
Theorem decoded_transfer_has_four_words (receipt_log : ReceiptLog)
  (transfer : EthTokenTransfer) :
  extract_transfer_from_log receipt_log = Some transfer ->
  exists t0 rest w1 w2 w3,
    rl_topics receipt_log = Some (t0 :: rest) /\
    (t0 = PStr TRANSFER_EVENT_TOPIC \/ exists bs, t0 = PHexBytes bs) /\
    (rest ++ split_to_words (rl_data receipt_log))%list = [w1; w2; w3] /\
    hex_to_dec w3 = Some (value transfer) /\
    value_raw transfer = w3 /\
    from_address transfer = word_to_address w1 /\
    to_address transfer = word_to_address w2 /\
    token_address transfer = to_normalized_address (rl_address receipt_log) /\
    transaction_hash transfer
    = hex_str <$> get2 (rl_transaction_hash receipt_log) (rl_transactionHash receipt_log) /\
    log_index transfer = get2 (rl_log_index receipt_log) (rl_logIndex receipt_log).
Proof.
  unfold extract_transfer_from_log.
  destruct (rl_topics receipt_log) as [[|t0 rest]|] eqn:Ht; try discriminate.
  intros H.
  assert (Hparse : _parse_transfer (t0 :: rest) receipt_log = Some transfer
                   /\ (t0 = PStr TRANSFER_EVENT_TOPIC \/ exists bs, t0 = PHexBytes bs)).
  { destruct t0 as [s|bs].
    - destruct (String.eqb s TRANSFER_EVENT_TOPIC) eqn:Hs; [|discriminate].
      apply String.eqb_eq in Hs. subst s. split; [exact H|now left].
    - split; [exact H|right; now exists bs]. }
  destruct Hparse as [Hparse Ht0]. clear H.
  unfold _parse_transfer in Hparse. cbv zeta in Hparse.
  change ((t0 :: rest) ++ split_to_words (rl_data receipt_log))%list
    with (t0 :: (rest ++ split_to_words (rl_data receipt_log)))%list in Hparse.
  destruct (rest ++ split_to_words (rl_data receipt_log))%list
    as [|w1 [|w2 [|w3 [|w4 r]]]] eqn:Hwords; try discriminate.
  destruct (hex_to_dec w3) as [v|] eqn:Hv; [|discriminate].
  inversion Hparse. subst transfer. simpl.
  exists t0, rest, w1, w2, w3. repeat split; try reflexivity; assumption.
Qed.

Lemma decoded_transfer_witness :
  exists t0 rest w1 w2 w3,
    rl_topics (transfer_log call_hash 8) = Some (t0 :: rest) /\
    (t0 = PStr TRANSFER_EVENT_TOPIC \/ exists bs, t0 = PHexBytes bs) /\
    (rest ++ split_to_words (rl_data (transfer_log call_hash 8)))%list = [w1; w2; w3] /\
    hex_to_dec w3 = Some 1000.
Proof.
  destruct (decoded_transfer_has_four_words (transfer_log call_hash 8) (a_transfer call_hash 8))
    as (t0 & rest & w1 & w2 & w3 & Ht & Ht0 & Hw & Hv & _).
  - vm_compute. reflexivity.
  - exists t0, rest, w1, w2, w3. repeat split; assumption.
Defined.

Section Lower.

Lemma lower_ascii_twice c : lower_ascii (lower_ascii c) = lower_ascii c.
Proof. destruct c as [[] [] [] [] [] [] [] []]; reflexivity. Qed.

Lemma lower_twice s : lower (lower s) = lower s.
Proof.
  induction s as [|c s IH]; simpl; [reflexivity|].
  now rewrite lower_ascii_twice, IH.
Qed.

Lemma length_lower s : String.length (lower s) = String.length s.
Proof. induction s as [|c s IH]; simpl; [reflexivity|now rewrite IH]. Qed.

Lemma lower_drop_str n s : lower (drop_str n s) = drop_str n (lower s).
Proof.
  revert s. induction n as [|n IH]; intros s; simpl; [reflexivity|].
  destruct s as [|c s]; simpl; [reflexivity|apply IH].
Qed.

Lemma lower_last_str n s : lower (last_str n s) = last_str n (lower s).
Proof. unfold last_str. now rewrite lower_drop_str, length_lower. Qed.

Lemma length_last_str n s :
  (n <= String.length s)%nat -> String.length (last_str n s) = n.
Proof. intros Hn. unfold last_str. rewrite length_drop_str. lia. Qed.

Lemma drop_str_all n s : (n = String.length s)%nat -> forall p, drop_str n (s +:+ p) = p.
Proof.
  intros -> p. induction s as [|c s IH]; [reflexivity|]. exact IH.
Qed.

Lemma last_str_whole s : last_str (String.length s) s = s.
Proof. unfold last_str. now rewrite Nat.sub_diag. Qed.

End Lower.

(** X12.  An address read off a word is in lower case, and reading it again
    gives it back; read off a word of 40 characters or more, it is [0x] and
    the last 40 characters of the word. *)
Theorem word_to_address_is_normal (param : PyHex) :
  lower (word_to_address param) = word_to_address param /\
  word_to_address (PStr (word_to_address param)) = word_to_address param /\
  ((40 <= String.length (hex_str param))%nat ->
   String.length (word_to_address param) = 42%nat /\
   String.prefix "0x" (word_to_address param) = true).
Proof.
  unfold word_to_address, to_normalized_address.
  destruct (40 <=? String.length (hex_str param))%nat eqn:Hlen.
  - apply Nat.leb_le in Hlen.
    set (tail := last_str 40 (hex_str param)).
    assert (Htail : String.length tail = 40%nat) by now apply length_last_str.
    change ("0x" +:+ tail) with (String "0" (String "x" tail)).
    cbn [lower hex_str].
    change (lower_ascii "0") with "0"%char. change (lower_ascii "x") with "x"%char.
    split; [now rewrite lower_twice|]. split.
    + cbn [String.length]. rewrite length_lower, Htail. cbn [Nat.leb].
      change ("0x" +:+ last_str 40 (String "0" (String "x" (lower tail))))
        with (String "0" (String "x" (last_str 40 (String "0" (String "x" (lower tail)))))).
      cbn [lower]. change (lower_ascii "0") with "0"%char.
      change (lower_ascii "x") with "x"%char. do 2 f_equal.
      rewrite lower_last_str. cbn [lower].
      change (lower_ascii "0") with "0"%char. change (lower_ascii "x") with "x"%char.
      rewrite lower_twice. unfold last_str. cbn [String.length].
      rewrite length_lower, Htail. reflexivity.
    + intros _. cbn [String.length]. rewrite length_lower, Htail. split; [reflexivity|].
      now destruct (lower tail).
  - cbn [hex_str]. rewrite length_lower, Hlen. apply Nat.leb_gt in Hlen.
    split; [now rewrite lower_twice|].
    split; [now rewrite lower_twice|]. intros H. lia.
Qed.

Lemma word_to_address_witness :
  String.length (word_to_address (PStr (word holder_a))) = 42%nat /\
  String.prefix "0x" (word_to_address (PStr (word holder_a))) = true.
Proof.
  destruct (word_to_address_is_normal (PStr (word holder_a))) as (_ & _ & Hlong).
  apply Hlong. simpl. lia.
Defined.

(** ** Further properties of the reads and the writes *)

Section Constraints.

Lemma existsb_false_filter_nil {A} (p : A -> bool) (l : list A) :
  existsb p l = false -> List.filter p l = [].
Proof.
  induction l as [|y l IH]; simpl; [reflexivity|].
  destruct (p y); [discriminate|]. exact IH.
Qed.

Lemma fits_constraint g n c :
  violates g n = false -> List.In c schema -> breaks g n c = false.
Proof.
  unfold violates. intros Hv Hc.
  destruct (breaks g n c) eqn:Hb; [|reflexivity].
  assert (existsb (breaks g n) schema = true) by (apply existsb_exists; eauto).
  congruence.
Qed.

(** A node that fits a uniqueness constraint is the first of its key. *)
Lemma fits_unique g n l k v :
  violates g n = false -> List.In (Unique l k) schema ->
  has_label l n = true -> get_prop k (node_props n) = Some v ->
  MATCH [l] [(k, v)] g = [].
Proof.
  intros Hv Hc Hl Hp. pose proof (fits_constraint _ _ _ Hv Hc) as Hb.
  unfold breaks in Hb. rewrite Hl, Hp in Hb. simpl in Hb.
  now apply existsb_false_filter_nil.
Qed.

(** A node whose key another node of the label holds breaks the
    constraint. *)
Lemma breaks_unique g n l k v :
  List.In (Unique l k) schema ->
  has_label l n = true -> get_prop k (node_props n) = Some v ->
  MATCH [l] [(k, v)] g <> [] ->
  violates g n = true.
Proof.
  intros Hc Hl Hp Hm. unfold violates. apply existsb_exists.
  exists (Unique l k). split; [exact Hc|].
  unfold breaks. rewrite Hl, Hp. simpl.
  destruct (existsb (matches [l] [(k, v)]) (nodes g)) eqn:He; [reflexivity|].
  apply existsb_false_filter_nil in He. now destruct Hm.
Qed.

Lemma matches_key l k v n :
  has_label l n = true -> get_prop k (node_props n) = Some v ->
  Value_eqb v v = true ->
  matches [l] [(k, v)] n = true.
Proof.
  intros Hl Hp Hv. unfold matches, has_prop. simpl. now rewrite Hl, Hp, Hv.
Qed.

Lemma MATCH_same_nodes ls ps g g' : nodes g' = nodes g -> MATCH ls ps g' = MATCH ls ps g.
Proof. unfold MATCH. now intros ->. Qed.

End Constraints.

Section Reads.

Lemma get_local_Block_cases n g :
  get_local_Block n g
  = Ok (match MATCH ["Block"] (block_key n) g with
        | [b] => Some (node_props b)
        | _ => None
        end, g).
Proof.
  unfold get_local_Block, match1, mbind, Tx_bind.
  destruct (MATCH ["Block"] (block_key n) g) as [|b [|b' r]]; reflexivity.
Qed.

Lemma get_local_Transaction_cases h g :
  get_local_Transaction h g
  = Ok (match MATCH ["Transaction"] (transaction_key h) g with
        | [tx] => Some (node_props tx)
        | _ => None
        end, g).
Proof.
  unfold get_local_Transaction, match1, mbind, Tx_bind.
  destruct (MATCH ["Transaction"] (transaction_key h) g) as [|b [|b' r]]; reflexivity.
Qed.

Lemma get_local_Transfer_cases h i g :
  get_local_Transfer h i g
  = match MATCH ["TokenTransfer"] (transfer_key (Some h) i) g with
    | [_] => Raise KeyError
    | _ => Ok (None, g)
    end.
Proof.
  unfold get_local_Transfer, match1, mbind, Tx_bind.
  destruct (MATCH ["TokenTransfer"] (transfer_key (Some h) i) g) as [|b [|b' r]];
    reflexivity.
Qed.

End Reads.

(** X13.  [get_local_Transfer] never returns a node: where exactly one
    TokenTransfer node has the key it raises [KeyError], and otherwise it
    returns [None]. *)
Theorem get_local_Transfer_never_finds (h : string) (i : option Z) (g : Graph) :
  (forall tf,
      MATCH ["TokenTransfer"] (transfer_key (Some h) i) g = [tf] ->
      get_local_Transfer h i g = Raise KeyError) /\
  (List.length (MATCH ["TokenTransfer"] (transfer_key (Some h) i) g) <> 1%nat ->
   get_local_Transfer h i g = Ok (None, g)) /\
  (forall props g', get_local_Transfer h i g <> Ok (Some props, g')).
Proof.
  rewrite get_local_Transfer_cases. split; [|split].
  - now intros tf ->.
  - destruct (MATCH _ _ g) as [|b [|b' r]]; simpl; congruence.
  - intros props g'. destruct (MATCH _ _ g) as [|b [|b' r]]; congruence.
Qed.

Section TransactionNode.

Lemma insert_Transaction_ok transaction g g' :
  insert_Transaction transaction g = Ok (tt, g') ->
  exists n,
    g' = add_node g n /\ violates g n = false /\
    node_id n = next_id g /\
    node_labels n = ["Transaction"] /\
    get_prop "hash" (node_props n) = Some (VStr (get_hash transaction)) /\
    get_prop "from" (node_props n) = Some (VStr (tx_from transaction)).
Proof.
  unfold insert_Transaction. intros H.
  apply Tx_bind_ok in H as (idx & g0 & Hidx & H).
  assert (g0 = g) as ->.
  { destruct (tx_transactionIndex transaction) as [n|s].
    - now apply Tx_ret_ok in Hidx.
    - destruct (String.prefix "0x" s); [|now apply Tx_ret_ok in Hidx].
      destruct (int_base16 (drop_str 2 s)); discriminate. }
  apply Tx_bind_ok in H as (results & g1 & H & Hret).
  apply Tx_ret_ok in Hret as [_ ->].
  unfold create_Transaction in H.
  apply Tx_bind_ok in H as (n & g2 & Hnode & Hret).
  apply Tx_ret_ok in Hret as [_ ->].
  apply create_node_ok in Hnode as (Hfits & -> & ->).
  eexists. split; [reflexivity|]. split; [exact Hfits|].
  repeat split; reflexivity.
Qed.

Lemma only_node_after_add l k v g n :
  MATCH [l] [(k, v)] g = [] -> matches [l] [(k, v)] n = true ->
  MATCH [l] [(k, v)] (add_node g n) = [n].
Proof. intros Hm Hn. now rewrite MATCH_add_node, Hm, Hn. Qed.

End TransactionNode.

(** X14.  Insert and look up: a transaction that [insert_Transaction] has
    written was not in the store before, and [get_local_Transaction] then
    finds it under its hash. *)
Theorem stored_transaction_is_found (transaction : Transaction) (g g' : Graph) :
  insert_Transaction transaction g = Ok (tt, g') ->
  get_local_Transaction (get_hash transaction) g = Ok (None, g) /\
  exists props,
    get_local_Transaction (get_hash transaction) g' = Ok (Some props, g') /\
    truthy_node (Some props) = true /\
    get_prop "hash" props = Some (VStr (get_hash transaction)) /\
    get_prop "from" props = Some (VStr (tx_from transaction)).
Proof.
  intros H. apply insert_Transaction_ok in H as (n & -> & Hfits & _ & Hl & Hh & Hf).
  assert (Hlabel : has_label "Transaction" n = true)
    by (unfold has_label; now rewrite Hl).
  assert (Hnew : MATCH ["Transaction"] (transaction_key (get_hash transaction)) g = []).
  { apply (fits_unique g n); try assumption. unfold schema. simpl. tauto. }
  rewrite !get_local_Transaction_cases, Hnew. split; [reflexivity|].
  rewrite (only_node_after_add _ _ _ _ _ Hnew).
  - exists (node_props n). split; [reflexivity|]. split; [|now split].
    destruct (node_props n); [discriminate|reflexivity].
  - apply matches_key; try assumption. apply String.eqb_refl.
Qed.

Lemma stored_transaction_witness :
  exists props,
    get_local_Transaction call_hash
      (store_after (write_transaction (insert_Transaction call_tx) empty_graph))
    = Ok (Some props,
          store_after (write_transaction (insert_Transaction call_tx) empty_graph)) /\
    get_prop "hash" props = Some (VStr call_hash).
Proof.
  destruct (stored_transaction_is_found call_tx empty_graph
              (store_after (write_transaction (insert_Transaction call_tx) empty_graph)))
    as (_ & props & Hfound & _ & Hhash & _).
  - vm_compute. reflexivity.
  - exists props. split; [exact Hfound|exact Hhash].
Defined.

(** X15.  No transaction is stored twice: where a Transaction node holds the
    hash, [insert_Transaction] raises, and so does [parse_block_tx], whose
    transaction is rolled back.  The error is the uniqueness constraint's,
    except for an index that arrives as text with the [0x] prefix, where the
    conversion of the index has raised before the statement is sent:
    [ValueError] from [int], or [TypeError] from the assignment to the
    immutable transaction. *)
Theorem transaction_is_not_stored_twice
  (block : EnrichedBlock) (transaction : Transaction) (g : Graph) :
  MATCH ["Transaction"] (transaction_key (get_hash transaction)) g <> [] ->
  exists e,
    e = match tx_transactionIndex transaction with
        | IndexInt _ => ConstraintError
        | IndexStr s =>
            if String.prefix "0x" s then
              match int_base16 (drop_str 2 s) with
              | Some _ => TypeError
              | None => ValueError
              end
            else ConstraintError
        end /\
    insert_Transaction transaction g = Raise e /\
    write_transaction (parse_block_tx block transaction) g = (Raised e, g).
Proof.
  intros Hm. eexists. split; [reflexivity|].
  assert (Hinsert : insert_Transaction transaction g
                    = Raise match tx_transactionIndex transaction with
                            | IndexInt _ => ConstraintError
                            | IndexStr s =>
                                if String.prefix "0x" s then
                                  match int_base16 (drop_str 2 s) with
                                  | Some _ => TypeError
                                  | None => ValueError
                                  end
                                else ConstraintError
                            end).
  { unfold insert_Transaction, mbind, Tx_bind.
    assert (Hcreate : forall idx,
               create_Transaction transaction idx g = Raise ConstraintError).
    { intros idx. unfold create_Transaction, mbind, Tx_bind, create_node.
      rewrite (breaks_unique g _ "Transaction" "hash" (VStr (get_hash transaction)));
        [reflexivity| | | |exact Hm]; [unfold schema; simpl; tauto|reflexivity|reflexivity]. }
    destruct (tx_transactionIndex transaction) as [n|s].
    - unfold mret, Tx_ret. now rewrite Hcreate.
    - destruct (String.prefix "0x" s).
      + now destruct (int_base16 (drop_str 2 s)).
      + unfold mret, Tx_ret. now rewrite Hcreate. }
  split; [exact Hinsert|].
  unfold write_transaction, parse_block_tx, mbind, Tx_bind. now rewrite Hinsert.
Qed.

Lemma transaction_twice_witness :
  insert_Transaction call_tx (block_missing 8 call_tx) = Raise ConstraintError /\
  write_transaction (parse_block_tx (enriched 8) call_tx) (block_missing 8 call_tx)
  = (Raised ConstraintError, block_missing 8 call_tx).
Proof.
  destruct (transaction_is_not_stored_twice (enriched 8) call_tx (block_missing 8 call_tx))
    as (e & He & Hinsert & Hwrite).
  - vm_compute. discriminate.
  - simpl in He. subst e. split; [exact Hinsert|exact Hwrite].
Defined.

Section Header.

Variable self : EthereumETL.

Ltac keeps_nodes_steps :=
  repeat first
    [ apply keeps_nodes_assert_one
    | apply keeps_nodes_match2
    | apply keeps_nodes_match3
    | apply keeps_nodes_create_edge
    | apply keeps_nodes_ret
    | apply keeps_nodes_for_tx; intros
    | apply keeps_nodes_create_per_row; intros [[? ?] ?]
    | apply keeps_nodes_create_per_row; intros [? ?]
    | apply keeps_nodes_bind; [|intros] ].

Lemma parse_block_header_ok block g g' :
  parse_block_header self block g = Ok (tt, g') ->
  violates g (new_node g ["Block"] (header_props (raw block))) = false /\
  nodes g' = (nodes g ++ [new_node g ["Block"] (header_props (raw block))])%list.
Proof.
  intros H. set (b := new_node g ["Block"] (header_props (raw block))).
  unfold parse_block_header in H. cbv zeta in H.
  apply Tx_bind_ok in H as (results & g1 & Hcreate & Hrest).
  apply Tx_bind_ok in Hcreate as (n & g0 & Hnode & Hret).
  apply Tx_ret_ok in Hret as [_ ->].
  apply create_node_ok in Hnode as (Hfits & -> & ->).
  split; [exact Hfits|].
  change (nodes g ++ [b])%list with (nodes (add_node g b)).
  revert Hrest. fold (header_props (raw block)). fold b.
  generalize (add_node g b) as g1. intros g1.
  match goal with |- ?m g1 = Ok (tt, g') -> _ =>
    assert (Hk : keeps_nodes m); [|apply Hk] end.
  keeps_nodes_steps.
Qed.

Lemma header_is_stored b : stored (header_props b) = header_props b.
Proof. reflexivity. Qed.

Lemma block_numbers_add_header g (b : Block) :
  block_numbers (add_node g (new_node g ["Block"] (header_props b)))
  = (block_numbers g ++ [number b])%list.
Proof.
  unfold block_numbers. rewrite MATCH_add_node.
  change (matches ["Block"] [] (new_node g ["Block"] (header_props b))) with true.
  rewrite List.flat_map_app. reflexivity.
Qed.

Lemma fold_max_snoc (l : list Z) (n m : Z) :
  fold_left Z.max (l ++ [m]) n = Z.max (fold_left Z.max l n) m.
Proof. now rewrite List.fold_left_app. Qed.

Lemma max_block_number_snoc g g' n :
  block_numbers g' = (block_numbers g ++ [n])%list ->
  max_block_number g'
  = Some (match max_block_number g with
          | Some top => Z.max top n
          | None => n
          end).
Proof.
  unfold max_block_number. intros ->.
  destruct (block_numbers g) as [|m r]; [reflexivity|].
  simpl. now rewrite fold_max_snoc.
Qed.

Lemma block_numbers_same_nodes g g' : nodes g' = nodes g -> block_numbers g' = block_numbers g.
Proof. unfold block_numbers. intros H. now rewrite (MATCH_same_nodes _ _ _ _ H). Qed.

End Header.

(** X16.  Write and look up a header: a block whose header [parse_block_header]
    has written was not in the store before; [get_local_Block] then finds
    it under its number, and the local height is the greater of the height
    before and that number. *)
Theorem stored_header_is_found (self : EthereumETL) (block : EnrichedBlock) (g g' : Graph) :
  parse_block_header self block g = Ok (tt, g') ->
  get_local_Block (number (raw block)) g = Ok (None, g) /\
  get_local_Block (number (raw block)) g' = Ok (Some (header_props (raw block)), g') /\
  truthy_node (Some (header_props (raw block))) = true /\
  max_block_number g'
  = Some (match max_block_number g with
          | Some top => Z.max top (number (raw block))
          | None => number (raw block)
          end).
Proof.
  intros H. apply parse_block_header_ok in H as [Hfits Hnodes].
  set (b := new_node g ["Block"] (header_props (raw block))) in *.
  assert (Hnew : MATCH ["Block"] (block_key (number (raw block))) g = []).
  { apply (fits_unique g b); [exact Hfits|unfold schema; simpl; tauto|reflexivity..]. }
  rewrite !get_local_Block_cases, Hnew. split; [reflexivity|].
  assert (Hg' : nodes g' = nodes (add_node g b)) by exact Hnodes.
  rewrite (MATCH_same_nodes _ _ _ _ Hg').
  rewrite (only_node_after_add _ _ _ _ _ Hnew).
  - split; [reflexivity|]. split; [reflexivity|].
    apply max_block_number_snoc.
    rewrite (block_numbers_same_nodes _ _ Hg'). apply block_numbers_add_header.
  - apply matches_key; [reflexivity|reflexivity|apply Z.eqb_refl].
Qed.

Lemma stored_header_witness :
  get_local_Block 10 (header_written 10)
  = Ok (Some (header_props (get_block chain 10)), header_written 10).
Proof.
  destruct (stored_header_is_found chain (enriched 10)
              (store_after (ensure_block_Addresses chain (enriched 10) empty_graph))
              (header_written 10)) as (_ & Hfound & _).
  - vm_compute. reflexivity.
  - exact Hfound.
Defined.

Lemma parse_block_header_refused (self : EthereumETL) (block : EnrichedBlock) (g : Graph) :
  MATCH ["Block"] (block_key (number (raw block))) g <> [] \/
  MATCH ["Block"] [("hash", VStr (hex_str (hash (raw block))))] g <> [] ->
  parse_block_header self block g = Raise ConstraintError.
Proof.
  intros Hm.
  assert (Hv : violates g (new_node g ["Block"] (header_props (raw block))) = true).
  { destruct Hm as [Hm|Hm].
    - apply (breaks_unique g _ "Block" "number" (VInt (number (raw block))));
        [unfold schema; simpl; tauto|reflexivity|reflexivity|exact Hm].
    - apply (breaks_unique g _ "Block" "hash" (VStr (hex_str (hash (raw block)))));
        [unfold schema; simpl; tauto|reflexivity|reflexivity|exact Hm]. }
  unfold parse_block_header, mbind, Tx_bind, create_node.
  fold (header_props (raw block)). now rewrite Hv.
Qed.

Section Timestamp.

Lemma numbered_block_matches n g :
  List.In n (block_numbers g) -> MATCH ["Block"] (block_key n) g <> [].
Proof.
  unfold block_numbers. intros Hin. apply List.in_flat_map in Hin as (b & Hb & Hn).
  unfold MATCH in Hb. apply List.filter_In in Hb as [Hb Hlabel].
  destruct (get_prop "number" (node_props b)) as [[|m| | |]|] eqn:Hp;
    simpl in Hn; try tauto.
  destruct Hn as [->|[]].
  assert (Hmatch : matches ["Block"] (block_key n) b = true).
  { unfold matches in *. simpl in *. rewrite andb_true_r in Hlabel. rewrite Hlabel.
    unfold has_prop. simpl. now rewrite Hp, Z.eqb_refl. }
  unfold MATCH. intros Hnil.
  assert (Hin : List.In b (List.filter (matches ["Block"] (block_key n)) (nodes g)))
    by (apply List.filter_In; now split).
  now rewrite Hnil in Hin.
Qed.

End Timestamp.

(** X17.  On a store without a numbered block [get_local_block_height] returns
    -1, while [get_local_block_timestamp] raises [IndexError]; on any other
    store it returns the timestamp of a block of the greatest number (-1 if
    that block has none). *)
Theorem local_timestamp_needs_a_block (g : Graph) :
  match max_block_number g with
  | None =>
      block_numbers g = [] /\
      get_local_block_height g = (Done (-1), g) /\
      get_local_block_timestamp g = (Raised IndexError, g)
  | Some top =>
      exists b rest,
        MATCH ["Block"] (block_key top) g = b :: rest /\
        get_local_block_timestamp g
        = (Done match get_prop "timestamp" (node_props b) with
                | Some (VInt t) => t
                | _ => -1
                end, g)
  end.
Proof.
  destruct (max_block_number g) as [top|] eqn:Hmax.
  - apply max_block_number_spec in Hmax as Hspec. destruct Hspec as [Hin _].
    apply numbered_block_matches in Hin.
    unfold get_local_block_timestamp. rewrite Hmax.
    change [("number", VInt top)] with (block_key top).
    destruct (MATCH ["Block"] (block_key top) g) as [|b rest]; [now destruct Hin|].
    exists b, rest. split; [reflexivity|].
    now destruct (get_prop "timestamp" (node_props b)) as [[| | | |]|].
  - unfold get_local_block_height, get_local_block_timestamp. rewrite Hmax.
    split; [|now split]. unfold max_block_number in Hmax.
    now destruct (block_numbers g).
Qed.

Section TransactionIndex.

Lemma create_Transaction_ok transaction idx g results g' :
  create_Transaction transaction idx g = Ok (results, g') ->
  exists n,
    nodes g' = (nodes g ++ [n])%list /\
    get_prop "transactionIndex" (node_props n)
    = match idx with VNull => None | _ => Some idx end.
Proof.
  unfold create_Transaction. intros H.
  apply Tx_bind_ok in H as (n & g1 & Hnode & Hret).
  apply Tx_ret_ok in Hret as [_ ->].
  apply create_node_ok in Hnode as (_ & -> & ->).
  eexists. split; [reflexivity|].
  unfold new_node, stored. simpl.
  destruct (tx_to transaction), idx; reflexivity.
Qed.

End TransactionIndex.

(** X18.  A transaction index that arrives as text with the [0x] prefix is
    never stored: [int] raises [ValueError] on digits it cannot read, and
    where it returns, the assignment of the number to the immutable
    transaction raises [TypeError]; [parse_block_tx] is rolled back and the
    store is as it was.  A text without the prefix is stored as it is. *)
Theorem hex_text_index_is_refused
  (block : EnrichedBlock) (transaction : Transaction) (s : string) (g : Graph) :
  tx_transactionIndex transaction = IndexStr s ->
  (String.prefix "0x" s = true ->
   exists e,
     e = match int_base16 (drop_str 2 s) with
         | Some _ => TypeError
         | None => ValueError
         end /\
     insert_Transaction transaction g = Raise e /\
     write_transaction (parse_block_tx block transaction) g = (Raised e, g)) /\
  (String.prefix "0x" s = false ->
   forall g',
     insert_Transaction transaction g = Ok (tt, g') ->
     exists node,
       nodes g' = (nodes g ++ [node])%list /\
       get_prop "transactionIndex" (node_props node) = Some (VStr s)).
Proof.
  intros Hidx. split; intros Hprefix.
  - eexists. split; [reflexivity|].
    assert (Hinsert : insert_Transaction transaction g
                      = Raise match int_base16 (drop_str 2 s) with
                              | Some _ => TypeError
                              | None => ValueError
                              end).
    { unfold insert_Transaction, mbind, Tx_bind. rewrite Hidx, Hprefix.
      now destruct (int_base16 (drop_str 2 s)). }
    split; [exact Hinsert|].
    unfold write_transaction, parse_block_tx, mbind, Tx_bind. now rewrite Hinsert.
  - intros g' H. unfold insert_Transaction in H. rewrite Hidx, Hprefix in H.
    apply Tx_bind_ok in H as (idx & g0 & Hi & H).
    apply Tx_bind_ok in H as (results & g1 & H & Hret).
    apply Tx_ret_ok in Hret as [_ ->].
    apply Tx_ret_ok in Hi as [-> ->].
    apply create_Transaction_ok in H as (node & Hnodes & Hp).
    exists node. split; [exact Hnodes|exact Hp].
Qed.

(** The index [0x1f] reads as 31, and the transaction is refused with
    [TypeError] on the empty store. *)
Lemma hex_text_index_witness :
  int_base16 "1f" = Some 31 /\
  insert_Transaction hex_index_tx empty_graph = Raise TypeError /\
  write_transaction (parse_block_tx (enriched 8) hex_index_tx) empty_graph
  = (Raised TypeError, empty_graph).
Proof.
  split; [reflexivity|].
  destruct (hex_text_index_is_refused (enriched 8) hex_index_tx "0x1f" empty_graph)
    as [Hrefused _]; [reflexivity|].
  destruct Hrefused as (e & He & Hinsert & Hwrite); [reflexivity|].
  vm_compute in He. subst e. split; [exact Hinsert|exact Hwrite].
Defined.

(** ** Further properties of the checker loop *)

Section Checker.

Variable self : EthereumETL.

Lemma range_empty a b : b <= a -> range a b = [].
Proof. intros H. unfold range. now replace (Z.to_nat (b - a)) with 0%nat by lia. Qed.

Lemma check_missing_loop_heights fuel start_height local_height co g :
  0 < co ->
  (Z.to_nat (local_height - start_height) <= fuel)%nat ->
  check_missing_loop self fuel start_height local_height co g
  = for_each (range start_height local_height)
      (fun height => submitted (check_task self height)) g.
Proof.
  intros Hco. revert start_height g.
  induction fuel as [|fuel IH]; intros start_height g Hfuel; simpl.
  - rewrite range_empty by lia. reflexivity.
  - destruct (start_height <? local_height) eqn:Hguard.
    + apply Z.ltb_lt in Hguard.
      rewrite (range_split start_height (Z.min local_height (start_height + co))
                 local_height) by lia.
      rewrite for_each_app. unfold mbind, Session_bind.
      destruct (for_each _ _ g) as [[[]|e|] g1]; try reflexivity.
      apply IH. lia.
    + apply Z.ltb_ge in Hguard. rewrite range_empty by lia. reflexivity.
Qed.

Lemma submitted_never_raises (task : Session unit) g e :
  fst (submitted task g) <> Raised e.
Proof.
  unfold submitted. destruct (task g) as [[[]|e'|] g']; simpl; discriminate.
Qed.

Lemma for_each_never_raises {A} (l : list A) (body : A -> Session unit) :
  (forall a g e, fst (body a g) <> Raised e) ->
  forall g e, fst (for_each l body g) <> Raised e.
Proof.
  intros Hbody. induction l as [|a l IH]; intros g e; simpl; [discriminate|].
  unfold mbind, Session_bind. pose proof (Hbody a g) as Ha.
  destruct (body a g) as [[[]|e'|] g1]; simpl in *.
  - apply IH.
  - now destruct (Ha e').
  - discriminate.
Qed.

End Checker.

Lemma check_missing_heights
  (self : EthereumETL) (local_height co safe_height : Z) (g : Graph) :
  0 < co ->
  check_missing self local_height co safe_height g
  = for_each (range safe_height local_height)
      (fun height => submitted (check_task self height)) g.
Proof.
  intros Hco. unfold check_missing.
  destruct (co <=? 0) eqn:Hle; [apply Z.leb_le in Hle; lia|].
  now apply check_missing_loop_heights.
Qed.

(** X19.  Whatever the size of its batches, [check_missing] runs [check_task]
    once on every height from the safe height up to, and without, the local
    height, in ascending order; with a safe height at or above the local
    height it does nothing. *)
Theorem check_missing_visits_each_height
  (self : EthereumETL) (local_height co safe_height : Z) (g : Graph) :
  0 < co ->
  check_missing self local_height co safe_height g
  = for_each (range safe_height local_height)
      (fun height => submitted (check_task self height)) g /\
  (local_height <= safe_height ->
   check_missing self local_height co safe_height g = (Done tt, g)).
Proof.
  intros Hco. split; [now apply check_missing_heights|].
  intros Hsafe. rewrite check_missing_heights, range_empty by assumption. reflexivity.
Qed.

Lemma check_missing_witness :
  check_missing chain 10 2 7 empty_graph
  = for_each [7; 8; 9] (fun height => submitted (check_task chain height)) empty_graph.
Proof.
  destruct (check_missing_visits_each_height chain 10 2 7 empty_graph) as [Heq _];
    [lia|exact Heq].
Defined.

(** X20.  What a check task raises never leaves [check_missing]: with a
    positive batch size it ends normally or by the exit of the process. *)
Theorem check_missing_never_raises
  (self : EthereumETL) (local_height co safe_height : Z) (g : Graph) (e : exn) :
  0 < co ->
  fst (check_missing self local_height co safe_height g) <> Raised e.
Proof.
  intros Hco. rewrite check_missing_heights by exact Hco.
  apply for_each_never_raises. intros a g0 e0. apply submitted_never_raises.
Qed.

Lemma check_missing_never_raises_witness :
  fst (check_missing chain 10 2 9 (block_missing 9 payment_tx)) <> Raised UnboundLocalError
  /\ fst (check_task chain 9 (block_missing 9 payment_tx)) = Raised UnboundLocalError.
Proof.
  split.
  - apply check_missing_never_raises. lia.
  - vm_compute. reflexivity.
Defined.

(** X21.  With a checker section that holds a key and a positive batch size,
    the checker of [work_flow] checks the heights of its window and never the
    local height itself; on a store whose height is 0 or less it checks
    nothing. *)
Theorem checker_stops_below_the_local_height
  (self : EthereumETL) (c : CheckerConfig) (g : Graph) :
  checker_txs c <> None \/ checker_blocks c <> None \/ checker_safe_height c <> None ->
  0 < default 1000 (checker_blocks c) ->
  let local_height := default (-1) (max_block_number g) in
  work_flow self {| checker := Some c; syncer := None |} g
  = (if 0 <? local_height
     then for_each (checker_window c local_height)
            (fun height => submitted (check_task self height)) g
     else (Done tt, g)) /\
  (forall height, List.In height (checker_window c local_height) -> height < local_height).
Proof.
  intros Hkeys Hco local_height. split.
  - assert (Htruthy : truthy_checker c = true).
    { unfold truthy_checker.
      destruct (checker_txs c), (checker_blocks c), (checker_safe_height c);
        try reflexivity.
      now destruct Hkeys as [H|[H|H]]. }
    unfold work_flow, get_local_block_height, mbind, Session_bind. cbn [checker syncer].
    fold local_height. rewrite Htruthy. cbn [andb].
    assert (Hread : match max_block_number g with
                    | Some top => (Done top, g)
                    | None => (Done (-1), g)
                    end = (Done local_height, g))
      by (unfold local_height; now destruct (max_block_number g)).
    rewrite Hread. destruct (0 <? local_height); [|reflexivity].
    unfold checker_window.
    rewrite (check_missing_heights self local_height (default 1000 (checker_blocks c))
               _ g Hco).
    now destruct (for_each _ _ g) as [[[]|e|] g1].
  - intros height Hin. unfold checker_window, range in Hin.
    apply List.in_map_iff in Hin as (i & <- & Hi). apply List.in_seq in Hi. lia.
Qed.

Lemma checker_window_witness :
  work_flow chain {| checker := Some narrow_checker; syncer := None |} two_blocks
  = for_each [0] (fun height => submitted (check_task chain height)) two_blocks.
Proof.
  destruct (checker_stops_below_the_local_height chain narrow_checker two_blocks)
    as [Hrun _].
  - right. left. discriminate.
  - simpl. lia.
  - exact Hrun.
Defined.


(** ** Address registration as steps on the store *)

Section RegistrationSteps.

Lemma registered_from_trans g g1 g2 :
  registered_from g g1 -> registered_from g1 g2 -> registered_from g g2.
Proof.
  intros H1 H2. induction H2.
  - exact H1.
  - now apply registered_EOA.
  - now apply registered_Contract.
  - now apply registered_as_EOA.
  - now apply registered_as_Contract.
Qed.

Lemma registers_ret {A} (a : A) : registers (mret a).
Proof. intros g. apply registered_none. Qed.

Lemma registers_throw {A} e : registers (throw e : Session A).
Proof. intros g. apply registered_none. Qed.

Lemma registers_os_exit {A} : registers (os_exit : Session A).
Proof. intros g. apply registered_none. Qed.

Lemma registers_bind {A B} (m : Session A) (f : A -> Session B) :
  registers m -> (forall a, registers (f a)) -> registers (m ≫= f).
Proof.
  intros Hm Hf g. unfold mbind, Session_bind, store_after.
  pose proof (Hm g) as H1. unfold store_after in H1.
  destruct (m g) as [[a|e|] g1]; simpl in *; try exact H1.
  apply (registered_from_trans _ g1); [exact H1|]. apply Hf.
Qed.

Lemma registers_or_exit {A} (m : Session A) : registers m -> registers (or_exit m).
Proof.
  intros Hm g. unfold or_exit, store_after. pose proof (Hm g) as H1.
  unfold store_after in H1. now destruct (m g) as [[a|e|] g1].
Qed.

Lemma registers_for_each {A} (l : list A) (body : A -> Session unit) :
  (forall a, registers (body a)) -> registers (for_each l body).
Proof.
  intros Hbody. induction l as [|a l IH]; simpl.
  - apply registers_ret.
  - apply registers_bind; [apply Hbody|]. intros _. exact IH.
Qed.

Lemma registers_item {A} (d : gmap string A) k : registers (item d k).
Proof. unfold item. destruct (d !! k); [apply registers_ret|apply registers_throw]. Qed.

Lemma registers_insert_Address_EOA addr : registers (insert_Address_EOA addr).
Proof.
  intros g. destruct (address_nodes (hex_str addr) g) as [|a1 r] eqn:Ha.
  - rewrite (insert_Address_EOA_fresh _ _ Ha).
    apply registered_EOA; [apply registered_none|exact Ha].
  - rewrite insert_Address_EOA_known by congruence.
    apply registered_as_EOA, registered_none.
Qed.

Lemma registers_insert_Address_Contract self addr :
  registers (insert_Address_Contract self addr).
Proof.
  intros g. destruct (address_nodes (hex_str addr) g) as [|a1 r] eqn:Ha.
  - rewrite (insert_Address_Contract_fresh _ _ _ Ha).
    destruct (getCode self (hex_str addr)); [|apply registered_none].
    apply registered_Contract; [apply registered_none|exact Ha].
  - rewrite insert_Address_Contract_known by congruence.
    destruct (contract_nodes (hex_str addr) g); [|apply registered_none].
    destruct (getCode self (hex_str addr)); [|apply registered_none].
    apply registered_as_Contract, registered_none.
Qed.

Lemma registers_insert_Address_Unknown addr : registers (insert_Address_Unknown addr).
Proof.
  intros g. rewrite insert_Address_Unknown_cases.
  apply registers_insert_Address_EOA.
Qed.

Lemma registers_ensure_block_Addresses self block :
  registers (ensure_block_Addresses self block).
Proof.
  unfold ensure_block_Addresses.
  apply registers_bind; [apply registers_insert_Address_EOA|intros _].
  apply registers_bind.
  { apply registers_for_each. intros u. apply registers_insert_Address_EOA. }
  intros _. apply registers_for_each. intros transaction.
  apply registers_bind.
  - destruct (truthy_str (tx_to transaction)).
    + apply registers_bind; [apply registers_insert_Address_EOA|intros _].
      apply registers_bind; [apply registers_item|intros receipt].
      destruct (0 <? List.length (logs receipt))%nat;
        [apply registers_insert_Address_Contract|apply registers_insert_Address_Unknown].
    + apply registers_bind; [apply registers_insert_Address_EOA|intros _].
      apply registers_bind; [apply registers_item|intros created].
      destruct created; [apply registers_insert_Address_Contract|apply registers_os_exit].
  - intros _. apply registers_bind; [apply registers_item|intros block_transfers].
    apply registers_for_each. intros transfer. apply registers_for_each. intros addr.
    apply registers_insert_Address_Unknown.
Qed.

End RegistrationSteps.

Section RegistrationInvariants.

Lemma filter_map_unmatched {A} (p q : A -> bool) (f : A -> A) (l : list A) :
  (forall x, q x = true -> p x = false /\ p (f x) = false) ->
  List.filter p (List.map (fun x => if q x then f x else x) l) = List.filter p l.
Proof.
  intros Hq. induction l as [|x l IH]; simpl; [reflexivity|].
  destruct (q x) eqn:Hx.
  - destruct (Hq x Hx) as [-> ->]. exact IH.
  - destruct (p x); now rewrite IH.
Qed.

Lemma matches_has_first_label l ls ps n :
  matches (l :: ls) ps n = true -> has_label l n = true.
Proof.
  rewrite matches_cons. intros H. now apply andb_true_iff in H as [H _].
Qed.

Lemma other_nodes_add_node g n :
  has_label "Address" n = true -> other_nodes (add_node g n) = other_nodes g.
Proof.
  intros Hn. unfold other_nodes, add_node. simpl. rewrite List.filter_app. simpl.
  rewrite Hn. simpl. apply List.app_nil_r.
Qed.

Lemma other_nodes_update a f g :
  keeps_address f ->
  other_nodes (update_matching ["Address"] (address_key a) f g) = other_nodes g.
Proof.
  intros Hf. unfold other_nodes, update_matching. simpl.
  apply filter_map_unmatched. intros n Hn.
  apply matches_has_first_label in Hn. destruct (Hf n) as [Hl _].
  now rewrite Hl, Hn.
Qed.

Lemma registered_from_edges g g' : registered_from g g' -> edges g' = edges g.
Proof. intros H. induction H; simpl; congruence. Qed.

Lemma registered_from_other_nodes g g' :
  registered_from g g' -> other_nodes g' = other_nodes g.
Proof.
  intros H. induction H; [reflexivity|..].
  - unfold fresh_EOA. now rewrite other_nodes_add_node.
  - unfold fresh_Contract. now rewrite other_nodes_add_node.
  - rewrite other_nodes_update; [exact IHregistered_from|].
    now apply keeps_address_add_label.
  - rewrite other_nodes_update; [exact IHregistered_from|].
    apply keeps_address_set_Contract.
Qed.

Lemma unique_after g g' :
  no_duplicates g g' -> addresses_unique g -> addresses_unique g'.
Proof.
  intros [Hn _] Hu a. specialize (Hn a). specialize (Hu a). lia.
Qed.

Lemma registered_from_unique g g' :
  registered_from g g' -> addresses_unique g -> addresses_unique g'.
Proof.
  intros H Hu. induction H; [exact Hu|..].
  - apply (unique_after g1); [|exact IHregistered_from].
    now apply (no_duplicates_add a).
  - apply (unique_after g1); [|exact IHregistered_from].
    now apply (no_duplicates_add a).
  - apply (unique_after g1); [|exact IHregistered_from].
    apply no_duplicates_update; [now apply keeps_address_add_label|].
    intros n. apply distinct_add_label.
  - apply (unique_after g1); [|exact IHregistered_from].
    apply no_duplicates_update; [apply keeps_address_set_Contract|].
    intros n. apply (distinct_add_label "Contract").
Qed.

Lemma registered_add_node b g n : registered b g -> registered b (add_node g n).
Proof.
  unfold registered. rewrite address_nodes_add_node.
  destruct (address_nodes b g); [tauto|discriminate].
Qed.

Lemma registered_update b a f g :
  keeps_address f ->
  registered b g -> registered b (update_matching ["Address"] (address_key a) f g).
Proof.
  intros Hf. unfold registered. rewrite address_nodes_update by exact Hf.
  destruct (address_nodes b g); [tauto|discriminate].
Qed.

Lemma registered_from_registered g g' b :
  registered_from g g' -> registered b g -> registered b g'.
Proof.
  intros H Hb. induction H; [exact Hb|..].
  - now apply registered_add_node.
  - now apply registered_add_node.
  - apply registered_update; [now apply keeps_address_add_label|assumption].
  - apply registered_update; [apply keeps_address_set_Contract|assumption].
Qed.

(** The nodes of another label, matched by a key that registration does not
    set. *)
Lemma matches_other_add_label l k v n :
  String.eqb l "EOA" = false ->
  matches [l] [(k, v)] (add_label "EOA" n) = matches [l] [(k, v)] n.
Proof.
  intros Hl. unfold matches, has_prop. cbn [forallb fst snd].
  now rewrite has_label_add_label_other, node_props_add_label.
Qed.

Lemma matches_other_set_Contract self bytecode l k v n :
  String.eqb l "Contract" = false ->
  String.eqb k "is_erc20" = false -> String.eqb k "is_erc721" = false ->
  matches [l] [(k, v)] (set_Contract self bytecode n) = matches [l] [(k, v)] n.
Proof.
  intros Hl H20 H721. unfold matches, has_prop, set_Contract. cbn [forallb fst snd].
  rewrite !has_label_set_node_prop, !node_props_set_node_prop.
  rewrite !get_prop_set_prop_other by assumption.
  now rewrite has_label_add_label_other, node_props_add_label.
Qed.

Lemma MATCH_length_update ls ps q f g :
  (forall n, matches ls ps (f n) = matches ls ps n) ->
  List.length (MATCH ls ps (update_matching ["Address"] q f g))
  = List.length (MATCH ls ps g).
Proof.
  intros Hf. unfold MATCH, update_matching. simpl.
  rewrite filter_map_same.
  - apply List.length_map.
  - intros n. destruct (matches ["Address"] q n); [apply Hf|reflexivity].
Qed.

Lemma registered_from_matches g g' l k v :
  existsb (String.eqb l) ["Address"; "EOA"; "Contract"] = false ->
  existsb (String.eqb k) ["is_erc20"; "is_erc721"] = false ->
  registered_from g g' ->
  List.length (MATCH [l] [(k, v)] g') = List.length (MATCH [l] [(k, v)] g).
Proof.
  simpl. intros Hl Hk H.
  apply orb_false_iff in Hl as [Ha Hl]. apply orb_false_iff in Hl as [He Hl].
  apply orb_false_iff in Hl as [Hc _].
  apply orb_false_iff in Hk as [H20 Hk]. apply orb_false_iff in Hk as [H721 _].
  induction H; [reflexivity|..].
  - unfold fresh_EOA. rewrite MATCH_add_node, List.length_app, IHregistered_from.
    unfold matches, has_label. cbn [forallb node_labels new_node existsb].
    rewrite Ha, He. simpl. lia.
  - unfold fresh_Contract. rewrite MATCH_add_node, List.length_app, IHregistered_from.
    unfold matches, has_label. cbn [forallb node_labels new_node existsb].
    rewrite Ha, Hc. simpl. lia.
  - rewrite MATCH_length_update; [exact IHregistered_from|].
    intros n. now apply matches_other_add_label.
  - rewrite MATCH_length_update; [exact IHregistered_from|].
    intros n. now apply matches_other_set_Contract.
Qed.

End RegistrationInvariants.

Section RegistrationDone.

Lemma Session_bind_done {A B} (m : Session A) (f : A -> Session B) g b g' :
  (m ≫= f) g = (Done b, g') ->
  exists a g1, m g = (Done a, g1) /\ f a g1 = (Done b, g').
Proof.
  unfold mbind, Session_bind. destruct (m g) as [[a|e|] g1]; try discriminate. eauto.
Qed.

Lemma registers_done {A} (m : Session A) g o g' :
  registers m -> m g = (o, g') -> registered_from g g'.
Proof. intros Hm H. specialize (Hm g). now rewrite H in Hm. Qed.

Lemma new_address_node_matches a ls ps g :
  matches ["Address"] (address_key a)
    (new_node g ("Address" :: ls) (("address", VStr a) :: ps)) = true.
Proof.
  unfold matches, has_prop, has_label. simpl. now rewrite String.eqb_refl.
Qed.

Lemma registered_fresh_EOA a g : registered a (fresh_EOA a g).
Proof.
  unfold registered, fresh_EOA. rewrite address_nodes_add_node.
  rewrite (new_address_node_matches a ["EOA"] [] g : matches _ _ (new_node g _ (address_key a)) = true).
  now destruct (address_nodes a g).
Qed.

Lemma registered_fresh_Contract self a bytecode g :
  registered a (fresh_Contract self a bytecode g).
Proof.
  unfold registered, fresh_Contract. rewrite address_nodes_add_node.
  rewrite new_address_node_matches. now destruct (address_nodes a g).
Qed.

Lemma insert_Address_EOA_done addr g :
  fst (insert_Address_EOA addr g) = Done tt /\
  registered (hex_str addr) (store_after (insert_Address_EOA addr g)).
Proof.
  destruct (address_nodes (hex_str addr) g) as [|a1 r] eqn:Ha.
  - rewrite (insert_Address_EOA_fresh _ _ Ha). split; [reflexivity|].
    apply registered_fresh_EOA.
  - rewrite insert_Address_EOA_known by congruence. split; [reflexivity|].
    apply registered_update; [now apply keeps_address_add_label|].
    unfold registered. congruence.
Qed.

Lemma insert_Address_Unknown_done addr g :
  fst (insert_Address_Unknown addr g) = Done tt /\
  registered (hex_str addr) (store_after (insert_Address_Unknown addr g)).
Proof.
  rewrite insert_Address_Unknown_cases. apply insert_Address_EOA_done.
Qed.

Lemma insert_Address_Contract_done self addr g g' :
  insert_Address_Contract self addr g = (Done tt, g') ->
  registered (hex_str addr) g'.
Proof.
  destruct (address_nodes (hex_str addr) g) as [|a1 r] eqn:Ha.
  - rewrite (insert_Address_Contract_fresh _ _ _ Ha).
    destruct (getCode self (hex_str addr)); [|discriminate].
    intros H. inversion H. apply registered_fresh_Contract.
  - assert (Hr : registered (hex_str addr) g) by (unfold registered; congruence).
    rewrite insert_Address_Contract_known by congruence.
    destruct (contract_nodes (hex_str addr) g).
    + destruct (getCode self (hex_str addr)); [|discriminate].
      intros H. inversion H.
      apply registered_update; [apply keeps_address_set_Contract|exact Hr].
    + intros H. inversion H. now subst.
Qed.

Lemma for_each_done {A} (l : list A) (body : A -> Session unit)
  (Q : A -> Graph -> Prop) g g' :
  (forall a, registers (body a)) ->
  (forall a g0 g1, registered_from g0 g1 -> Q a g0 -> Q a g1) ->
  (forall a g0 g1, body a g0 = (Done tt, g1) -> Q a g1) ->
  for_each l body g = (Done tt, g') ->
  forall a, List.In a l -> Q a g'.
Proof.
  intros Hreg Hmono Hbody. revert g.
  induction l as [|x l IH]; intros g H a Hin; [destruct Hin|].
  simpl in H. apply Session_bind_done in H as ([] & g1 & Hx & Hrest).
  destruct Hin as [->|Hin].
  - apply (Hmono a g1 g').
    + apply (registers_done (for_each l body) g1 (Done tt));
        [now apply registers_for_each|exact Hrest].
    + now apply (Hbody a g).
  - now apply (IH g1).
Qed.

Lemma item_done {A} (d : gmap string A) k g v g' :
  item d k g = (Done v, g') -> d !! k = Some v /\ g' = g.
Proof.
  unfold item. destruct (d !! k); [|discriminate].
  intros H. inversion H. now split.
Qed.

Lemma transaction_registered_mono block transaction g0 g1 :
  registered_from g0 g1 ->
  transaction_registered block transaction g0 ->
  transaction_registered block transaction g1.
Proof.
  intros Hreg (Hfrom & Hto & ts & Hts & Htransfers).
  split; [now apply (registered_from_registered g0)|]. split.
  - destruct (truthy_str (tx_to transaction)).
    + now apply (registered_from_registered g0).
    + destruct Hto as (c & Hc & Hreg_c). exists c. split; [exact Hc|].
      now apply (registered_from_registered g0).
  - exists ts. split; [exact Hts|]. intros transfer Hin.
    destruct (Htransfers transfer Hin) as [Hf Ht].
    split; now apply (registered_from_registered g0).
Qed.

End RegistrationDone.

Section EnsureDone.

Variable self : EthereumETL.

Lemma ensure_block_Addresses_done block g g' :
  ensure_block_Addresses self block g = (Done tt, g') ->
  registered (miner (raw block)) g' /\
  (forall uncle_block,
      List.In uncle_block (uncle_blocks block) -> registered (uncle_miner uncle_block) g') /\
  (forall transaction,
      List.In transaction (transactions (raw block)) ->
      transaction_registered block transaction g').
Proof.
  unfold ensure_block_Addresses. intros H.
  apply Session_bind_done in H as ([] & g1 & Hminer & H).
  apply Session_bind_done in H as ([] & g2 & Huncles & Htxs).
  assert (Hreg12 : registered_from g1 g2).
  { eapply registers_done; [|exact Huncles].
    apply registers_for_each. intros u. apply registers_insert_Address_EOA. }
  match type of Htxs with for_each _ ?body _ = _ =>
    assert (Hbody_reg : forall transaction, registers (body transaction)) end.
  { intros transaction. apply registers_bind.
    - destruct (truthy_str (tx_to transaction)).
      + apply registers_bind; [apply registers_insert_Address_EOA|intros _].
        apply registers_bind; [apply registers_item|intros receipt].
        destruct (0 <? List.length (logs receipt))%nat;
          [apply registers_insert_Address_Contract|apply registers_insert_Address_Unknown].
      + apply registers_bind; [apply registers_insert_Address_EOA|intros _].
        apply registers_bind; [apply registers_item|intros created].
        destruct created; [apply registers_insert_Address_Contract|apply registers_os_exit].
    - intros _. apply registers_bind; [apply registers_item|intros block_transfers].
      apply registers_for_each. intros transfer. apply registers_for_each. intros addr.
      apply registers_insert_Address_Unknown. }
  assert (Hreg2 : registered_from g2 g').
  { eapply registers_done; [|exact Htxs]. now apply registers_for_each. }
  split; [|split].
  - apply (registered_from_registered g2); [exact Hreg2|].
    apply (registered_from_registered g1); [exact Hreg12|].
    destruct (insert_Address_EOA_done (PStr (miner (raw block))) g) as [_ Hr].
    now rewrite Hminer in Hr.
  - intros u Hu. apply (registered_from_registered g2); [exact Hreg2|].
    revert u Hu.
    refine (for_each_done _ _ (fun u g0 => registered (uncle_miner u) g0) g1 g2 _ _ _ Huncles).
    + intros u. apply registers_insert_Address_EOA.
    + intros u g0 g3 Hreg. now apply registered_from_registered.
    + intros u g0 g3 Hu.
      destruct (insert_Address_EOA_done (PStr (uncle_miner u)) g0) as [_ Hr].
      now rewrite Hu in Hr.
  - refine (for_each_done _ _ (transaction_registered block) g2 g' Hbody_reg _ _ Htxs).
    + intros transaction g0 g3. apply transaction_registered_mono.
    + intros transaction g0 g3 Hrun.
      apply Session_bind_done in Hrun as ([] & g4 & Hparties & Hrun).
      apply Session_bind_done in Hrun as (block_transfers & g5 & Hitem & Hloop).
      apply item_done in Hitem as [Hts ->].
      assert (Hreg43 : registered_from g4 g3).
      { eapply registers_done; [|exact Hloop].
        apply registers_for_each. intros transfer. apply registers_for_each.
        intros addr. apply registers_insert_Address_Unknown. }
      assert (Hfrom_to :
                registered (tx_from transaction) g4 /\
                (if truthy_str (tx_to transaction)
                 then registered (default "" (tx_to transaction)) g4
                 else exists c,
                     created_contracts block !! get_hash transaction = Some (Some c) /\
                     registered c g4)).
      { destruct (truthy_str (tx_to transaction)).
        - apply Session_bind_done in Hparties as ([] & g6 & Hfrom & Hparties).
          destruct (insert_Address_EOA_done (PStr (tx_from transaction)) g0) as [_ Hr].
          rewrite Hfrom in Hr. simpl in Hr.
          apply Session_bind_done in Hparties as (receipt & g7 & Hitem & Hto).
          apply item_done in Hitem as [_ ->].
          destruct (0 <? List.length (logs receipt))%nat.
          + split.
            * apply (registered_from_registered g6); [|exact Hr].
              apply (registers_done _ _ _ _ (registers_insert_Address_Contract self _) Hto).
            * now apply insert_Address_Contract_done in Hto.
          + split.
            * apply (registered_from_registered g6); [|exact Hr].
              apply (registers_done _ _ _ _ (registers_insert_Address_Unknown _) Hto).
            * destruct (insert_Address_Unknown_done
                          (PStr (default "" (tx_to transaction))) g6) as [_ Hu].
              now rewrite Hto in Hu.
        - apply Session_bind_done in Hparties as ([] & g6 & Hfrom & Hparties).
          destruct (insert_Address_EOA_done (PStr (tx_from transaction)) g0) as [_ Hr].
          rewrite Hfrom in Hr. simpl in Hr.
          apply Session_bind_done in Hparties as (created & g7 & Hitem & Hto).
          apply item_done in Hitem as [Hcreated ->].
          destruct created as [c|]; [|discriminate]. split.
          + apply (registered_from_registered g6); [|exact Hr].
            apply (registers_done _ _ _ _ (registers_insert_Address_Contract self _) Hto).
          + exists c. split; [exact Hcreated|].
            now apply insert_Address_Contract_done in Hto. }
      destruct Hfrom_to as [Hfrom Hto].
      split; [now apply (registered_from_registered g4)|]. split.
      * destruct (truthy_str (tx_to transaction)).
        -- now apply (registered_from_registered g4).
        -- destruct Hto as (c & Hc & Hr). exists c. split; [exact Hc|].
           now apply (registered_from_registered g4).
      * exists block_transfers. split; [exact Hts|].
        refine (for_each_done _ _
                  (fun transfer g0 =>
                     registered (from_address transfer) g0 /\
                     registered (to_address transfer) g0) g4 g3 _ _ _ Hloop).
        -- intros transfer. apply registers_for_each. intros addr.
           apply registers_insert_Address_Unknown.
        -- intros transfer g8 g9 Hreg [Hf Ht].
           split; now apply (registered_from_registered g8).
        -- intros transfer g8 g9 Hrun. simpl in Hrun.
           apply Session_bind_done in Hrun as ([] & g10 & Hf & Hrun).
           apply Session_bind_done in Hrun as ([] & g11 & Ht & Hret).
           inversion Hret. subst g11.
           destruct (insert_Address_Unknown_done (PStr (from_address transfer)) g8)
             as [_ Hrf]. rewrite Hf in Hrf. simpl in Hrf.
           destruct (insert_Address_Unknown_done (PStr (to_address transfer)) g10)
             as [_ Hrt]. rewrite Ht in Hrt. simpl in Hrt.
           split; [|exact Hrt].
           apply (registered_from_registered g10); [|exact Hrf].
           apply (registers_done _ _ _ _ (registers_insert_Address_Unknown _) Ht).
Qed.

End EnsureDone.

(** ** When the header is written *)

Section HeaderWritten.

Variable self : EthereumETL.

Lemma match2_ok ls1 ps1 ls2 ps2 g :
  match2 ls1 ps1 ls2 ps2 g = Ok (list_prod (MATCH ls1 ps1 g) (MATCH ls2 ps2 g), g).
Proof. reflexivity. Qed.

(** A statement [MATCH (b:Block {number}), (addr:Address {address}) CREATE
    (b)-[:ty {ps}]->(addr) RETURN count(p)] with its assertion: it returns
    when one Block node and one Address node match, and then has added the
    one edge. *)
Lemma reward_edge_ok ty ps n a g b addr :
  MATCH ["Block"] (block_key n) g = [b] ->
  address_nodes a g = [addr] ->
  (rows ← match2 ["Block"] (block_key n) ["Address"] (address_key a);
   results ← create_per_row rows (fun '(b', addr') => create_edge b' ty ps addr');
   assert_one results) g
  = Ok (tt, add_edge g (new_edge b ty ps addr)).
Proof.
  intros Hb Ha. unfold address_nodes in Ha.
  unfold mbind, Tx_bind. rewrite match2_ok, Hb, Ha. reflexivity.
Qed.

Lemma reward_edge_inv ty ps n a g g' :
  (rows ← match2 ["Block"] (block_key n) ["Address"] (address_key a);
   results ← create_per_row rows (fun '(b', addr') => create_edge b' ty ps addr');
   assert_one results) g
  = Ok (tt, g') ->
  exists b addr,
    MATCH ["Block"] (block_key n) g = [b] /\ address_nodes a g = [addr] /\
    g' = add_edge g (new_edge b ty ps addr).
Proof.
  intros H. apply Tx_bind_ok in H as (rows & g1 & Hrows & H).
  rewrite match2_ok in Hrows. inversion Hrows. subst rows g1. clear Hrows.
  apply Tx_bind_ok in H as (results & g1 & Hcount & Hassert).
  destruct (counted_once _ _ _ _ _ _ _ Hcount Hassert) as ([b addr] & Hone & Hedge & ->).
  apply list_prod_one in Hone as [Hb Ha].
  exists b, addr. split; [exact Hb|]. split; [exact Ha|].
  unfold create_edge in Hedge. now inversion Hedge.
Qed.

Lemma MATCH_add_edge ls ps g e : MATCH ls ps (add_edge g e) = MATCH ls ps g.
Proof. reflexivity. Qed.

(** The loop over the uncles. *)
Lemma uncle_rewards_ok (value : UncleBlock -> Props) n (uncles : list UncleBlock) g b :
  MATCH ["Block"] (block_key n) g = [b] ->
  (forall u, List.In u uncles -> registered_once (uncle_miner u) g) ->
  exists g',
    for_tx uncles
      (fun uncle_block =>
         rows ← match2 ["Block"] (block_key n)
                  ["Address"] (address_key (uncle_miner uncle_block));
         results ← create_per_row rows
                     (fun '(b', addr) =>
                        create_edge b' "UNCLE_REWARD" (value uncle_block) addr);
         assert_one results) g
    = Ok (tt, g') /\ nodes g' = nodes g.
Proof.
  revert g. induction uncles as [|u uncles IH]; intros g Hb Hu.
  - exists g. split; reflexivity.
  - assert (Hone : registered_once (uncle_miner u) g) by (apply Hu; now left).
    unfold registered_once in Hone.
    destruct (address_nodes (uncle_miner u) g) as [|addr [|addr' r]] eqn:Ha;
      try discriminate.
    destruct (IH (add_edge g (new_edge b "UNCLE_REWARD" (value u) addr)))
      as (g' & Hrest & Hnodes).
    + exact Hb.
    + intros u' Hu'. apply Hu. now right.
    + exists g'. split; [|exact Hnodes].
      cbn [for_tx]. unfold mbind at 1, Tx_bind at 1.
      rewrite (reward_edge_ok "UNCLE_REWARD" (value u) n (uncle_miner u) g b addr Hb Ha).
      exact Hrest.
Qed.

Lemma uncle_rewards_inv (value : UncleBlock -> Props) n (uncles : list UncleBlock) g g' :
  for_tx uncles
    (fun uncle_block =>
       rows ← match2 ["Block"] (block_key n)
                ["Address"] (address_key (uncle_miner uncle_block));
       results ← create_per_row rows
                   (fun '(b', addr) =>
                      create_edge b' "UNCLE_REWARD" (value uncle_block) addr);
       assert_one results) g
  = Ok (tt, g') ->
  forall u, List.In u uncles -> registered_once (uncle_miner u) g.
Proof.
  revert g. induction uncles as [|u uncles IH]; intros g H u' Hin; [destruct Hin|].
  cbn [for_tx] in H. apply Tx_bind_ok in H as ([] & g1 & Hu & Hrest).
  apply reward_edge_inv in Hu as (b & addr & Hb & Ha & ->).
  destruct Hin as [<-|Hin].
  - unfold registered_once. now rewrite Ha.
  - apply (IH _ Hrest u' Hin).
Qed.

Lemma header_fits b g :
  block_is_new b g -> violates g (new_node g ["Block"] (header_props b)) = false.
Proof.
  intros [Hn Hh]. apply existsb_filter_nil in Hn, Hh.
  unfold violates, schema, breaks. simpl.
  unfold block_key in Hn. now rewrite Hn, Hh.
Qed.

End HeaderWritten.

Section HeaderIff.

Variable self : EthereumETL.

Lemma Tx_bind_step {A B} (m : Tx A) (f : A -> Tx B) g a g1 :
  m g = Ok (a, g1) -> (m ≫= f) g = f a g1.
Proof. intros H. unfold mbind, Tx_bind. now rewrite H. Qed.

Lemma reward_edge_then {B} (rest : unit -> Tx B) ty ps n a g b addr :
  MATCH ["Block"] (block_key n) g = [b] ->
  address_nodes a g = [addr] ->
  (rows ← match2 ["Block"] (block_key n) ["Address"] (address_key a);
   results ← create_per_row rows (fun '(b', addr') => create_edge b' ty ps addr');
   assert_one results ≫= rest) g
  = rest tt (add_edge g (new_edge b ty ps addr)).
Proof.
  intros Hb Ha. unfold address_nodes in Ha.
  unfold mbind, Tx_bind. rewrite match2_ok, Hb, Ha. reflexivity.
Qed.

Lemma reward_edge_then_inv {B} (rest : unit -> Tx B) ty ps n a g r g' :
  (rows ← match2 ["Block"] (block_key n) ["Address"] (address_key a);
   results ← create_per_row rows (fun '(b', addr') => create_edge b' ty ps addr');
   assert_one results ≫= rest) g
  = Ok (r, g') ->
  exists b addr,
    MATCH ["Block"] (block_key n) g = [b] /\ address_nodes a g = [addr] /\
    rest tt (add_edge g (new_edge b ty ps addr)) = Ok (r, g').
Proof.
  intros H. apply Tx_bind_ok in H as (rows & g1 & Hrows & H).
  rewrite match2_ok in Hrows. inversion Hrows. subst rows g1. clear Hrows.
  apply Tx_bind_ok in H as (results & g1 & Hcount & H).
  apply Tx_bind_ok in H as ([] & g2 & Hassert & Hrest).
  destruct (counted_once _ _ _ _ _ _ _ Hcount Hassert) as ([b addr] & Hone & Hedge & ->).
  apply list_prod_one in Hone as [Hb Ha].
  exists b, addr. split; [exact Hb|]. split; [exact Ha|].
  unfold create_edge in Hedge. inversion Hedge. now subst.
Qed.

Lemma address_nodes_add_header a g b :
  address_nodes a (add_node g (new_node g ["Block"] (header_props b))) = address_nodes a g.
Proof.
  rewrite address_nodes_add_node.
  change (matches ["Address"] (address_key a) (new_node g ["Block"] (header_props b)))
    with false.
  apply List.app_nil_r.
Qed.

Lemma header_block_after_add b g :
  block_is_new b g ->
  MATCH ["Block"] (block_key (number b)) (add_node g (new_node g ["Block"] (header_props b)))
  = [new_node g ["Block"] (header_props b)].
Proof.
  intros [Hn _]. apply only_node_after_add; [exact Hn|].
  apply matches_key; [reflexivity|reflexivity|apply Z.eqb_refl].
Qed.

Lemma parse_block_header_returns block g :
  header_can_be_written block g ->
  exists g',
    parse_block_header self block g = Ok (tt, g') /\
    nodes g' = (nodes g ++ [new_node g ["Block"] (header_props (raw block))])%list.
Proof.
  intros (Hnew & Hminer & Huncles).
  set (b := new_node g ["Block"] (header_props (raw block))).
  unfold registered_once in Hminer.
  destruct (address_nodes (miner (raw block)) g) as [|addr [|addr' r]] eqn:Ha;
    try discriminate.
  destruct (uncle_rewards_ok
              (fun uncle_block =>
                 [("value",
                   VStr (str (get_uncle_reward self (number (raw block))
                                (hex_to_int self (uncle_number uncle_block)))))])
              (number (raw block)) (uncle_blocks block)
              (add_edge (add_node g b)
                 (new_edge b "BLOCK_REWARD" [("value", VStr (str (reward block)))] addr))
              b) as (g' & Hloop & Hnodes).
  { rewrite MATCH_add_edge. now apply header_block_after_add. }
  { intros u Hu. unfold registered_once.
    change (address_nodes (uncle_miner u) (add_edge (add_node g b) _))
      with (address_nodes (uncle_miner u) (add_node g b)).
    unfold b. rewrite address_nodes_add_header. now apply Huncles. }
  exists g'. split; [|exact Hnodes].
  unfold parse_block_header. cbv zeta. fold (header_props (raw block)).
  erewrite Tx_bind_step;
    [|unfold mbind, Tx_bind, create_node; fold b; rewrite (header_fits _ _ Hnew : violates g b = false);
      reflexivity].
  erewrite Tx_bind_step; [|reflexivity].
  rewrite (reward_edge_then _ "BLOCK_REWARD" _ (number (raw block)) (miner (raw block))
             (add_node g b) b addr).
  - exact Hloop.
  - now apply header_block_after_add.
  - unfold b. now rewrite address_nodes_add_header.
Qed.

Lemma parse_block_header_needs block g g' :
  parse_block_header self block g = Ok (tt, g') -> header_can_be_written block g.
Proof.
  intros H. pose proof (parse_block_header_ok self _ _ _ H) as [Hfits _].
  set (b := new_node g ["Block"] (header_props (raw block))) in *.
  assert (Hnew : block_is_new (raw block) g).
  { split; apply (fits_unique g b); try exact Hfits; try reflexivity;
      unfold schema; simpl; tauto. }
  split; [exact Hnew|].
  unfold parse_block_header in H. cbv zeta in H. fold (header_props (raw block)) in H.
  apply Tx_bind_ok in H as (results & g1 & Hcreate & H).
  apply Tx_bind_ok in Hcreate as (n & g0 & Hnode & Hret).
  apply Tx_ret_ok in Hret as [-> ->].
  apply create_node_ok in Hnode as (_ & -> & ->). fold b in H.
  apply Tx_bind_ok in H as ([] & g2 & Hassert & H).
  apply assert_one_ok in Hassert as [-> _].
  apply reward_edge_then_inv in H as (b' & addr & Hb & Ha & Hloop).
  unfold b in Ha. rewrite address_nodes_add_header in Ha. split.
  - unfold registered_once. now rewrite Ha.
  - intros u Hu. pose proof (uncle_rewards_inv _ _ _ _ _ Hloop u Hu) as Hone.
    unfold registered_once in *.
    change (address_nodes (uncle_miner u) (add_edge (add_node g b) _))
      with (address_nodes (uncle_miner u) (add_node g b)) in Hone.
    unfold b in Hone. now rewrite address_nodes_add_header in Hone.
Qed.

End HeaderIff.

(** X22.  [parse_block_header] returns exactly when no Block node holds the
    number or the hash of the block and the miner and every uncle's miner
    have one Address node each.  Where a Block node holds the number or the
    hash, it raises [ConstraintError] and its transaction leaves the store as
    it was: no header is written twice. *)
Theorem header_is_written_exactly_when
  (self : EthereumETL) (block : EnrichedBlock) (g : Graph) :
  ((exists g', parse_block_header self block g = Ok (tt, g'))
   <-> header_can_be_written block g) /\
  (MATCH ["Block"] (block_key (number (raw block))) g <> [] \/
   MATCH ["Block"] [("hash", VStr (hex_str (hash (raw block))))] g <> [] ->
   write_transaction (parse_block_header self block) g = (Raised ConstraintError, g)).
Proof.
  split; [split|].
  - intros [g' H]. now apply (parse_block_header_needs self block g g').
  - intros H. destruct (parse_block_header_returns self block g H) as (g' & Hg' & _).
    now exists g'.
  - intros Hm. unfold write_transaction. now rewrite parse_block_header_refused.
Qed.

Lemma header_twice_witness :
  write_transaction (parse_block_header chain (enriched 10)) (header_written 10)
  = (Raised ConstraintError, header_written 10).
Proof.
  destruct (header_is_written_exactly_when chain (enriched 10) (header_written 10))
    as [_ Htwice].
  apply Htwice. left. vm_compute. discriminate.
Defined.

(** ** Registration, then the header: [sync_task] and [check_task] *)

Section Composition.

Variable self : EthereumETL.

Lemma enhance_transactions_raw txs acc :
  raw (fold_left (enhance_transaction self) txs acc) = raw acc.
Proof.
  revert acc. induction txs as [|t txs IH]; intros acc; simpl; [reflexivity|].
  now rewrite IH.
Qed.

Lemma enhance_block_raw block : raw (enhance_block self block) = block.
Proof. unfold enhance_block. now rewrite enhance_transactions_raw. Qed.

Lemma length_zero_nil {A} (l : list A) : List.length l = 0%nat -> l = [].
Proof. now destruct l. Qed.

Lemma block_is_new_kept g g1 b :
  registered_from g g1 -> block_is_new b g -> block_is_new b g1.
Proof.
  intros Hreg [Hn Hh]. split; apply length_zero_nil.
  - unfold block_key. rewrite (registered_from_matches g g1) by (reflexivity || exact Hreg).
    unfold block_key in Hn. now rewrite Hn.
  - rewrite (registered_from_matches g g1) by (reflexivity || exact Hreg).
    now rewrite Hh.
Qed.

Lemma registered_once_intro a g :
  addresses_unique g -> registered a g -> registered_once a g.
Proof.
  intros Hu Hr. specialize (Hu a). unfold registered in Hr. unfold registered_once.
  destruct (address_nodes a g); [now destruct Hr|simpl in *; lia].
Qed.

Lemma header_can_be_written_after block g g1 :
  addresses_unique g -> block_is_new (raw block) g ->
  ensure_block_Addresses self block g = (Done tt, g1) ->
  header_can_be_written block g1.
Proof.
  intros Hu Hnew Hrun.
  assert (Hreg : registered_from g g1).
  { eapply registers_done; [apply registers_ensure_block_Addresses|exact Hrun]. }
  pose proof (registered_from_unique _ _ Hreg Hu) as Hu1.
  destruct (ensure_block_Addresses_done self _ _ _ Hrun) as (Hminer & Huncles & _).
  split; [now apply (block_is_new_kept g)|]. split.
  - now apply registered_once_intro.
  - intros u Hin. apply registered_once_intro; [exact Hu1|now apply Huncles].
Qed.

Lemma no_Block_label_in labels :
  Forall (fun ls => existsb (String.eqb "Block") ls = false) labels ->
  forall ns, List.map node_labels ns = labels ->
  forall ps, List.filter (matches ["Block"] ps) ns = [].
Proof.
  intros Hl ns <- ps. induction ns as [|n ns IH]; [reflexivity|].
  inversion Hl as [|? ? Hn Hrest]. subst. simpl.
  unfold matches at 1, has_label. cbn [forallb]. rewrite Hn. simpl. now apply IH.
Qed.

Lemma no_Block_label_in_transfers {A} (ts : list A) :
  Forall (fun ls => existsb (String.eqb "Block") ls = false)
    (flat_map (fun _ => [["TokenTransfer"]]) ts).
Proof.
  induction ts as [|t ts IH]; [constructor|].
  cbn [flat_map app]. constructor; [reflexivity|exact IH].
Qed.

Lemma parse_block_tx_keeps_blocks block transaction g g' ps :
  parse_block_tx block transaction g = Ok (tt, g') ->
  MATCH ["Block"] ps g' = MATCH ["Block"] ps g.
Proof.
  intros H. apply parse_block_tx_writes in H as (ns & es & Hnodes & Hlabels & _).
  unfold MATCH. rewrite Hnodes, List.filter_app.
  erewrite (fun H => no_Block_label_in _ H ns Hlabels); [apply List.app_nil_r|].
  constructor; [reflexivity|]. apply Forall_app. split.
  - destruct (tx_to transaction); repeat constructor.
  - apply no_Block_label_in_transfers.
Qed.

Lemma submitted_transactions_done block txs g :
  exists g',
    for_each txs (fun transaction => submitted (threadsafe_parse_block_tx block transaction)) g
    = (Done tt, g') /\
    forall ps, MATCH ["Block"] ps g' = MATCH ["Block"] ps g.
Proof.
  revert g. induction txs as [|t txs IH]; intros g.
  - exists g. split; reflexivity.
  - cbn [for_each]. unfold mbind, Session_bind, submitted, threadsafe_parse_block_tx,
      write_transaction.
    destruct (parse_block_tx block t g) as [[[] g1]|e] eqn:Ht.
    + destruct (IH g1) as (g' & Hrun & Hblocks). exists g'. split; [exact Hrun|].
      intros ps. rewrite Hblocks. now apply (parse_block_tx_keeps_blocks block t).
    + destruct (IH g) as (g' & Hrun & Hblocks). exists g'. now split.
Qed.

Lemma sync_task_after_registration n g g1 :
  addresses_unique g -> block_is_new (get_block self n) g ->
  ensure_block_Addresses self (enhance_block self (get_block self n)) g = (Done tt, g1) ->
  exists g',
    sync_task self n g = (Done tt, g') /\
    get_local_Block (number (get_block self n)) g'
    = Ok (Some (header_props (get_block self n)), g').
Proof.
  intros Hu Hnew Hrun. set (block := enhance_block self (get_block self n)) in *.
  assert (Hraw : raw block = get_block self n) by apply enhance_block_raw.
  assert (Hcan : header_can_be_written block g1).
  { apply (header_can_be_written_after block g); [exact Hu|now rewrite Hraw|exact Hrun]. }
  destruct (parse_block_header_returns self block g1 Hcan) as (g2 & Hheader & Hnodes).
  destruct (submitted_transactions_done block (transactions (raw block)) g2)
    as (g' & Htxs & Hblocks).
  exists g'. split.
  - unfold sync_task. fold block. unfold mbind, Session_bind. rewrite Hrun.
    unfold write_transaction. rewrite Hheader. exact Htxs.
  - rewrite get_local_Block_cases, Hblocks.
    destruct Hcan as [Hnew1 _]. rewrite Hraw in *.
    assert (Hg2 : nodes g2 = nodes (add_node g1 (new_node g1 ["Block"]
                                                  (header_props (get_block self n)))))
      by exact Hnodes.
    rewrite (MATCH_same_nodes _ _ _ _ Hg2).
    now rewrite (header_block_after_add _ _ Hnew1).
Qed.

Lemma always_done_bind (m k : Session unit) :
  always_done m -> always_done k -> always_done (m ≫= fun _ => k).
Proof.
  intros Hm Hk g. unfold mbind, Session_bind. specialize (Hm g).
  destruct (m g) as [[[]|e|] g1]; try discriminate. apply Hk.
Qed.

Lemma always_done_for_each {A} (l : list A) (body : A -> Session unit) :
  (forall a, List.In a l -> always_done (body a)) -> always_done (for_each l body).
Proof.
  induction l as [|a l IH]; intros Hbody; [intros g; reflexivity|].
  cbn [for_each]. apply always_done_bind.
  - apply Hbody. now left.
  - apply IH. intros b Hb. apply Hbody. now right.
Qed.

Lemma always_done_item {A} (d : gmap string A) k v (f : A -> Session unit) :
  d !! k = Some v -> always_done (f v) -> always_done (item d k ≫= f).
Proof.
  intros Hd Hf g. unfold item, mbind, Session_bind. rewrite Hd. apply Hf.
Qed.

Lemma always_done_EOA addr : always_done (insert_Address_EOA addr).
Proof. intros g. apply insert_Address_EOA_done. Qed.

Lemma always_done_Unknown addr : always_done (insert_Address_Unknown addr).
Proof. intros g. apply insert_Address_Unknown_done. Qed.

Lemma always_done_Contract addr :
  getCode self (hex_str addr) <> None -> always_done (insert_Address_Contract self addr).
Proof.
  intros Hcode g.
  destruct (address_nodes (hex_str addr) g) as [|a1 r] eqn:Ha.
  - rewrite (insert_Address_Contract_fresh _ _ _ Ha).
    now destruct (getCode self (hex_str addr)).
  - rewrite insert_Address_Contract_known by congruence.
    destruct (contract_nodes (hex_str addr) g); [|reflexivity].
    now destruct (getCode self (hex_str addr)).
Qed.

Lemma ensure_enriched_done block :
  node_answers self block ->
  always_done (ensure_block_Addresses self (enhance_block self block)).
Proof.
  intros Hnode. unfold ensure_block_Addresses.
  apply always_done_bind; [apply always_done_EOA|].
  apply always_done_bind.
  { apply always_done_for_each. intros u _. apply always_done_EOA. }
  rewrite enhance_block_raw.
  apply always_done_for_each. intros transaction Hin.
  apply always_done_bind.
  - destruct (truthy_str (tx_to transaction)) eqn:Hto.
    + apply always_done_bind; [apply always_done_EOA|].
      eapply always_done_item.
      * unfold enhance_block. rewrite enhance_transactions_receipts.
        now rewrite existsb_has_hash.
      * cbv beta. specialize (Hnode transaction Hin). cbv zeta in Hnode.
        rewrite Hto in Hnode.
        destruct (logs (get_transaction_receipt self (get_hash transaction)));
          [apply always_done_Unknown|].
        apply always_done_Contract, Hnode. discriminate.
    + apply always_done_bind; [apply always_done_EOA|].
      eapply always_done_item.
      * unfold enhance_block. rewrite enhance_transactions_created.
        assert (He : existsb (creates (get_hash transaction)) (transactions block) = true).
        { apply existsb_exists. exists transaction. split; [exact Hin|].
          unfold creates, has_hash. now rewrite Hto, String.eqb_refl. }
        now rewrite He.
      * cbv beta. specialize (Hnode transaction Hin). cbv zeta in Hnode.
        rewrite Hto in Hnode. destruct Hnode as (c & Hc & Hcode).
        unfold get_new_contract_address. rewrite Hc.
        now apply always_done_Contract.
  - eapply always_done_item.
    + unfold enhance_block. rewrite enhance_transactions_transfers.
      now rewrite existsb_has_hash.
    + cbv beta. apply always_done_for_each. intros transfer _.
      apply always_done_for_each. intros addr _. apply always_done_Unknown.
Qed.

End Composition.

(** X23.  On an enriched block [ensure_block_Addresses] ends normally whenever
    the chain node answers: no lookup in the block's dictionaries fails, and
    the process does not exit.  It then leaves an Address node for the miner,
    for the miner of every uncle, and for the sender, the recipient or
    created contract and the transfer parties of every transaction. *)
Theorem enriched_block_addresses_are_registered
  (self : EthereumETL) (block : Block) (g : Graph) :
  node_answers self block ->
  let b := enhance_block self block in
  let run := ensure_block_Addresses self b g in
  fst run = Done tt /\
  registered (miner block) (store_after run) /\
  (forall uncle_block,
      List.In uncle_block (uncle_blocks b) ->
      registered (uncle_miner uncle_block) (store_after run)) /\
  (forall transaction,
      List.In transaction (transactions block) ->
      transaction_registered b transaction (store_after run)).
Proof.
  intros Hnode b run. unfold run.
  pose proof (ensure_enriched_done self block Hnode g) as Hdone. fold b in Hdone.
  destruct (ensure_block_Addresses self b g) as [o g'] eqn:Hrun.
  simpl in Hdone. subst o. split; [reflexivity|].
  destruct (ensure_block_Addresses_done self b g g' Hrun) as (Hminer & Huncles & Htxs).
  unfold b in Hminer, Htxs. rewrite enhance_block_raw in Hminer, Htxs.
  unfold store_after. simpl snd. split; [exact Hminer|]. split; [exact Huncles|exact Htxs].
Qed.

Lemma enriched_block_addresses_witness :
  fst (ensure_block_Addresses chain (enriched 7) empty_graph) = Done tt /\
  registered the_miner (store_after (ensure_block_Addresses chain (enriched 7) empty_graph)).
Proof.
  destruct (enriched_block_addresses_are_registered chain (get_block chain 7) empty_graph)
    as (Hdone & Hminer & _).
  - intros transaction [<-|[]]. vm_compute. eexists. split; [reflexivity|discriminate].
  - split; [exact Hdone|exact Hminer].
Defined.


(** X24.  Address registration touches nothing else: however
    [ensure_block_Addresses] ends, the edges of the store and the nodes
    without the Address label are as they were. *)
Theorem registration_touches_addresses_only
  (self : EthereumETL) (block : EnrichedBlock) (g : Graph) :
  let g' := store_after (ensure_block_Addresses self block g) in
  edges g' = edges g /\ other_nodes g' = other_nodes g.
Proof.
  intros g'. pose proof (registers_ensure_block_Addresses self block g) as Hreg.
  fold g' in Hreg. split;
    [now apply registered_from_edges|now apply registered_from_other_nodes].
Qed.

(** X25.  Address registration keeps the addresses unique: on a store where no
    address has two Address nodes, none has two after
    [ensure_block_Addresses], however it ends. *)
Theorem registration_keeps_addresses_unique
  (self : EthereumETL) (block : EnrichedBlock) (g : Graph) :
  addresses_unique g ->
  addresses_unique (store_after (ensure_block_Addresses self block g)).
Proof.
  intros Hu. apply (registered_from_unique g); [|exact Hu].
  apply registers_ensure_block_Addresses.
Qed.

Lemma registration_unique_witness :
  addresses_unique (store_after (ensure_block_Addresses chain (enriched 8) empty_graph)).
Proof.
  apply registration_keeps_addresses_unique. intros a. simpl. lia.
Defined.


(** X26.  [sync_task] on a new block: on a store where no address has two
    Address nodes and no Block node holds the number or the hash of the
    block, with a chain node that answers, [sync_task] ends normally and the
    header is in the store, found by [get_local_Block]; what a transaction
    write raises does not end the task. *)
Theorem sync_task_writes_the_header (self : EthereumETL) (n : Z) (g : Graph) :
  node_answers self (get_block self n) ->
  addresses_unique g ->
  block_is_new (get_block self n) g ->
  exists g',
    sync_task self n g = (Done tt, g') /\
    get_local_Block (number (get_block self n)) g'
    = Ok (Some (header_props (get_block self n)), g').
Proof.
  intros Hnode Hu Hnew.
  pose proof (ensure_enriched_done self _ Hnode g) as Hdone.
  destruct (ensure_block_Addresses self (enhance_block self (get_block self n)) g)
    as [o g1] eqn:Hrun.
  simpl in Hdone. subst o.
  now apply (sync_task_after_registration self n g g1).
Qed.

Lemma sync_task_header_witness :
  exists g',
    sync_task chain 8 empty_graph = (Done tt, g') /\
    get_local_Block (number (get_block chain 8)) g'
    = Ok (Some (header_props (get_block chain 8)), g').
Proof.
  apply sync_task_writes_the_header.
  - intros transaction [<-|[]]. vm_compute. discriminate.
  - intros a. simpl. lia.
  - split; reflexivity.
Defined.


Section CheckerOnSyncedBlock.

Lemma matched_has_props l k v n :
  matches [l] [(k, v)] n = true -> truthy_node (Some (node_props n)) = true.
Proof.
  unfold matches, has_prop. cbn [forallb fst snd]. intros H.
  apply andb_true_iff in H as [_ H].
  destruct (node_props n); [discriminate|reflexivity].
Qed.

Lemma only_match l k v g :
  List.length (MATCH [l] [(k, v)] g) = 1%nat ->
  exists n, MATCH [l] [(k, v)] g = [n] /\ truthy_node (Some (node_props n)) = true.
Proof.
  intros Hlen. destruct (MATCH [l] [(k, v)] g) as [|n [|n' r]] eqn:Hm; try discriminate.
  exists n. split; [reflexivity|]. apply (matched_has_props l k v).
  assert (Hin : List.In n (MATCH [l] [(k, v)] g)) by (rewrite Hm; now left).
  unfold MATCH in Hin. now apply List.filter_In in Hin.
Qed.

Lemma check_present_tx_found block transaction g :
  List.length (MATCH ["Transaction"] (transaction_key (get_hash transaction)) g) = 1%nat ->
  check_present_tx block transaction g = (Done tt, g).
Proof.
  intros Hlen. apply only_match in Hlen as (tx & Htx & Htruthy).
  unfold check_present_tx, mbind, Session_bind, read_transaction, write_transaction.
  rewrite get_local_Transaction_cases. unfold transaction_key. rewrite Htx.
  now rewrite Htruthy.
Qed.

Lemma check_present_all_found block txs g :
  (forall transaction,
      List.In transaction txs ->
      List.length (MATCH ["Transaction"] (transaction_key (get_hash transaction)) g) = 1%nat) ->
  for_each txs (check_present_tx block) g = (Done tt, g).
Proof.
  induction txs as [|t txs IH]; intros Hall; [reflexivity|].
  cbn [for_each]. unfold mbind, Session_bind.
  rewrite check_present_tx_found by (apply Hall; now left).
  apply IH. intros t' Ht'. apply Hall. now right.
Qed.

End CheckerOnSyncedBlock.

(** X27.  The checker leaves a synced block alone: where the store holds one
    Block node of the number and one Transaction node of every transaction of
    the block, [check_task] does what the registration of the block's
    addresses does and nothing more. *)
Theorem check_task_leaves_a_synced_block (self : EthereumETL) (n : Z) (g : Graph) :
  List.length (MATCH ["Block"] (block_key n) g) = 1%nat ->
  (forall transaction,
      List.In transaction (transactions (get_block self n)) ->
      List.length (MATCH ["Transaction"] (transaction_key (get_hash transaction)) g) = 1%nat) ->
  check_task self n g
  = ensure_block_Addresses self (enhance_block self (get_block self n)) g.
Proof.
  intros Hblock Htxs. unfold check_task, mbind, Session_bind.
  pose proof (registers_ensure_block_Addresses self
                (enhance_block self (get_block self n)) g) as Hreg.
  destruct (ensure_block_Addresses self (enhance_block self (get_block self n)) g)
    as [[[]|e|] g1]; try reflexivity.
  unfold store_after in Hreg. simpl in Hreg.
  assert (Hblock1 : List.length (MATCH ["Block"] (block_key n) g1) = 1%nat).
  { unfold block_key. rewrite (registered_from_matches g g1) by (reflexivity || exact Hreg).
    exact Hblock. }
  apply only_match in Hblock1 as (b & Hb & Htruthy).
  unfold read_transaction, write_transaction.
  rewrite get_local_Block_cases. unfold block_key. rewrite Hb, Htruthy, enhance_block_raw.
  apply check_present_all_found. intros t Ht.
  unfold transaction_key. rewrite (registered_from_matches g g1) by (reflexivity || exact Hreg).
  now apply Htxs.
Qed.

Lemma synced_block_witness :
  check_task chain 9 (store_after (sync_task chain 9 empty_graph))
  = ensure_block_Addresses chain (enhance_block chain (get_block chain 9))
      (store_after (sync_task chain 9 empty_graph)).
Proof.
  apply check_task_leaves_a_synced_block.
  - vm_compute. reflexivity.
  - intros transaction [<-|[]]. vm_compute. reflexivity.
Defined.


(** X28.  [sync_task] on a block whose number is in the store: once the
    addresses are registered the header write raises [ConstraintError], which
    ends the task, and no transaction of the block is written. *)
Theorem sync_task_refuses_a_stored_block (self : EthereumETL) (n : Z) (g : Graph) :
  MATCH ["Block"] (block_key (number (get_block self n))) g <> [] ->
  sync_task self n g
  = (let run := ensure_block_Addresses self (enhance_block self (get_block self n)) g in
     match fst run with
     | Done _ => (Raised ConstraintError, store_after run)
     | _ => run
     end).
Proof.
  intros Hblock. unfold sync_task, mbind, Session_bind. cbv zeta.
  pose proof (registers_ensure_block_Addresses self
                (enhance_block self (get_block self n)) g) as Hreg.
  destruct (ensure_block_Addresses self (enhance_block self (get_block self n)) g)
    as [[[]|e|] g1]; try reflexivity.
  unfold store_after in *. simpl in *.
  unfold write_transaction. rewrite parse_block_header_refused; [reflexivity|].
  left. rewrite enhance_block_raw. intros Hnil.
  apply Hblock. apply length_zero_nil.
  unfold block_key in *.
  rewrite <- (registered_from_matches g g1) by (reflexivity || exact Hreg).
  now rewrite Hnil.
Qed.

Lemma stored_block_witness :
  sync_task chain 10 (header_written 10)
  = (let run := ensure_block_Addresses chain (enhance_block chain (get_block chain 10))
                  (header_written 10) in
     match fst run with
     | Done _ => (Raised ConstraintError, store_after run)
     | _ => run
     end).
Proof.
  apply sync_task_refuses_a_stored_block. vm_compute. discriminate.
Defined.


(** X29.  A missing block without transactions is repaired as it is synced:
    [check_task] does what [sync_task] does. *)
Theorem check_task_repairs_an_empty_block (self : EthereumETL) (n : Z) (g : Graph) :
  transactions (get_block self n) = [] ->
  MATCH ["Block"] (block_key n) g = [] ->
  check_task self n g = sync_task self n g.
Proof.
  intros Htxs Hblock. unfold check_task, sync_task, mbind, Session_bind.
  pose proof (registers_ensure_block_Addresses self
                (enhance_block self (get_block self n)) g) as Hreg.
  destruct (ensure_block_Addresses self (enhance_block self (get_block self n)) g)
    as [[[]|e|] g1]; try reflexivity.
  unfold store_after in Hreg. simpl in Hreg.
  assert (Hblock1 : MATCH ["Block"] (block_key n) g1 = []).
  { apply length_zero_nil. unfold block_key in *.
    rewrite (registered_from_matches g g1) by (reflexivity || exact Hreg).
    now rewrite Hblock. }
  unfold read_transaction. unfold write_transaction at 1.
  rewrite get_local_Block_cases, Hblock1. cbn [truthy_node].
  rewrite enhance_block_raw, Htxs.
  destruct (write_transaction _ g1) as [[[]|e|] g2]; reflexivity.
Qed.

Lemma empty_block_witness : check_task chain 10 empty_graph = sync_task chain 10 empty_graph.
Proof. apply check_task_repairs_an_empty_block; reflexivity. Defined.


(** ** What a transaction write needs *)

Section TransactionWrite.

Lemma address_nodes_add_other a g n :
  has_label "Address" n = false -> address_nodes a (add_node g n) = address_nodes a g.
Proof.
  intros Hn. rewrite address_nodes_add_node.
  unfold matches at 1. cbn [forallb]. rewrite Hn. apply List.app_nil_r.
Qed.

Lemma item_tx_ok {A} (d : gmap string A) k g v g' :
  item_tx d k g = Ok (v, g') -> d !! k = Some v /\ g' = g.
Proof.
  unfold item_tx. destruct (d !! k); [|discriminate].
  intros H. apply Tx_ret_ok in H as [-> ->]. now split.
Qed.

End TransactionWrite.

(** X30.  What a transaction write needs: [parse_block_tx] returns only on a
    store that does not hold the transaction, holds one Block node of the
    block's number and one Address node of the sender and of the recipient,
    and for a block that lists the transaction's transfers and, for a
    creation, its contract. *)
Theorem transaction_write_needs
  (block : EnrichedBlock) (transaction : Transaction) (g g' : Graph) :
  parse_block_tx block transaction g = Ok (tt, g') ->
  MATCH ["Transaction"] (transaction_key (get_hash transaction)) g = [] /\
  registered_once (tx_from transaction) g /\
  (forall to, tx_to transaction = Some to -> registered_once to g) /\
  (tx_to transaction = None ->
   is_Some (created_contracts block !! get_hash transaction)) /\
  is_Some (transfers block !! get_hash transaction) /\
  List.length (MATCH ["Block"] (block_key (number (raw block))) g) = 1%nat.
Proof.
  intros H. pose proof (parse_block_tx_keeps_blocks _ _ _ _
                          (block_key (number (raw block))) H) as Hblocks.
  unfold parse_block_tx in H. cbv zeta in H.
  apply Tx_bind_ok in H as ([] & g1 & Hinsert & H).
  apply insert_Transaction_ok in Hinsert as (n & -> & Hfits & _ & Hlabels & Hhash & _).
  assert (Hlabel : has_label "Transaction" n = true)
    by (unfold has_label; now rewrite Hlabels).
  assert (Hother : has_label "Address" n = false)
    by (unfold has_label; now rewrite Hlabels).
  split.
  { apply (fits_unique g n); try assumption. unfold schema. simpl. tauto. }
  apply Tx_bind_ok in H as ([] & g2 & Hparties & H).
  apply Tx_bind_ok in H as (block_transfers & g3 & Hitem & H).
  apply item_tx_ok in Hitem as [Htransfers ->].
  apply Tx_bind_ok in H as ([] & g3 & _ & H).
  apply Tx_bind_ok in H as (rows & g4 & Hrows & H).
  unfold match2 in Hrows. inversion Hrows. subst rows g4. clear Hrows.
  apply Tx_bind_ok in H as (results & g4 & Hcount & Hassert).
  destruct (counted_once _ _ _ _ _ _ _ Hcount Hassert) as ([b tx] & Hone & Hedge & ->).
  apply list_prod_one in Hone as [Hb _].
  unfold create_edge in Hedge. inversion Hedge as [Hg4]. clear Hedge.
  rewrite <- Hg4, MATCH_add_edge, Hb in Hblocks.
  assert (Hparties' :
            registered_once (tx_from transaction) g /\
            (forall to, tx_to transaction = Some to -> registered_once to g) /\
            (tx_to transaction = None ->
             is_Some (created_contracts block !! get_hash transaction))).
  { destruct (tx_to transaction) as [to|].
    - apply Tx_bind_ok in Hparties as (rows & g5 & Hrows & Hparties).
      unfold match3 in Hrows. inversion Hrows. subst rows g5. clear Hrows.
      apply Tx_bind_ok in Hparties as (results' & g5 & Hcount' & Hassert').
      destruct (counted_once _ _ _ _ _ _ _ Hcount' Hassert')
        as ([[tx' from] to'] & Hone & _ & _).
      apply list_prod_one in Hone as [Hone Hto].
      apply list_prod_one in Hone as [_ Hfrom].
      change (MATCH ["Address"] (address_key (tx_from transaction)) (add_node g n))
        with (address_nodes (tx_from transaction) (add_node g n)) in Hfrom.
      change (MATCH ["Address"] (address_key to) (add_node g n))
        with (address_nodes to (add_node g n)) in Hto.
      rewrite address_nodes_add_other in Hfrom, Hto by exact Hother.
      split; [unfold registered_once; now rewrite Hfrom|].
      split; [|discriminate].
      intros to0 Hto0. inversion Hto0. subst to0. unfold registered_once. now rewrite Hto.
    - apply Tx_bind_ok in Hparties as (created & g5 & Hitem & Hparties).
      apply item_tx_ok in Hitem as [Hcreated ->].
      apply Tx_bind_ok in Hparties as (rows & g5 & Hrows & Hparties).
      unfold match2 in Hrows. inversion Hrows. subst rows g5. clear Hrows.
      apply Tx_bind_ok in Hparties as (results' & g5 & Hcount' & Hassert').
      destruct (counted_once _ _ _ _ _ _ _ Hcount' Hassert')
        as ([tx' from] & Hone & _ & _).
      apply list_prod_one in Hone as [_ Hfrom].
      change (MATCH ["Address"] (address_key (tx_from transaction)) (add_node g n))
        with (address_nodes (tx_from transaction) (add_node g n)) in Hfrom.
      rewrite address_nodes_add_other in Hfrom by exact Hother.
      split; [unfold registered_once; now rewrite Hfrom|].
      split; [discriminate|]. intros _. now exists created. }
  destruct Hparties' as (Hfrom & Hto & Hcreated).
  split; [exact Hfrom|]. split; [exact Hto|]. split; [exact Hcreated|].
  split; [now exists block_transfers|]. now rewrite <- Hblocks.
Qed.

Lemma transaction_write_witness :
  registered_once (tx_from call_tx) (header_written 8) /\
  List.length (MATCH ["Block"] (block_key (number (raw (enriched 8)))) (header_written 8))
  = 1%nat.
Proof.
  destruct (transaction_write_needs (enriched 8) call_tx (header_written 8)
              (store_after (write_transaction (parse_block_tx (enriched 8) call_tx)
                              (header_written 8))))
    as (_ & Hfrom & _ & _ & _ & Hblock).
  - vm_compute. reflexivity.
  - split; [exact Hfrom|exact Hblock].
Defined.
